(** * Ordering and gap recovery of conversation events

    A shallow embedding of [dist/handlers/events_queue.js] (the Nexmo client
    SDK): the class [EventsQueue], which demultiplexes incoming events by
    conversation id, and the class [ConversationEventsProcessor], which
    buffers, orders and recovers the events of one conversation.

    Around the queue the development also embeds [Utils.addUrlSearchParams]
    (the query of a history request), the packet handler of [NexmoClient]
    (from which the events reach the queue), the handlers of receipts and
    deletions of [ConversationEventHandler] (which the dispatcher runs),
    [Utils.updateMemberLegs] and [RTCStatsAnalytics.updateMOSReport]; each
    of these parts states its own modelling choices.

    Modelling choices.
    - JavaScript numbers that the code compares and increments are [JsNum]:
      an integer or [NaN]; every comparison with [NaN] is false, as in JS.
      The arithmetic is that of the integers, which is that of the code as
      long as the ids stay in the range where double arithmetic is exact
      ([safe]); the theorems on whole runs and on termination say so in
      their hypotheses.
    - The [id] field of an event is a [JsId]: the shapes of JSON value for
      which [Number(id)] is modelled.
    - [eventsMap] (a JS [Map]) is a [gmap Z Event]; [cidMap] a
      [gmap string ConversationEventsProcessor].
    - The two asynchronous collaborators, the application's event handler and
      the paginated history request, are oracles of an [Environment]; their
      answer may depend on everything that happened before, which is
      recorded in a chronological trace of [Action]s.
    - The functions of the engine describe one call that runs to completion,
      and [deliver] a sequence of calls made one after the other; a rejected
      promise is the outcome [Rejected] or an absent result.
    - The caller does not wait for [EventsQueue.enqueue]: calls that overlap
      are the runs of the [Machine] of the part "Overlapping calls", which
      resumes the suspended calls in any order.
    - The recursion of [processEvents] and [processNextEvent] is driven by
      fuel; [None] means that the fuel ran out. *)

From stdpp Require Import base gmap strings list fin_maps sorting.
From Stdlib Require Import ZArith Lia DecimalString.

Open Scope Z_scope.

(** ** JavaScript values *)

Inductive JsNum : Type :=
| NaN
| Num (z : Z).

Definition js_gt (a b : JsNum) : bool :=
  match a, b with
  | Num x, Num y => y <? x
  | _, _ => false
  end.

Definition js_lt (a b : JsNum) : bool := js_gt b a.

Definition js_add (a : JsNum) (k : Z) : JsNum :=
  match a with
  | Num x => Num (x + k)
  | NaN => NaN
  end.

Definition isNaN (a : JsNum) : bool :=
  match a with
  | NaN => true
  | Num _ => false
  end.

(** The values an event's [id] field can hold, as far as [Number(id)] is
    concerned: the field is missing, it is [null], it is a number or a
    numeric string denoting the integer [n], or it is a value that
    [Number] maps to [NaN] (such as the string ["abc"]).  Numbers with a
    fractional part are left out. *)
Inductive JsId : Type :=
| IdUndefined
| IdNull
| IdNumeric (n : Z)
| IdNonNumeric.

Definition Number (v : JsId) : JsNum :=
  match v with
  | IdUndefined => NaN
  | IdNull => Num 0
  | IdNumeric n => Num n
  | IdNonNumeric => NaN
  end.

(** ** Events *)

Record Event : Type := mkEvent {
  ev_id : JsId;
  ev_cid : option string;
  ev_type : string;
  ev_from : option string;
  ev_media_audio : bool;          (* truthiness of [body?.media?.audio] *)
  ev_channel_id : option string;  (* [body?.channel?.id] *)
  ev_body : string                (* the rest of the payload *)
}.

Definition set_cid (c : string) (e : Event) : Event :=
  mkEvent (ev_id e) (Some c) (ev_type e) (ev_from e)
          (ev_media_audio e) (ev_channel_id e) (ev_body e).

(** Truthiness of an optional string: [undefined] and [""] are falsy. *)
Definition truthy (s : option string) : bool :=
  match s with
  | Some EmptyString => false
  | Some _ => true
  | None => false
  end.

Definition same_opt (a b : option string) : bool :=
  match a, b with
  | Some x, Some y => String.eqb x y
  | None, None => true
  | _, _ => false
  end.

(** ** The environment and the trace *)

Inductive Action : Type :=
| Forwarded (e : Event) (ok : bool)
| Dispatched (c : string) (e : Event) (ok : bool)
| Fetched (c : string) (start_id end_id : Z) (items : option (list Event)).

(** [queue_callback] is the callback given to the [EventsQueue] constructor,
    [handleEvent] is [application._handleEvent]: [true] when the returned
    promise resolves, [false] when it rejects or the call throws.
    [paginationRequest] is [utils.paginationRequest] on the events URL of a
    conversation: [Some items], or [None] when the request fails. *)
Record Environment : Type := mkEnv {
  queue_callback : list Action → Event → bool;
  handleEvent : list Action → Event → bool;
  paginationRequest : list Action → string → Z → Z → option (list Event)
}.

(** ** ConversationEventsProcessor *)

Record ConversationEventsProcessor : Type := mkProcessor {
  cid : string;
  eventsMap : gmap Z Event;
  lastEventIdProcessed : JsNum;
  largestEventIdInQueue : Z;
  processing : bool;
  eventsFetchRange : Z
}.

(** [largestEventIdInQueue] is a plain integer: the constructor is only
    called with [eventId - 1] for an [eventId] that passed the [isNaN] test,
    and [enqueue] only stores an [eventId] that compared greater. *)
Definition new_processor (c : string) (lastId : Z) : ConversationEventsProcessor :=
  mkProcessor c ∅ (Num lastId) lastId false 9.

Definition set_eventsMap (m : gmap Z Event) (p : ConversationEventsProcessor) :=
  mkProcessor (cid p) m (lastEventIdProcessed p) (largestEventIdInQueue p)
              (processing p) (eventsFetchRange p).

Definition set_lastEventIdProcessed (l : JsNum) (p : ConversationEventsProcessor) :=
  mkProcessor (cid p) (eventsMap p) l (largestEventIdInQueue p)
              (processing p) (eventsFetchRange p).

Definition set_largestEventIdInQueue (h : Z) (p : ConversationEventsProcessor) :=
  mkProcessor (cid p) (eventsMap p) (lastEventIdProcessed p) h
              (processing p) (eventsFetchRange p).

Definition set_processing (b : bool) (p : ConversationEventsProcessor) :=
  mkProcessor (cid p) (eventsMap p) (lastEventIdProcessed p)
              (largestEventIdInQueue p) b (eventsFetchRange p).

Definition enqueue (eventId : JsNum) (event : Event)
    (p : ConversationEventsProcessor) : ConversationEventsProcessor :=
  match eventId with
  | NaN => p
  | Num n =>
      let p1 := if js_gt (Num n) (Num (largestEventIdInQueue p))
                then set_largestEventIdInQueue n p else p in
      if js_gt (Num n) (lastEventIdProcessed p1)
      then set_eventsMap (<[n := event]> (eventsMap p1)) p1
      else p1
  end.

Definition dequeue (eventId : JsNum) (p : ConversationEventsProcessor)
    : option Event * ConversationEventsProcessor :=
  match eventId with
  | NaN => (None, p)
  | Num n => (eventsMap p !! n, set_eventsMap (delete n (eventsMap p)) p)
  end.

Definition doneProcessing (p : ConversationEventsProcessor) : ConversationEventsProcessor :=
  set_processing false (set_eventsMap ∅ p).

Section Engine.

Context (env : Environment).

(** The request of [fetchConversationEvents]: [None] stands for the
    [NexmoApiError] that the function throws. *)
Definition fetchConversationEvents (start_id range : Z)
    (p : ConversationEventsProcessor) (tr : list Action)
    : option (list Event) * list Action :=
  let end_id := if js_gt (Num (largestEventIdInQueue p)) (Num start_id)
                then largestEventIdInQueue p + range
                else start_id + range in
  let items := paginationRequest env tr (cid p) start_id end_id in
  (items, tr ++ [Fetched (cid p) start_id end_id items]).

(** One round of the [forEach] of [fetchEventsAndProcess]. *)
Definition merge_fetched (missingEvent : Z)
    (acc : option Event * ConversationEventsProcessor) (event : Event)
    : option Event * ConversationEventsProcessor :=
  let '(foundEvent, p) := acc in
  let event := set_cid (cid p) event in
  let eventId := Number (ev_id event) in
  if isNaN eventId || js_lt eventId (Num missingEvent) then (foundEvent, p)
  else if js_gt eventId (Num missingEvent) then (foundEvent, enqueue eventId event p)
  else (Some event, p).

Definition fetchEventsAndProcess (missingEvent : Z)
    (p : ConversationEventsProcessor) (tr : list Action)
    : option Event * ConversationEventsProcessor * list Action :=
  match fetchConversationEvents missingEvent (eventsFetchRange p) p tr with
  | (Some eventsList, tr1) =>
      (fold_left (merge_fetched missingEvent) eventsList (None, p), tr1)
  | (None, tr1) => (None, p, tr1)
  end.

(** [this.callback(event)] of the processor, awaited inside the [try]. *)
Definition callback (p : ConversationEventsProcessor) (event : Event)
    (tr : list Action) : bool * list Action :=
  let ok := handleEvent env tr event in
  (ok, tr ++ [Dispatched (cid p) event ok]).

Fixpoint processNextEvent (fuel : nat) (eventId : JsNum)
    (p : ConversationEventsProcessor) (tr : list Action)
    : option (option Event * ConversationEventsProcessor * list Action) :=
  match fuel with
  | O => None
  | S fuel =>
      let '(event, p) := dequeue eventId p in
      match event with
      | Some event =>
          let '(ok, tr) := callback p event tr in
          Some (if ok then Some event else None, p, tr)
      | None =>
          match eventId with
          | Num n =>
              if js_gt (Num (largestEventIdInQueue p)) (Num n) then
                let '(foundEvent, p, tr) := fetchEventsAndProcess n p tr in
                match foundEvent with
                | Some foundEvent =>
                    let '(ok, tr) := callback p foundEvent tr in
                    Some (if ok then Some foundEvent else None, p, tr)
                | None => processNextEvent fuel (Num (n + 1)) p tr
                end
              else Some (None, p, tr)
          | NaN => Some (None, p, tr)
          end
      end
  end.

Fixpoint processEvents (fuel : nat) (p : ConversationEventsProcessor)
    (tr : list Action) : option (ConversationEventsProcessor * list Action) :=
  match fuel with
  | O => None
  | S fuel =>
      if (size (eventsMap p) <? 1)%nat then Some (doneProcessing p, tr)
      else
        let nextEventToProcess := js_add (lastEventIdProcessed p) 1 in
        match processNextEvent fuel nextEventToProcess p tr with
        | None => None
        | Some (Some processedEvent, p, tr) =>
            processEvents fuel
              (set_lastEventIdProcessed (Number (ev_id processedEvent)) p) tr
        | Some (None, p, tr) => Some (doneProcessing p, tr)
        end
  end.

(** ** EventsQueue *)

Inductive Outcome : Type :=
| Resolved
| Rejected.

Definition is_transfer_trigger (event : Event) : bool :=
  (String.eqb (ev_type event) "member:media" && ev_media_audio event)
  || (String.eqb (ev_type event) "member:joined" && truthy (ev_channel_id event)).

(** One round of the [forEach] over the events of the lookback fetch. *)
Definition scan_transfer (event : Event)
    (acc : bool * ConversationEventsProcessor) (fetchedEvent : Event)
    : bool * ConversationEventsProcessor :=
  let '(transferEventFound, p) := acc in
  let '(transferEventFound, p) :=
    if String.eqb (ev_type fetchedEvent) "rtc:transfer"
       && same_opt (ev_from fetchedEvent) (ev_from event)
    then (true, set_lastEventIdProcessed (js_add (Number (ev_id fetchedEvent)) (-1)) p)
    else (transferEventFound, p) in
  if transferEventFound
  then (transferEventFound, enqueue (Number (ev_id fetchedEvent)) fetchedEvent p)
  else (transferEventFound, p).

(** The part of [EventsQueue.enqueue] that runs once the processor of the
    conversation is in [cidMap]. *)
Definition enqueue_and_process (fuel : nat) (c : string) (eventId : Z)
    (event : Event) (p : ConversationEventsProcessor)
    (cidMap : gmap string ConversationEventsProcessor) (tr : list Action)
    : option (Outcome * gmap string ConversationEventsProcessor * list Action) :=
  let p := enqueue (Num eventId) event p in
  if negb (processing p) then
    match processEvents fuel (set_processing true p) tr with
    | Some (p, tr) => Some (Resolved, <[c := p]> cidMap, tr)
    | None => None
    end
  else Some (Resolved, <[c := p]> cidMap, tr).

Definition EventsQueue_enqueue (fuel : nat) (event : Event)
    (cidMap : gmap string ConversationEventsProcessor) (tr : list Action)
    : option (Outcome * gmap string ConversationEventsProcessor * list Action) :=
  let forward :=
    let ok := queue_callback env tr event in
    Some (if ok then Resolved else Rejected, cidMap, tr ++ [Forwarded event ok]) in
  if negb (truthy (ev_cid event)) || isNaN (Number (ev_id event)) then forward
  else
    match ev_cid event, Number (ev_id event) with
    | Some c, Num eventId =>
        match cidMap !! c with
        | Some p => enqueue_and_process fuel c eventId event p cidMap tr
        | None =>
            let newConversationEventsProcessor := new_processor c (eventId - 1) in
            if is_transfer_trigger event then
              let startingFetchEventId :=
                if eventId - 20 <? 1 then 1 else eventId - 20 in
              match fetchConversationEvents startingFetchEventId 20
                      newConversationEventsProcessor tr with
              | (Some events, tr) =>
                  let '(_, p) :=
                    fold_left (scan_transfer event) events
                              (false, newConversationEventsProcessor) in
                  enqueue_and_process fuel c eventId event p (<[c := p]> cidMap) tr
              | (None, tr) => Some (Rejected, cidMap, tr)
              end
            else
              enqueue_and_process fuel c eventId event
                newConversationEventsProcessor
                (<[c := newConversationEventsProcessor]> cidMap) tr
        end
    | _, _ => forward
    end.

(** Events delivered one after the other, each call run to completion. *)
Fixpoint deliver (fuel : nat) (events : list Event)
    (cidMap : gmap string ConversationEventsProcessor) (tr : list Action)
    : option (gmap string ConversationEventsProcessor * list Action) :=
  match events with
  | [] => Some (cidMap, tr)
  | event :: events =>
      match EventsQueue_enqueue fuel event cidMap tr with
      | Some (_, cidMap, tr) => deliver fuel events cidMap tr
      | None => None
      end
  end.

End Engine.

(** * Specification vocabulary *)

(** ** States *)

(** Every buffered event sits under the key that [Number] gives its id. *)
Definition keys_match (p : ConversationEventsProcessor) : Prop :=
  ∀ k e, eventsMap p !! k = Some e → Number (ev_id e) = Num k.

Definition keys_le_largest (p : ConversationEventsProcessor) : Prop :=
  ∀ k e, eventsMap p !! k = Some e → k ≤ largestEventIdInQueue p.

(** The two invariants of the sequencing state: the last processed id is a
    number not above the largest id seen, and every buffered key is above
    it. *)
Definition last_le_largest (p : ConversationEventsProcessor) : Prop :=
  ∃ l, lastEventIdProcessed p = Num l ∧ l ≤ largestEventIdInQueue p.

Definition keys_above_last (p : ConversationEventsProcessor) : Prop :=
  ∀ k l, is_Some (eventsMap p !! k) → lastEventIdProcessed p = Num l → l < k.

Record Inv (p : ConversationEventsProcessor) : Prop := mkInv {
  inv_last : last_le_largest p;
  inv_above : keys_above_last p;
  inv_match : keys_match p;
  inv_le : keys_le_largest p
}.

(** The event [fe] of a lookback reply is a transfer from the originator of
    the triggering [event]. *)
Definition transfer_from (event fe : Event) : bool :=
  String.eqb (ev_type fe) "rtc:transfer" && same_opt (ev_from fe) (ev_from event).

Definition valid_integer_id (v : JsId) : bool :=
  match v with
  | IdNumeric _ => true
  | _ => false
  end.

(** The events in the reply to a history request carry ids up to [B]. *)
Definition replies_bounded (env : Environment) (B : Z) : Prop :=
  ∀ tr c s t items e k,
    paginationRequest env tr c s t = Some items →
    e ∈ items → Number (ev_id e) = Num k → k ≤ B.

Definition lookback_start (eventId : Z) : Z :=
  if eventId - 20 <? 1 then 1 else eventId - 20.

Definition lookback_end (eventId : Z) : Z :=
  if js_gt (Num (eventId - 1)) (Num (lookback_start eventId))
  then eventId - 1 + 20 else lookback_start eventId + 20.

(** The processor that the scan of the lookback page [events] produces for
    the first event [event], with id [eventId], of conversation [c]. *)
Definition scanned (event : Event) (events : list Event) (c : string)
    (eventId : Z) : ConversationEventsProcessor :=
  (fold_left (scan_transfer event) events (false, new_processor c (eventId - 1))).2.

(** Fuel that is enough for a pass when no reply carries an id above [B]. *)
Definition drain_fuel (B : Z) (p : ConversationEventsProcessor) : nat :=
  match lastEventIdProcessed p with
  | NaN => 2
  | Num l => Z.to_nat (Z.max B (largestEventIdInQueue p) - l) + 2
  end.

(** The first transfer of the page that matches the trigger, if any, has a
    numeric id and no matching transfer after it. *)
Fixpoint single_transfer (event : Event) (events : list Event) : bool :=
  match events with
  | [] => true
  | fe :: events =>
      if transfer_from event fe
      then negb (isNaN (Number (ev_id fe)))
           && forallb (λ t, negb (transfer_from event t)) events
      else single_transfer event events
  end.

(** ** Traces *)

(** The ids handed to [application._handleEvent] for conversation [c], and
    those among them whose handling succeeded. *)
Definition handed_id (c : string) (a : Action) : option Z :=
  match a with
  | Dispatched c' e _ =>
      if String.eqb c c'
      then match Number (ev_id e) with Num n => Some n | NaN => None end
      else None
  | _ => None
  end.

Definition delivered_id (c : string) (a : Action) : option Z :=
  match a with
  | Dispatched _ _ true => handed_id c a
  | _ => None
  end.

Definition handed (c : string) (tr : list Action) : list Z := omap (handed_id c) tr.
Definition delivered (c : string) (tr : list Action) : list Z := omap (delivered_id c) tr.

(** The actions of one pass of the drain loop of conversation [c] that
    starts with last processed id [l] and ends with [l']: fetches, successful
    dispatches of ids above the last processed one, and at most one failed
    dispatch, which ends the pass. *)
Inductive pass_trace (c : string) : Z → list Action → Z → Prop :=
| pass_done l : pass_trace c l [] l
| pass_fetch l s t items delta l' :
    pass_trace c l delta l' →
    pass_trace c l (Fetched c s t items :: delta) l'
| pass_ok l e k delta l' :
    l < k → Number (ev_id e) = Num k →
    pass_trace c k delta l' →
    pass_trace c l (Dispatched c e true :: delta) l'
| pass_fail l e k :
    l < k → Number (ev_id e) = Num k →
    pass_trace c l [Dispatched c e false] l.

Definition fetch_of (c : string) (a : Action) : Prop :=
  match a with
  | Fetched c' _ _ _ => c' = c
  | _ => False
  end.

(** Between two calls of [EventsQueue.enqueue], every registered processor
    is idle with an empty buffer, and the ids it delivered so far increase
    strictly and stay at or below its last processed id; a conversation
    without processor has had no event dispatched. *)
Definition at_rest (cidMap : gmap string ConversationEventsProcessor)
    (tr : list Action) : Prop :=
  ∀ c,
    match cidMap !! c with
    | None => handed c tr = []
    | Some p =>
        cid p = c ∧ eventsMap p = ∅ ∧ processing p = false
        ∧ StronglySorted Z.lt (delivered c tr)
        ∧ match lastEventIdProcessed p with
          | Num l => Forall (λ k, k ≤ l) (delivered c tr)
          | NaN => delivered c tr = []
          end
    end.

Definition trace_of
    (r : option (gmap string ConversationEventsProcessor * list Action))
    : option (list Action) := snd <$> r.

Definition summary (r : option (ConversationEventsProcessor * list Action))
    : option (JsNum * Z * gmap Z Event * bool * list Action) :=
  (λ x, (lastEventIdProcessed x.1, largestEventIdInQueue x.1, eventsMap x.1,
         processing x.1, x.2)) <$> r.

(** The event [e] is an event of a page fetched in [tr] for conversation
    [c], with the conversation id put back. *)
Definition from_fetch (c : string) (tr : list Action) (e : Event) : Prop :=
  ∃ s t items e0,
    Fetched c s t (Some items) ∈ tr ∧ e0 ∈ items ∧ e = set_cid c e0.

(** The event [e] was in the buffer of [p] or comes from a fetch in [tr]. *)
Definition sourced (p : ConversationEventsProcessor) (tr : list Action)
    (e : Event) : Prop :=
  (∃ k, eventsMap p !! k = Some e) ∨ from_fetch (cid p) tr e.

(** ** What the functions leave behind *)

(** What merging the events [items] of a page requested for the missing id
    [n] does to the processor. *)
Record merged (n : Z) (items : list Event)
    (p p' : ConversationEventsProcessor) : Prop := mkMerged {
  mg_cid : cid p' = cid p;
  mg_last : lastEventIdProcessed p' = lastEventIdProcessed p;
  mg_processing : processing p' = processing p;
  mg_range : eventsFetchRange p' = eventsFetchRange p;
  mg_largest : largestEventIdInQueue p ≤ largestEventIdInQueue p';
  mg_keeps : ∀ k, is_Some (eventsMap p !! k) → is_Some (eventsMap p' !! k);
  mg_lookup : ∀ k x, eventsMap p' !! k = Some x →
      eventsMap p !! k = Some x
      ∨ (n < k ∧ k ≤ largestEventIdInQueue p'
         ∧ js_gt (Num k) (lastEventIdProcessed p) = true
         ∧ ∃ e0, e0 ∈ items ∧ x = set_cid (cid p) e0 ∧ Number (ev_id e0) = Num k);
  mg_bound : ∀ B, largestEventIdInQueue p ≤ B →
      (∀ e0 k, e0 ∈ items → Number (ev_id e0) = Num k → k ≤ B) →
      largestEventIdInQueue p' ≤ B
}.

(** The request sent for a missing id, and the reply to it. *)
Definition gap_end_id (n : Z) (p : ConversationEventsProcessor) : Z :=
  if js_gt (Num (largestEventIdInQueue p)) (Num n)
  then largestEventIdInQueue p + eventsFetchRange p
  else n + eventsFetchRange p.

Definition gap_reply (env : Environment) (n : Z)
    (p : ConversationEventsProcessor) (tr : list Action)
    : option (list Event) :=
  paginationRequest env tr (cid p) n (gap_end_id n p).

Definition reply_items (r : option (list Event)) : list Event :=
  match r with
  | Some items => items
  | None => []
  end.

(** What a call of [processNextEvent] for the id [n] leaves behind. *)
Record next_post (env : Environment) (n : Z)
    (p : ConversationEventsProcessor) (tr : list Action)
    (r : option Event) (p' : ConversationEventsProcessor) (tr' : list Action)
    : Prop := mkNextPost {
  np_cid : cid p' = cid p;
  np_last : lastEventIdProcessed p' = lastEventIdProcessed p;
  np_processing : processing p' = processing p;
  np_range : eventsFetchRange p' = eventsFetchRange p;
  np_largest : largestEventIdInQueue p ≤ largestEventIdInQueue p';
  np_match : keys_match p';
  np_le : keys_le_largest p → keys_le_largest p';
  np_floor : (∀ j, is_Some (eventsMap p !! j) → n ≤ j) →
             ∀ j, is_Some (eventsMap p' !! j) → n ≤ j;
  np_bound : ∀ B, largestEventIdInQueue p ≤ B → replies_bounded env B →
             largestEventIdInQueue p' ≤ B;
  np_trace : ∃ fs tail, Forall (fetch_of (cid p)) fs ∧ tr' = tr ++ fs ++ tail ∧
      match r with
      | Some e => ∃ k, n ≤ k ∧ Number (ev_id e) = Num k
          ∧ tail = [Dispatched (cid p) e true]
          ∧ (keys_le_largest p → k ≤ largestEventIdInQueue p')
          ∧ ((∀ j, is_Some (eventsMap p !! j) → n ≤ j) →
             ∀ j, is_Some (eventsMap p' !! j) → k < j)
      | None => tail = []
          ∨ ∃ e k, n ≤ k ∧ Number (ev_id e) = Num k
                   ∧ tail = [Dispatched (cid p) e false]
      end
}.

(** What a completed pass of [processEvents] leaves behind. *)
Record pass_post (env : Environment)
    (p : ConversationEventsProcessor) (tr : list Action)
    (p' : ConversationEventsProcessor) (tr' : list Action) : Prop := mkPassPost {
  pp_cid : cid p' = cid p;
  pp_range : eventsFetchRange p' = eventsFetchRange p;
  pp_largest : largestEventIdInQueue p ≤ largestEventIdInQueue p';
  pp_cleared : eventsMap p' = ∅;
  pp_idle : processing p' = false;
  pp_bound : ∀ B, largestEventIdInQueue p ≤ B → replies_bounded env B →
             largestEventIdInQueue p' ≤ B;
  pp_NaN : lastEventIdProcessed p = NaN →
           lastEventIdProcessed p' = NaN ∧ tr' = tr;
  pp_trace : ∀ l, lastEventIdProcessed p = Num l →
      ∃ l' delta, lastEventIdProcessed p' = Num l' ∧ tr' = tr ++ delta
        ∧ pass_trace (cid p) l delta l'
        ∧ (keys_le_largest p → l ≤ largestEventIdInQueue p →
           l' ≤ largestEventIdInQueue p')
}.

(** The three ways a call of [EventsQueue.enqueue] can go. *)
Inductive routed (env : Environment) (event : Event)
    (cidMap : gmap string ConversationEventsProcessor) (tr : list Action)
    : Outcome → gmap string ConversationEventsProcessor → list Action → Prop :=
| routed_forward :
    negb (truthy (ev_cid event)) || isNaN (Number (ev_id event)) = true →
    routed env event cidMap tr
      (if queue_callback env tr event then Resolved else Rejected) cidMap
      (tr ++ [Forwarded event (queue_callback env tr event)])
| routed_lookback_failed c n :
    ev_cid event = Some c → Number (ev_id event) = Num n →
    cidMap !! c = None → is_transfer_trigger event = true →
    paginationRequest env tr c (lookback_start n) (lookback_end n) = None →
    routed env event cidMap tr Rejected cidMap
      (tr ++ [Fetched c (lookback_start n) (lookback_end n) None])
| routed_sequenced c n p0 tr0 p' tr' :
    ev_cid event = Some c → truthy (Some c) = true →
    Number (ev_id event) = Num n →
    (cidMap !! c = Some p0 ∧ tr0 = tr
     ∨ cidMap !! c = None ∧ is_transfer_trigger event = false
       ∧ p0 = new_processor c (n - 1) ∧ tr0 = tr
     ∨ cidMap !! c = None ∧ is_transfer_trigger event = true
       ∧ ∃ events,
           paginationRequest env tr c (lookback_start n) (lookback_end n)
             = Some events
           ∧ p0 = scanned event events c n
           ∧ tr0 = tr ++ [Fetched c (lookback_start n) (lookback_end n) (Some events)]) →
    pass_post env (set_processing true (enqueue (Num n) event p0)) tr0 p' tr' →
    routed env event cidMap tr Resolved (<[c := p']> cidMap) tr'.

(** ** Concrete conversations *)

Definition text_event (n : Z) (body : string) : Event :=
  mkEvent (IdNumeric n) (Some "CON-1"%string) "text" (Some "MEM-1"%string)
          false None body.

(** An event as the history request returns it: without conversation id. *)
Definition history_event (n : Z) (type : string) (from : string) : Event :=
  mkEvent (IdNumeric n) None type (Some from) false None "history".

Definition handed_before (n : Z) (tr : list Action) : bool :=
  existsb (λ a, match a with
                | Dispatched _ e _ =>
                    match Number (ev_id e) with Num k => k =? n | NaN => false end
                | _ => false
                end) tr.

(** The handler rejects id 13 the first time it sees it; no history. *)
Definition env_retry : Environment :=
  mkEnv (λ _ _, true)
        (λ tr e, match Number (ev_id e) with
                 | Num 13 => handed_before 13 tr
                 | _ => true
                 end)
        (λ _ _ _ _, None).

(** Last processed id 10, largest id 13 through the buffered event 13. *)
Definition p_gap13 : ConversationEventsProcessor :=
  set_processing true
    (enqueue (Num 13) (text_event 13 "live") (new_processor "CON-1" 10)).

(** The history has 12 and 13 but not 11. *)
Definition env_without_11 : Environment :=
  mkEnv (λ _ _, true) (λ _ _, true)
        (λ _ _ start_id _,
           if start_id =? 11
           then Some [history_event 12 "text" "MEM-1"; history_event 13 "text" "MEM-1"]
           else Some []).

(** The history is empty and the handler rejects id 13. *)
Definition env_reject_13 : Environment :=
  mkEnv (λ _ _, true)
        (λ _ e, match Number (ev_id e) with Num 13 => false | _ => true end)
        (λ _ _ _ _, Some []).

(** Last processed id 10, largest id 15 through the buffered event 15. *)
Definition p_gap15 : ConversationEventsProcessor :=
  set_processing true
    (enqueue (Num 15) (text_event 15 "live") (new_processor "CON-1" 10)).

Definition page_11_13 : list Event :=
  [history_event 11 "text" "MEM-1"; history_event 12 "text" "MEM-1";
   history_event 13 "text" "MEM-1"].

(** Every history request is answered with the events 11, 12 and 13. *)
Definition env_page_11_13 : Environment :=
  mkEnv (λ _ _, true) (λ _ _, true) (λ _ _ _ _, Some page_11_13).

Definition recovered_11_13 : list Action :=
  [Fetched "CON-1" 11 24 (Some page_11_13);
   Dispatched "CON-1" (set_cid "CON-1" (history_event 11 "text" "MEM-1")) true;
   Dispatched "CON-1" (set_cid "CON-1" (history_event 12 "text" "MEM-1")) true;
   Dispatched "CON-1" (set_cid "CON-1" (history_event 13 "text" "MEM-1")) true].

(** A first event that triggers the lookback: a member joining with a
    channel id. *)
Definition joined_event (n : Z) : Event :=
  mkEvent (IdNumeric n) (Some "CON-1"%string) "member:joined"
          (Some "MEM-1"%string) false (Some "CH-1"%string) "joined".

(** A lookback page with two transfers from the joining member. *)
Definition page_two_transfers : list Event :=
  [history_event 5 "rtc:transfer" "MEM-1"; history_event 6 "text" "MEM-1";
   history_event 7 "text" "MEM-1"; history_event 8 "rtc:transfer" "MEM-1";
   history_event 9 "text" "MEM-1"].

(** A lookback page with one transfer from the joining member, at id 5. *)
Definition page_one_transfer : list Event :=
  [history_event 3 "text" "MEM-2"; history_event 4 "rtc:transfer" "MEM-2";
   history_event 5 "rtc:transfer" "MEM-1"; history_event 6 "text" "MEM-1";
   history_event 7 "text" "MEM-2"; history_event 9 "text" "MEM-1"].

Definition env_two_transfers : Environment :=
  mkEnv (λ _ _, true) (λ _ _, true) (λ _ _ _ _, Some page_two_transfers).

Definition env_one_transfer : Environment :=
  mkEnv (λ _ _, true) (λ _ _, true) (λ _ _ _ _, Some page_one_transfer).

Definition null_id_event : Event :=
  mkEvent IdNull (Some "CON-1"%string) "text" (Some "MEM-1"%string) false None
          "null id".

Definition no_cid_event : Event :=
  mkEvent (IdNumeric 7) None "text" (Some "MEM-1"%string) false None "no cid".

Definition env_accept : Environment :=
  mkEnv (λ _ _, true) (λ _ _, true) (λ _ _ _ _, Some []).

(** The handler rejects id 11 the first time; the history has 11, 12, 13. *)
Definition env_reject_11_once : Environment :=
  mkEnv (λ _ _, true)
        (λ tr e, match Number (ev_id e) with
                 | Num 11 => handed_before 11 tr
                 | _ => true
                 end)
        (λ _ _ _ _, Some page_11_13).



(** ** Further vocabulary *)

(** The action [a] is a dispatch or a history request of conversation [c]. *)
Definition concerns (c : string) (a : Action) : bool :=
  match a with
  | Forwarded _ _ => false
  | Dispatched c' _ _ => String.eqb c c'
  | Fetched c' _ _ _ => String.eqb c c'
  end.

(** The processor [p'] is not behind [p]: neither of the two marks went
    back. *)
Definition not_behind (p p' : ConversationEventsProcessor) : Prop :=
  largestEventIdInQueue p ≤ largestEventIdInQueue p'
  ∧ match lastEventIdProcessed p with
    | Num l => ∃ l', lastEventIdProcessed p' = Num l' ∧ l ≤ l'
    | NaN => lastEventIdProcessed p' = NaN
    end.

(** The processor that a call leaves for an event with id [n] that was
    dispatched alone: the buffer is empty again, the last processed id is
    [n] when the handler succeeded. *)
Definition settled (p : ConversationEventsProcessor) (n : Z) (ok : bool)
    : ConversationEventsProcessor :=
  mkProcessor (cid p) ∅ (if ok then Num n else lastEventIdProcessed p)
              (Z.max (largestEventIdInQueue p) n) false (eventsFetchRange p).





(** The last processed id, when it is a number, is not above the largest id
    seen. *)
Definition marks_ordered (p : ConversationEventsProcessor) : Prop :=
  ∀ l, lastEventIdProcessed p = Num l → l ≤ largestEventIdInQueue p.

(** * The URL of a history request

    [Utils.addUrlSearchParams] of [utils.js], which [Utils.paginationRequest]
    applies to the URL and the parameters [{ start_id, end_id }] that
    [fetchConversationEvents] passes.  A URL is its part before the query and
    the list of name-value pairs of its [searchParams]; parsing and
    serialisation ([new URL], [href]) are not modelled.  The values of
    [params] are the JSON values below, numbers being [JsNum]. *)

Inductive JsParam : Type :=
| PUndefined
| PNull
| PBoolean (b : bool)
| PNumber (x : JsNum)
| PString (s : string).

(** Truthiness of [params[key]]. *)
Definition param_truthy (v : JsParam) : bool :=
  match v with
  | PUndefined => false
  | PNull => false
  | PBoolean b => b
  | PNumber NaN => false
  | PNumber (Num z) => negb (z =? 0)
  | PString EmptyString => false
  | PString _ => true
  end.

(** [typeof params[key] === 'string' && params[key].length < 1] *)
Definition is_empty_string (v : JsParam) : bool :=
  match v with
  | PString EmptyString => true
  | _ => false
  end.

Definition is_null (v : JsParam) : bool :=
  match v with
  | PNull => true
  | _ => false
  end.

(** The string that [searchParams.set] stores for a value. *)
Definition param_to_string (v : JsParam) : string :=
  match v with
  | PUndefined => "undefined"
  | PNull => "null"
  | PBoolean true => "true"
  | PBoolean false => "false"
  | PNumber NaN => "NaN"
  | PNumber (Num z) => NilZero.string_of_int (Z.to_int z)
  | PString s => s
  end.

Record URL : Type := mkURL {
  url_base : string;
  searchParams : list (string * string)
}.

(** [URLSearchParams.set]: the first pair with the name takes the value and
    the other pairs with the name are removed; when there is none, the pair
    is appended. *)
Fixpoint searchParams_set (name value : string) (q : list (string * string))
    : list (string * string) :=
  match q with
  | [] => [(name, value)]
  | (k, v) :: q =>
      if String.eqb k name
      then (k, value) :: filter (λ kv, kv.1 ≠ name) q
      else (k, v) :: searchParams_set name value q
  end.

(** [URLSearchParams.get]: the value of the first pair with the name. *)
Fixpoint searchParams_get (name : string) (q : list (string * string))
    : option string :=
  match q with
  | [] => None
  | (k, v) :: q => if String.eqb k name then Some v else searchParams_get name q
  end.

(** [params] is the list of the own properties of the object, in the order
    of [Object.keys]. *)
Definition addUrlSearchParams (url : URL) (params : list (string * JsParam)) : URL :=
  fold_left
    (λ appended_url '(key, v),
       if param_truthy v && negb (is_empty_string v) && negb (is_null v)
       then mkURL (url_base appended_url)
                  (searchParams_set key (param_to_string v)
                     (searchParams appended_url))
       else appended_url)
    params url.

(** The parameters [{ start_id, end_id }] of [fetchConversationEvents]. *)
Definition events_params (start_id end_id : Z) : list (string * JsParam) :=
  [("start_id"%string, PNumber (Num start_id));
   ("end_id"%string, PNumber (Num end_id))].

(** The value of the own property [key] of [params]. *)
Fixpoint param_of (key : string) (params : list (string * JsParam))
    : option JsParam :=
  match params with
  | [] => None
  | (k, v) :: params => if String.eqb k key then Some v else param_of key params
  end.

(** * Incoming packets

    The handler that [NexmoClient._createAndSetConnection] registers for the
    packets of the socket, the caller of [application._enqueueEvent], with
    [sendRequest], [updateSession] and [ErrorsEmitter.emitResponseIfError].
    A packet is its [type], its event name [data[0]] and the fields [rid]
    and [body.id] of its payload [data[1]], which is assumed to be an
    object.  [requests] holds the own properties of [this.requests]. *)

Record Packet : Type := mkPacket {
  packet_type : Z;
  packet_name : string;            (* [packet.data[0]] *)
  packet_rid : option string;      (* [packet.data[1].rid], [None]: undefined *)
  packet_body_id : option string   (* [packet.data[1].body.id] *)
}.

(** A pending request: its [type] and whether a [callback] was given. *)
Record Request : Type := mkRequest {
  request_type : string;
  has_callback : bool
}.

Record NexmoClient : Type := mkClient {
  requests : gmap string Request;
  errorsEmitter : bool;            (* [this.errorsEmitter] is set *)
  application : bool;              (* [this.application] is set *)
  session_id : option string
}.

(** The properties that the object [this.requests], created by [{}],
    inherits from [Object.prototype]; the operator [in] finds them. *)
Definition Object_prototype : list string :=
  ["constructor"; "hasOwnProperty"; "isPrototypeOf"; "propertyIsEnumerable";
   "toLocaleString"; "toString"; "valueOf"; "__proto__"; "__defineGetter__";
   "__defineSetter__"; "__lookupGetter__"; "__lookupSetter__"]%string.

(** The property key that a [rid] is turned into. *)
Definition property_key (rid : option string) : string :=
  match rid with
  | Some s => s
  | None => "undefined"
  end.

Definition startsWith (s prefix : string) : bool := String.prefix prefix s.

(** [ErrorsEmitter._isTypeError]: [param.indexOf('error') !== -1] *)
Definition _isTypeError (param : string) : bool :=
  match String.index 0 "error" param with
  | Some _ => true
  | None => false
  end.

(** What the handler does with a packet. *)
Inductive Handling : Type :=
| Ignored                                    (* not an event packet, or an echo *)
| LoginCallback                              (* callback of the pending login *)
| RequestCallback (key : string) (emitted : bool)
                                             (* callback of [requests[rid]]; the
                                                response was first emitted as an
                                                error when [emitted] *)
| NotAFunction (emitted : bool)              (* [callback(response)] throws *)
| ErrorEmitter (emitted : bool)              (* [emitResponseIfError] alone *)
| SessionUpdate                              (* [updateSession] *)
| EnqueueEvent                               (* [application._enqueueEvent] *)
| NoApplication.

Definition delete_request (key : string) (client : NexmoClient) : NexmoClient :=
  mkClient (delete key (requests client)) (errorsEmitter client)
           (application client) (session_id client).

Definition updateSession (packet : Packet) (client : NexmoClient) : NexmoClient :=
  if String.eqb (packet_name packet) "session:success"
  then mkClient (requests client) (errorsEmitter client) (application client)
                (packet_body_id packet)
  else client.

Definition on_packet (client : NexmoClient) (packet : Packet)
    : Handling * NexmoClient :=
  if negb (packet_type packet =? 2) then (Ignored, client)
  else if String.eqb (packet_name packet) "echo" then (Ignored, client)
  else
    let type := packet_name packet in
    match requests client !! "session:login"%string with
    | Some login =>
        (if has_callback login then LoginCallback else NotAFunction false,
         delete_request "session:login" client)
    | None =>
        let key := property_key (packet_rid packet) in
        let emitted := errorsEmitter client && _isTypeError type in
        match requests client !! key with
        | Some request =>
            (if has_callback request then RequestCallback key emitted
             else NotAFunction emitted,
             delete_request key client)
        | None =>
            if bool_decide (key ∈ Object_prototype)
            then (NotAFunction emitted, client)
            else if errorsEmitter client && startsWith type "system:error:"
            then (ErrorEmitter (_isTypeError type), client)
            else if startsWith type "session:"
            then (SessionUpdate, updateSession packet client)
            else if application client then (EnqueueEvent, client)
            else (NoApplication, client)
        end
    end.

(** [sendRequest], with the identifier that [allocateUUID] returned;
    [createSession] stores the login in the same way under
    ["session:login"]. *)
Definition sendRequest (tid : string) (request : Request)
    (client : NexmoClient) : NexmoClient :=
  mkClient (<[tid := request]> (requests client)) (errorsEmitter client)
           (application client) (session_id client).

(** Requests sent and packets received, one after the other. *)
Inductive Traffic : Type :=
| Sent (tid : string) (request : Request)
| Received (packet : Packet).

Fixpoint exchange (client : NexmoClient) (traffic : list Traffic)
    : list Handling * NexmoClient :=
  match traffic with
  | [] => ([], client)
  | Sent tid request :: traffic => exchange (sendRequest tid request client) traffic
  | Received packet :: traffic =>
      let '(h, client) := on_packet client packet in
      let '(hs, client) := exchange client traffic in
      (h :: hs, client)
  end.

(** The request whose callback a handling invokes. *)
Definition callback_of (h : Handling) : option string :=
  match h with
  | LoginCallback => Some "session:login"%string
  | RequestCallback key _ => Some key
  | _ => None
  end.

Definition sent_as (key : string) (t : Traffic) : bool :=
  match t with
  | Sent tid _ => String.eqb tid key
  | Received _ => false
  end.

Definition invokes (key : string) (h : Handling) : bool :=
  match callback_of h with
  | Some k => String.eqb k key
  | None => false
  end.

(** Whether a request is stored under [key]. *)
Definition pending (key : string) (client : NexmoClient) : nat :=
  match requests client !! key with
  | Some _ => 1
  | None => 0
  end.

(** * Receipts and deletions

    The handlers of [ConversationEventHandler] (conversation_events.js) that
    mark an event of [conversation.events] as delivered, seen, submitted,
    rejected or undeliverable, and the one that blanks a deleted event.
    [conversation.events] is a JS [Map]: a [gmap] from the ids, of a type [K]
    with decidable equality, to the stored events; every key is assumed to
    hold an object of its own.  Of a stored event the model keeps what the
    handlers read or write; the incoming event is assumed to have a
    [body]. *)

(** The [state] of a stored event; [None] is a field that is undefined. *)
Record EventState : Type := mkEventState {
  delivered_to : option (gmap string string);
  seen_by : option (gmap string string);
  submitted_to : option (gmap string string);
  rejected_by : option (gmap string string);
  undeliverable_to : option (gmap string string)
}.

(** [body.representations]: undefined, an object, or the string that
    [_processDelete] puts there. *)
Inductive Representations : Type :=
| NoRepresentations
| SomeRepresentations (r : string)
| BlankRepresentations.

(** [body.timestamp]: what the event came with, or [{ deleted: t }]. *)
Inductive BodyTimestamp : Type :=
| Original (t : option string)
| Deleted (t : string).

Record NXMEvent : Type := mkNXMEvent {
  body_text : option string;
  body_representations : Representations;
  body_timestamp : BodyTimestamp;
  state : option EventState
}.

(** An incoming receipt or deletion: [body.event_id], [from], [timestamp]. *)
Record Notice (K : Type) : Type := mkNotice {
  body_event_id : K;
  from : string;
  timestamp : string
}.

Arguments mkNotice {K}.
Arguments body_event_id {K}.
Arguments from {K}.
Arguments timestamp {K}.

Definition no_state : EventState := mkEventState None None None None None.

Definition set_state (s : EventState) (e : NXMEvent) : NXMEvent :=
  mkNXMEvent (body_text e) (body_representations e) (body_timestamp e) (Some s).

Definition or_empty (m : option (gmap string string)) : gmap string string :=
  match m with
  | Some m => m
  | None => ∅
  end.

Section Handlers.

Context {K : Type} `{Countable K}.

Definition _processDelivered (events : gmap K NXMEvent) (event : Notice K)
    : option NXMEvent * gmap K NXMEvent :=
  match events !! body_event_id event with
  | Some event_to_mark =>
      let s := match state event_to_mark with Some s => s | None => no_state end in
      let s := mkEventState
                 (Some (<[from event := timestamp event]> (or_empty (delivered_to s))))
                 (seen_by s) (submitted_to s) (rejected_by s) (undeliverable_to s) in
      let event_to_mark := set_state s event_to_mark in
      (Some event_to_mark, <[body_event_id event := event_to_mark]> events)
  | None => (None, events)
  end.

Definition _processSeen (events : gmap K NXMEvent) (event : Notice K)
    : option NXMEvent * gmap K NXMEvent :=
  match events !! body_event_id event with
  | Some event_to_mark =>
      let s := match state event_to_mark with Some s => s | None => no_state end in
      let s := mkEventState
                 (delivered_to s)
                 (Some (<[from event := timestamp event]> (or_empty (seen_by s))))
                 (submitted_to s) (rejected_by s) (undeliverable_to s) in
      let event_to_mark := set_state s event_to_mark in
      (Some event_to_mark, <[body_event_id event := event_to_mark]> events)
  | None => (None, events)
  end.

Definition _processSubmitted (events : gmap K NXMEvent) (event : Notice K)
    : option NXMEvent * gmap K NXMEvent :=
  match events !! body_event_id event with
  | Some event_to_mark =>
      let s := match state event_to_mark with Some s => s | None => no_state end in
      let s := mkEventState
                 (delivered_to s) (seen_by s)
                 (Some (<[from event := timestamp event]> (or_empty (submitted_to s))))
                 (rejected_by s) (undeliverable_to s) in
      let event_to_mark := set_state s event_to_mark in
      (Some event_to_mark, <[body_event_id event := event_to_mark]> events)
  | None => (None, events)
  end.

Definition _processRejected (events : gmap K NXMEvent) (event : Notice K)
    : option NXMEvent * gmap K NXMEvent :=
  match events !! body_event_id event with
  | Some event_to_mark =>
      let s := match state event_to_mark with Some s => s | None => no_state end in
      let s := mkEventState
                 (delivered_to s) (seen_by s) (submitted_to s)
                 (Some (<[from event := timestamp event]> (or_empty (rejected_by s))))
                 (undeliverable_to s) in
      let event_to_mark := set_state s event_to_mark in
      (Some event_to_mark, <[body_event_id event := event_to_mark]> events)
  | None => (None, events)
  end.

Definition _processUndeliverable (events : gmap K NXMEvent) (event : Notice K)
    : option NXMEvent * gmap K NXMEvent :=
  match events !! body_event_id event with
  | Some event_to_mark =>
      let s := match state event_to_mark with Some s => s | None => no_state end in
      let s := mkEventState
                 (delivered_to s) (seen_by s) (submitted_to s) (rejected_by s)
                 (Some (<[from event := timestamp event]>
                          (or_empty (undeliverable_to s)))) in
      let event_to_mark := set_state s event_to_mark in
      (Some event_to_mark, <[body_event_id event := event_to_mark]> events)
  | None => (None, events)
  end.

Definition _processDelete (events : gmap K NXMEvent) (event : Notice K)
    : option NXMEvent * gmap K NXMEvent :=
  match events !! body_event_id event with
  | Some event_to_delete =>
      let text := match body_text event_to_delete with
                  | Some (String _ _) => Some EmptyString
                  | t => t
                  end in
      let representations :=
        match body_representations event_to_delete with
        | SomeRepresentations _ => BlankRepresentations
        | r => r
        end in
      let event_to_delete :=
        mkNXMEvent text representations (Deleted (timestamp event))
                   (state event_to_delete) in
      (Some event_to_delete, <[body_event_id event := event_to_delete]> events)
  | None => (None, events)
  end.

(** The entries of [_handleEventMap] for receipts and deletions. *)
Definition receipt_handler (type : string)
    : option (gmap K NXMEvent → Notice K → option NXMEvent * gmap K NXMEvent) :=
  if String.eqb type "event:delete" then Some _processDelete
  else if String.eqb type "image:delivered" then Some _processDelivered
  else if String.eqb type "image:seen" then Some _processSeen
  else if String.eqb type "text:delivered" then Some _processDelivered
  else if String.eqb type "text:seen" then Some _processSeen
  else if String.eqb type "message:delivered" then Some _processDelivered
  else if String.eqb type "message:seen" then Some _processSeen
  else if String.eqb type "message:submitted" then Some _processSubmitted
  else if String.eqb type "message:rejected" then Some _processRejected
  else if String.eqb type "message:undeliverable" then Some _processUndeliverable
  else None.

(** The notices of a list handled one after the other.  The handlers of the
    other types are not part of the model: the statements below are about
    lists of receipts and deletions. *)
Definition handle_notice (events : gmap K NXMEvent) (n : string * Notice K)
    : gmap K NXMEvent :=
  match receipt_handler n.1 with
  | Some handler => (handler events n.2).2
  | None => events
  end.

Definition handle_notices (events : gmap K NXMEvent)
    (notices : list (string * Notice K)) : gmap K NXMEvent :=
  fold_left handle_notice notices events.

End Handlers.

(** What a notice writes: one of the five marks of [state], or the body. *)
Inductive Mark : Type :=
| MDelivered
| MSeen
| MSubmitted
| MRejected
| MUndeliverable
| MDelete.

Global Instance Mark_eq_dec : EqDecision Mark.
Proof. solve_decision. Defined.

Definition mark_of (type : string) : option Mark :=
  if String.eqb type "event:delete" then Some MDelete
  else if String.eqb type "image:delivered" then Some MDelivered
  else if String.eqb type "image:seen" then Some MSeen
  else if String.eqb type "text:delivered" then Some MDelivered
  else if String.eqb type "text:seen" then Some MSeen
  else if String.eqb type "message:delivered" then Some MDelivered
  else if String.eqb type "message:seen" then Some MSeen
  else if String.eqb type "message:submitted" then Some MSubmitted
  else if String.eqb type "message:rejected" then Some MRejected
  else if String.eqb type "message:undeliverable" then Some MUndeliverable
  else None.

(** What a notice writes: a mark of an event for a sender, or the body of
    an event; [None] for a type that has no handler of this kind. *)
Definition slot {K : Type} (n : string * Notice K) : option (Mark * K * string) :=
  match mark_of n.1 with
  | Some MDelete => Some (MDelete, body_event_id n.2, EmptyString)
  | Some i => Some (i, body_event_id n.2, from n.2)
  | None => None
  end.

(** What a notice does to the event it names. *)
Definition apply_mark (i : Mark) (sender time : string) (e : NXMEvent) : NXMEvent :=
  let s := match state e with Some s => s | None => no_state end in
  match i with
  | MDelivered =>
      set_state (mkEventState (Some (<[sender := time]> (or_empty (delivered_to s))))
                   (seen_by s) (submitted_to s) (rejected_by s) (undeliverable_to s)) e
  | MSeen =>
      set_state (mkEventState (delivered_to s)
                   (Some (<[sender := time]> (or_empty (seen_by s))))
                   (submitted_to s) (rejected_by s) (undeliverable_to s)) e
  | MSubmitted =>
      set_state (mkEventState (delivered_to s) (seen_by s)
                   (Some (<[sender := time]> (or_empty (submitted_to s))))
                   (rejected_by s) (undeliverable_to s)) e
  | MRejected =>
      set_state (mkEventState (delivered_to s) (seen_by s) (submitted_to s)
                   (Some (<[sender := time]> (or_empty (rejected_by s))))
                   (undeliverable_to s)) e
  | MUndeliverable =>
      set_state (mkEventState (delivered_to s) (seen_by s) (submitted_to s)
                   (rejected_by s)
                   (Some (<[sender := time]> (or_empty (undeliverable_to s))))) e
  | MDelete =>
      mkNXMEvent
        (match body_text e with Some (String _ _) => Some EmptyString | t => t end)
        (match body_representations e with
         | SomeRepresentations _ => BlankRepresentations
         | r => r
         end)
        (Deleted time) (state e)
  end.

(** * The legs of a member

    [Utils.updateMemberLegs] of [utils.js].  A leg is an object with the
    fields [leg_id] and [status]; both are strings or undefined ([None]),
    compared with [===].  The array holds a distinct object at every index.
    [legs] is [None] when the argument is undefined or null. *)

Record Leg : Type := mkLeg {
  leg_id : option string;
  status : option string
}.

(** The fields [body.leg_id] and [body.status] of the event. *)
Record LegStatus : Type := mkLegStatus {
  body_leg_id : option string;
  body_status : option string
}.

(** In [legs.fill(leg.status = event.body.status, index, index++)] the
    assignment sets the status of the leg that was found, and [fill] is
    called with the same start and end index, [index++] giving the value
    before the increment: it fills nothing. *)
Definition updateMemberLegs (legs : option (list Leg)) (event : LegStatus)
    : list Leg :=
  match legs with
  | Some legs =>
      match list_find (λ leg, leg_id leg = body_leg_id event) legs with
      | None => legs ++ [mkLeg (body_leg_id event) (body_status event)]
      | Some (index, leg) =>
          if bool_decide (status leg ≠ body_status event)
          then <[index := mkLeg (leg_id leg) (body_status event)]> legs
          else legs
      end
  | None => [mkLeg (body_leg_id event) (body_status event)]
  end.

(** The legs that the function starts from. *)
Definition legs_of (legs : option (list Leg)) : list Leg :=
  match legs with
  | Some legs => legs
  | None => []
  end.

(** * The report of the MOS scores

    [RTCStatsAnalytics.updateMOSReport] of [modules/rtcstats_analytics.js],
    which [getMos] calls with [parseInt(mos)]: an integer or [NaN].  The
    fields hold numbers, as they do until [getMOSReport] formats them;
    [average] is kept as the dividend and the divisor of the division that
    computes it. *)

Definition js_plus (a b : JsNum) : JsNum :=
  match a, b with
  | Num x, Num y => Num (x + y)
  | _, _ => NaN
  end.

Record RTCStatsAnalytics : Type := mkAnalytics {
  mos_report_min : JsNum;
  mos_report_max : JsNum;
  mos_report_last : option JsNum;            (* [None]: undefined *)
  mos_report_average : option (JsNum * Z);   (* [_mosSum / _reportsCount] *)
  _reportsCount : Z;
  _mosSum : JsNum
}.

(** The fields as the constructor sets them. *)
Definition new_analytics : RTCStatsAnalytics :=
  mkAnalytics (Num 5) (Num 0) None None 0 (Num 0).

Definition updateMOSReport (this : RTCStatsAnalytics) (mos : JsNum)
    : RTCStatsAnalytics :=
  let count := _reportsCount this + 1 in
  let sum := js_plus (_mosSum this) mos in
  mkAnalytics
    (if js_lt mos (mos_report_min this) then mos else mos_report_min this)
    (if js_gt mos (mos_report_max this) then mos else mos_report_max this)
    (Some mos)
    (Some (sum, count))
    count sum.

(** The scores that are numbers. *)
Definition numbers (scores : list JsNum) : list Z :=
  omap (λ x, match x with Num z => Some z | NaN => None end) scores.

(** * Overlapping calls

    [EventsQueue.enqueue] is [async] and its caller, the packet handler of
    [NexmoClient], does not wait for it: a call can start while earlier
    calls are suspended at an [await].  The machine below runs the code of
    [events_queue.js] between two [await]s as one step and lets the
    suspended calls be resumed in any order.

    - The processors are objects: [objects] holds them by address (the
      order of their creation), [queue_cidMap] holds the address that
      [cidMap] gives for a conversation id, and a call refers to its
      processor by address, so the calls on one processor share it.
    - [calls] holds, for every call of [EventsQueue.enqueue] so far, the
      [await] at which it is suspended, or its outcome.
    - A step is the arrival of an event (the call runs up to its first
      [await]) or the resumption of a suspended call with what the awaited
      promise gives: the outcome of a callback, the reply to a history
      request, or nothing for a promise of the engine's own.  Every [await]
      of the file is such a point; the replies and outcomes are not
      constrained.
    - [journal] records, in the order in which they settle, the dispatches
      and history requests with the address of the processor that made
      them; a processor hands its next event to the handler only after the
      promise of the previous one has settled. *)

Inductive Call : Type :=
| Forwarding (event : Event)
    (* line 34: the promise of [this.callback(event)] *)
| Lookback (event : Event) (c : string) (eventId : Z) (a : nat)
           (start_id end_id : Z)
    (* line 44: the history request of the new processor [a] *)
| Fetching (a : nat) (missingEvent : Z) (end_id : Z)
    (* line 154, in [processNextEvent(missingEvent)] *)
| Found (a : nat) (eventId : Z) (foundEvent : option Event)
    (* line 133: [fetchEventsAndProcess(eventId)] has returned *)
| Dispatching (a : nat) (event : Event)
    (* lines 125 and 136: the promise of [this.callback(event)] *)
| Returning (a : nat) (processedEvent : option Event)
    (* line 111: [processNextEvent] has returned *)
| Finished (out : Outcome).

Inductive Input : Type :=
| Settled (ok : bool)
| Replied (items : option (list Event))
| Continue.

Inductive Label : Type :=
| Arrive (event : Event)
| Resume (i : nat) (x : Input).

Record Machine : Type := mkMachine {
  objects : list ConversationEventsProcessor;
  queue_cidMap : gmap string nat;
  calls : list Call;
  journal : list (option nat * Action)
}.

Definition Machine_init : Machine := mkMachine [] ∅ [] [].

Definition store (a : nat) (p : ConversationEventsProcessor) (m : Machine) : Machine :=
  mkMachine (<[a := p]> (objects m)) (queue_cidMap m) (calls m) (journal m).

Definition allocate (p : ConversationEventsProcessor) (m : Machine) : Machine :=
  mkMachine (objects m ++ [p]) (queue_cidMap m) (calls m) (journal m).

(** [this.cidMap.set(cid, processor)] *)
Definition register (c : string) (a : nat) (m : Machine) : Machine :=
  mkMachine (objects m) (<[c := a]> (queue_cidMap m)) (calls m) (journal m).

Definition add_call (call : Call) (m : Machine) : Machine :=
  mkMachine (objects m) (queue_cidMap m) (calls m ++ [call]) (journal m).

Definition set_call (i : nat) (call : Call) (m : Machine) : Machine :=
  mkMachine (objects m) (queue_cidMap m) (<[i := call]> (calls m)) (journal m).

Definition record (a : option nat) (x : Action) (m : Machine) : Machine :=
  mkMachine (objects m) (queue_cidMap m) (calls m) (journal m ++ [(a, x)]).

(** [end_id] of [fetchConversationEvents(start_id, range)], line 183. *)
Definition request_end_id (start_id range : Z) (p : ConversationEventsProcessor) : Z :=
  if js_gt (Num (largestEventIdInQueue p)) (Num start_id)
  then largestEventIdInQueue p + range
  else start_id + range.

(** [processNextEvent(eventId)] of the processor at [a], up to its first
    [await] or its return. *)
Definition begin_processNextEvent (a : nat) (eventId : JsNum)
    (p : ConversationEventsProcessor) : ConversationEventsProcessor * Call :=
  let '(event, p) := dequeue eventId p in
  match event with
  | Some event => (p, Dispatching a event)
  | None =>
      match eventId with
      | Num n =>
          if js_gt (Num (largestEventIdInQueue p)) (Num n)
          then (p, Fetching a n (request_end_id n (eventsFetchRange p) p))
          else (p, Returning a None)
      | NaN => (p, Returning a None)
      end
  end.

(** [processEvents()] up to its first [await] or its return; when it
    returns, the call of [EventsQueue.enqueue] that started the pass has
    nothing left to do. *)
Definition begin_processEvents (a : nat) (p : ConversationEventsProcessor)
    : ConversationEventsProcessor * Call :=
  if (size (eventsMap p) <? 1)%nat then (doneProcessing p, Finished Resolved)
  else begin_processNextEvent a (js_add (lastEventIdProcessed p) 1) p.

(** Lines 60 to 68 of [EventsQueue.enqueue], for the processor at [a]. *)
Definition enqueue_and_begin (a : nat) (eventId : Z) (event : Event)
    (p : ConversationEventsProcessor) : ConversationEventsProcessor * Call :=
  let p := enqueue (Num eventId) event p in
  if negb (processing p) then begin_processEvents a (set_processing true p)
  else (p, Finished Resolved).

(** A call of [EventsQueue.enqueue] up to its first [await]. *)
Definition arrive (event : Event) (m : Machine) : option Machine :=
  if negb (truthy (ev_cid event)) || isNaN (Number (ev_id event))
  then Some (add_call (Forwarding event) m)
  else
    match ev_cid event, Number (ev_id event) with
    | Some c, Num eventId =>
        match queue_cidMap m !! c with
        | Some a =>
            match objects m !! a with
            | Some p =>
                let '(p, call) := enqueue_and_begin a eventId event p in
                Some (add_call call (store a p m))
            | None => None
            end
        | None =>
            let a := length (objects m) in
            let newConversationEventsProcessor := new_processor c (eventId - 1) in
            if is_transfer_trigger event then
              let startingFetchEventId :=
                if eventId - 20 <? 1 then 1 else eventId - 20 in
              Some (add_call
                      (Lookback event c eventId a startingFetchEventId
                         (request_end_id startingFetchEventId 20
                            newConversationEventsProcessor))
                      (allocate newConversationEventsProcessor m))
            else
              let '(p, call) :=
                enqueue_and_begin a eventId event newConversationEventsProcessor in
              Some (add_call call (register c a (allocate p m)))
        end
    | _, _ => Some (add_call (Forwarding event) m)
    end.

(** The call [i] goes on from its [await] with [x]. *)
Definition resume (i : nat) (x : Input) (m : Machine) : option Machine :=
  match calls m !! i with
  | Some (Forwarding event) =>
      match x with
      | Settled ok =>
          Some (set_call i (Finished (if ok then Resolved else Rejected))
                  (record None (Forwarded event ok) m))
      | _ => None
      end
  | Some (Lookback event c eventId a start_id end_id) =>
      match x, objects m !! a with
      | Replied items, Some newConversationEventsProcessor =>
          let m := record (Some a) (Fetched c start_id end_id items) m in
          match items with
          | Some events =>
              let '(_, p) :=
                fold_left (scan_transfer event) events
                          (false, newConversationEventsProcessor) in
              let '(p, call) := enqueue_and_begin a eventId event p in
              Some (set_call i call (store a p (register c a m)))
          | None => Some (set_call i (Finished Rejected) m)
          end
      | _, _ => None
      end
  | Some (Fetching a missingEvent end_id) =>
      match x, objects m !! a with
      | Replied items, Some p =>
          let '(foundEvent, p') :=
            match items with
            | Some eventsList =>
                fold_left (merge_fetched missingEvent) eventsList (None, p)
            | None => (None, p)
            end in
          Some (set_call i (Found a missingEvent foundEvent)
                  (store a p'
                     (record (Some a) (Fetched (cid p) missingEvent end_id items) m)))
      | _, _ => None
      end
  | Some (Found a eventId foundEvent) =>
      match x, objects m !! a with
      | Continue, Some p =>
          match foundEvent with
          | Some foundEvent => Some (set_call i (Dispatching a foundEvent) m)
          | None =>
              let '(p, call) := begin_processNextEvent a (Num (eventId + 1)) p in
              Some (set_call i call (store a p m))
          end
      | _, _ => None
      end
  | Some (Dispatching a event) =>
      match x, objects m !! a with
      | Settled ok, Some p =>
          Some (set_call i (Returning a (if ok then Some event else None))
                  (record (Some a) (Dispatched (cid p) event ok) m))
      | _, _ => None
      end
  | Some (Returning a processedEvent) =>
      match x, objects m !! a with
      | Continue, Some p =>
          match processedEvent with
          | Some processedEvent =>
              let '(p, call) :=
                begin_processEvents a
                  (set_lastEventIdProcessed (Number (ev_id processedEvent)) p) in
              Some (set_call i call (store a p m))
          | None => Some (set_call i (Finished Resolved) (store a (doneProcessing p) m))
          end
      | _, _ => None
      end
  | Some (Finished _) => None
  | None => None
  end.

Definition step (l : Label) (m : Machine) : option Machine :=
  match l with
  | Arrive event => arrive event m
  | Resume i x => resume i x m
  end.

Fixpoint run (ls : list Label) (m : Machine) : option Machine :=
  match ls with
  | [] => Some m
  | l :: ls =>
      match step l m with
      | Some m => run ls m
      | None => None
      end
  end.

(** The actions of a journal, and those of the processor at [a]. *)
Definition actions (m : Machine) : list Action := (journal m).*2.

Definition by_object (a : nat) (x : option nat * Action) : option Action :=
  if decide (x.1 = Some a) then Some x.2 else None.

Definition actions_by (a : nat) (m : Machine) : list Action :=
  omap (by_object a) (journal m).

(** The processor that a suspended call works on. *)
Definition call_object (call : Call) : option nat :=
  match call with
  | Lookback _ _ _ a _ _ => Some a
  | Fetching a _ _ => Some a
  | Found a _ _ => Some a
  | Dispatching a _ => Some a
  | Returning a _ => Some a
  | Forwarding _ => None
  | Finished _ => None
  end.

Definition calls_on (a : nat) (m : Machine) : list Call :=
  filter (λ call, call_object call = Some a) (calls m).

(** ** What every reachable state satisfies *)

Definition is_Lookback (call : Call) : bool :=
  match call with
  | Lookback _ _ _ _ _ _ => true
  | _ => false
  end.

(** The action [x] is a dispatch or a history request for conversation [c]. *)
Definition about (c : string) (x : Action) : Prop :=
  match x with
  | Dispatched c' _ _ => c' = c
  | Fetched c' _ _ _ => c' = c
  | Forwarded _ _ => False
  end.

(** Every event handed to the handler has a numeric id, above the ids of all
    events of its conversation that were handled successfully before. *)
Definition ascending (lg : list Action) : Prop :=
  ∀ pre c e ok post, lg = pre ++ Dispatched c e ok :: post →
    ∃ k, Number (ev_id e) = Num k ∧ Forall (λ j, j < k) (delivered c pre).

(** No id delivered so far is above [b]. *)
Definition below (b : JsNum) (c : string) (lg : list Action) : Prop :=
  match b with
  | Num l => Forall (λ k, k ≤ l) (delivered c lg)
  | NaN => delivered c lg = []
  end.

(** What holds of a processor and of the actions it made, whatever the calls
    on it. *)
Definition steady (p : ConversationEventsProcessor) (lg : list Action) : Prop :=
  keys_match p ∧ keys_le_largest p ∧ marks_ordered p
  ∧ ascending lg ∧ Forall (about (cid p)) lg.

(** What the calls suspended on a processor rely on: at most one call is
    suspended on it; without one the processor is idle with an empty buffer;
    a call suspended in the drain loop works above the last processed id. *)
Definition phase (p : ConversationEventsProcessor) (lg : list Action)
    (on : list Call) : Prop :=
  match on with
  | [] =>
      processing p = false ∧ eventsMap p = ∅
      ∧ below (lastEventIdProcessed p) (cid p) lg
  | [Lookback event c n _ _ _] =>
      p = new_processor c (n - 1) ∧ lg = [] ∧ Number (ev_id event) = Num n
  | [Fetching _ n _] =>
      processing p = true ∧ below (lastEventIdProcessed p) (cid p) lg
      ∧ ∃ l, lastEventIdProcessed p = Num l ∧ l < n ∧ n < largestEventIdInQueue p
  | [Found _ n r] =>
      processing p = true ∧ below (lastEventIdProcessed p) (cid p) lg
      ∧ (∃ l, lastEventIdProcessed p = Num l ∧ l < n ∧ n < largestEventIdInQueue p)
      ∧ ∀ e, r = Some e → Number (ev_id e) = Num n
  | [Dispatching _ e] =>
      processing p = true ∧ below (lastEventIdProcessed p) (cid p) lg
      ∧ ∃ l k, lastEventIdProcessed p = Num l ∧ Number (ev_id e) = Num k
               ∧ l < k ∧ k ≤ largestEventIdInQueue p
  | [Returning _ (Some e)] =>
      processing p = true
      ∧ ∃ l k, lastEventIdProcessed p = Num l ∧ Number (ev_id e) = Num k
               ∧ l < k ∧ k ≤ largestEventIdInQueue p
               ∧ below (Num k) (cid p) lg
  | [Returning _ None] =>
      processing p = true ∧ below (lastEventIdProcessed p) (cid p) lg
  | _ => False
  end.

Definition sound (o : option ConversationEventsProcessor) (on : list Call)
    (lg : list Action) : Prop :=
  match o with
  | Some p => steady p lg ∧ phase p lg on
  | None => on = [] ∧ lg = []
  end.

(** The processor that [cidMap] gives for [c] carries that id and is past
    its lookback. *)
Definition listed (c : string) (o : option ConversationEventsProcessor)
    (on : list Call) : Prop :=
  match o with
  | Some p => cid p = c ∧ Forall (λ call, is_Lookback call = false) on
  | None => False
  end.

Record Wf (m : Machine) : Prop := mkWf {
  wf_sound : ∀ a, sound (objects m !! a) (calls_on a m) (actions_by a m);
  wf_listed : ∀ c a, queue_cidMap m !! c = Some a →
                     listed c (objects m !! a) (calls_on a m)
}.

(** All of [m'] but the processor at [a], the calls on it and its actions
    is as in [m]. *)
Definition same_elsewhere (a : nat) (m m' : Machine) : Prop :=
  ∀ a', a' ≠ a →
    objects m' !! a' = objects m !! a'
    ∧ calls_on a' m' = calls_on a' m
    ∧ actions_by a' m' = actions_by a' m.

(** From [m] to [m'] no processor that is past its lookback loses marks. *)
Definition keeps_marks (m m' : Machine) : Prop :=
  ∀ a p, objects m !! a = Some p →
    Forall (λ call, is_Lookback call = false) (calls_on a m) →
    ∃ p', objects m' !! a = Some p' ∧ cid p' = cid p ∧ not_behind p p'
          ∧ Forall (λ call, is_Lookback call = false) (calls_on a m').

(** The journal tags every dispatch with a processor. *)
Definition tagged (x : option nat * Action) : Prop :=
  match x with
  | (None, Dispatched _ _ _) => False
  | _ => True
  end.

(** One processor only has been created for the conversation [c]. *)
Definition single (c : string) (m : Machine) : Prop :=
  ∀ a a' p p', objects m !! a = Some p → objects m !! a' = Some p' →
               cid p = c → cid p' = c → a = a'.

(** The step does not bring an event of the conversation [c] that triggers
    the lookback. *)
Definition quiet (c : string) (l : Label) : bool :=
  match l with
  | Arrive event => negb (is_transfer_trigger event && same_opt (ev_cid event) (Some c))
  | Resume _ _ => true
  end.

(** Every processor created for the conversation [c] is the one that
    [cidMap] holds for it, and no call is in the lookback for [c]. *)
Definition home (c : string) (m : Machine) : Prop :=
  (∀ a p, objects m !! a = Some p → cid p = c → queue_cidMap m !! c = Some a)
  ∧ Forall (λ call, match call with
                    | Lookback _ c' _ _ _ _ => c' ≠ c
                    | _ => True
                    end) (calls m).

(** ** The range of exact arithmetic

    The ids that the theorems on whole runs range over: with an id in this
    range every number that the code computes from it (the id plus or minus
    1, minus 20, plus the range of a request) is an integer of magnitude at
    most [Number.MAX_SAFE_INTEGER], where the arithmetic of doubles is that
    of the integers. *)
Definition MAX_SAFE_INTEGER : Z := 2 ^ 53 - 1.

Definition safe (n : Z) : bool :=
  (20 - MAX_SAFE_INTEGER <=? n) && (n <=? MAX_SAFE_INTEGER - 20).

Definition safe_event (e : Event) : bool :=
  match Number (ev_id e) with
  | Num n => safe n
  | NaN => true
  end.

Definition safe_label (l : Label) : bool :=
  match l with
  | Arrive event => safe_event event
  | Resume _ (Replied (Some items)) => forallb safe_event items
  | Resume _ _ => true
  end.

(** ** Concrete runs *)

(** Two events of one conversation, the first of which triggers the
    lookback: the second arrives and is dispatched while the history request
    of the first is in flight; then the request returns, and the first event
    is dispatched; then the second event is delivered once more. *)
Definition overlapping_lookback : list Label :=
  [Arrive (joined_event 10); Arrive (text_event 11 "b");
   Resume 1 (Settled true); Resume 1 Continue;
   Resume 0 (Replied (Some [])); Resume 0 (Settled true); Resume 0 Continue;
   Arrive (text_event 11 "b"); Resume 2 (Settled true); Resume 2 Continue].

(** An event arrives again while the handler is busy with it. *)
Definition overlapping_dispatch : list Label :=
  [Arrive (text_event 10 "a"); Arrive (text_event 10 "a");
   Resume 0 (Settled true); Resume 0 Continue].

Definition marks_and_keys (p : ConversationEventsProcessor)
    : JsNum * Z * list Z * bool :=
  (lastEventIdProcessed p, largestEventIdInQueue p,
   (map_to_list (eventsMap p)).*1, processing p).

(** The events in the replies to history requests carry ids in the range of
    exact arithmetic. *)
Definition replies_safe (env : Environment) : Prop :=
  ∀ tr c s t items e,
    paginationRequest env tr c s t = Some items → e ∈ items →
    safe_event e = true.

(** The two marks of a processor are in the range of exact arithmetic. *)
Definition safe_marks (p : ConversationEventsProcessor) : Prop :=
  safe (largestEventIdInQueue p) = true
  ∧ ∀ l, lastEventIdProcessed p = Num l → safe l = true.

(** ** Concrete states and runs with a doubled id *)

(** Last processed id 10 with the event 11 in the buffer and two events
    enqueued under the id 13. *)
Definition p_doubled_behind_11 : ConversationEventsProcessor :=
  set_processing true
    (enqueue (Num 13) (text_event 13 "second")
       (enqueue (Num 13) (text_event 13 "first")
          (enqueue (Num 11) (text_event 11 "b") (new_processor "CON-1" 10)))).

(** Last processed id 10 and two events enqueued under the id 13. *)
Definition p_doubled_13 : ConversationEventsProcessor :=
  set_processing true
    (enqueue (Num 13) (text_event 13 "second")
       (enqueue (Num 13) (text_event 13 "first") (new_processor "CON-1" 10))).

(** Two events with id 13 arrive while the handler is busy with the event
    11, which it then rejects. *)
Definition overlapping_doubled : list Label :=
  [Arrive (text_event 11 "b"); Arrive (text_event 13 "first");
   Arrive (text_event 13 "second"); Resume 0 (Settled false); Resume 0 Continue].

(** Two events with id 13 arrive while the handler is busy with the event
    10; the history then supplies 11, 12 and 13. *)
Definition overlapping_doubled_gap : list Label :=
  [Arrive (text_event 10 "a"); Arrive (text_event 13 "first");
   Arrive (text_event 13 "second"); Resume 0 (Settled true); Resume 0 Continue;
   Resume 0 (Replied (Some page_11_13)); Resume 0 Continue;
   Resume 0 (Settled true); Resume 0 Continue;
   Resume 0 (Settled true); Resume 0 Continue;
   Resume 0 (Settled true); Resume 0 Continue].

(** The actions of the pass that recovers 11, 12 and 13 with largest id 13. *)
Definition recovered_up_to_13 : list Action :=
  [Fetched "CON-1" 11 22 (Some page_11_13);
   Dispatched "CON-1" (set_cid "CON-1" (history_event 11 "text" "MEM-1")) true;
   Dispatched "CON-1" (set_cid "CON-1" (history_event 12 "text" "MEM-1")) true;
   Dispatched "CON-1" (set_cid "CON-1" (history_event 13 "text" "MEM-1")) true].

(** * Proofs *)

(** ** Basic facts *)

Lemma js_gt_Num (a b : Z) : js_gt (Num a) (Num b) = true ↔ b < a.
Proof. unfold js_gt. apply Z.ltb_lt. Qed.

Lemma js_gt_Num_false (a b : Z) : js_gt (Num a) (Num b) = false ↔ a ≤ b.
Proof. unfold js_gt. rewrite Z.ltb_ge. reflexivity. Qed.

Lemma set_eventsMap_id (p : ConversationEventsProcessor) :
  set_eventsMap (eventsMap p) p = p.
Proof. destruct p; reflexivity. Qed.

Lemma Number_set_cid (c : string) (e : Event) :
  Number (ev_id (set_cid c e)) = Number (ev_id e).
Proof. reflexivity. Qed.

Lemma dequeue_absent (n : Z) (p : ConversationEventsProcessor) :
  eventsMap p !! n = None → dequeue (Num n) p = (None, p).
Proof.
  intros H. unfold dequeue. rewrite H, delete_id by exact H.
  now rewrite set_eventsMap_id.
Qed.

Section EnqueueFacts.

Variables (n : Z) (e : Event) (p : ConversationEventsProcessor).

Lemma enqueue_cid : cid (enqueue (Num n) e p) = cid p.
Proof. unfold enqueue. repeat case_match; reflexivity. Qed.

Lemma enqueue_last :
  lastEventIdProcessed (enqueue (Num n) e p) = lastEventIdProcessed p.
Proof. unfold enqueue. repeat case_match; reflexivity. Qed.

Lemma enqueue_processing : processing (enqueue (Num n) e p) = processing p.
Proof. unfold enqueue. repeat case_match; reflexivity. Qed.

Lemma enqueue_range : eventsFetchRange (enqueue (Num n) e p) = eventsFetchRange p.
Proof. unfold enqueue. repeat case_match; reflexivity. Qed.

Lemma enqueue_largest :
  largestEventIdInQueue (enqueue (Num n) e p) = Z.max (largestEventIdInQueue p) n.
Proof.
  unfold enqueue.
  destruct (js_gt (Num n) (Num (largestEventIdInQueue p))) eqn:Hg.
  - apply js_gt_Num in Hg. case_match; simpl; lia.
  - apply js_gt_Num_false in Hg. case_match; simpl; lia.
Qed.

Lemma enqueue_eventsMap :
  eventsMap (enqueue (Num n) e p) =
  if js_gt (Num n) (lastEventIdProcessed p)
  then <[n := e]> (eventsMap p) else eventsMap p.
Proof.
  unfold enqueue.
  destruct (js_gt (Num n) (Num (largestEventIdInQueue p)));
    simpl; case_match; reflexivity.
Qed.

Lemma enqueue_lookup (k : Z) (x : Event) :
  eventsMap (enqueue (Num n) e p) !! k = Some x →
  eventsMap p !! k = Some x
  ∨ (k = n ∧ x = e ∧ js_gt (Num n) (lastEventIdProcessed p) = true).
Proof.
  rewrite enqueue_eventsMap.
  destruct (js_gt (Num n) (lastEventIdProcessed p)); [|now left].
  rewrite lookup_insert. case_decide; [|now left].
  intros [= <-]. right. now subst.
Qed.

Lemma enqueue_keeps (k : Z) :
  is_Some (eventsMap p !! k) → is_Some (eventsMap (enqueue (Num n) e p) !! k).
Proof.
  rewrite enqueue_eventsMap. case_match; [|done].
  rewrite lookup_insert. case_decide; eauto.
Qed.

Lemma enqueue_keys_match :
  Number (ev_id e) = Num n → keys_match p → keys_match (enqueue (Num n) e p).
Proof.
  intros He Hp k x Hk. apply enqueue_lookup in Hk as [Hk|(-> & -> & _)]; eauto.
Qed.

Lemma enqueue_keys_le :
  keys_le_largest p → keys_le_largest (enqueue (Num n) e p).
Proof.
  intros Hp k x Hk. rewrite enqueue_largest.
  apply enqueue_lookup in Hk as [Hk|(-> & _)]; [apply Hp in Hk|]; lia.
Qed.

Lemma enqueue_keys_above :
  keys_above_last p → keys_above_last (enqueue (Num n) e p).
Proof.
  intros Hp k l [x Hk] Hl. rewrite enqueue_last in Hl.
  apply enqueue_lookup in Hk as [Hk|(-> & _ & Hg)]; [eauto|].
  rewrite Hl in Hg. now apply js_gt_Num in Hg.
Qed.

Lemma enqueue_Inv :
  Number (ev_id e) = Num n → Inv p → Inv (enqueue (Num n) e p).
Proof.
  intros He [(l & Hl & Hle) Ha Hm Hk]. split.
  - exists l. rewrite enqueue_last, enqueue_largest. split; [done|lia].
  - now apply enqueue_keys_above.
  - now apply enqueue_keys_match.
  - now apply enqueue_keys_le.
Qed.

End EnqueueFacts.

(** ** Merging a fetched page *)

Lemma merged_refl n items p : merged n items p p.
Proof. split; auto; lia. Qed.

Lemma merged_app n l1 l2 p p1 p2 :
  merged n l1 p p1 → merged n l2 p1 p2 → merged n (l1 ++ l2) p p2.
Proof.
  intros H1 H2. split.
  - now rewrite (mg_cid _ _ _ _ H2), (mg_cid _ _ _ _ H1).
  - now rewrite (mg_last _ _ _ _ H2), (mg_last _ _ _ _ H1).
  - now rewrite (mg_processing _ _ _ _ H2), (mg_processing _ _ _ _ H1).
  - now rewrite (mg_range _ _ _ _ H2), (mg_range _ _ _ _ H1).
  - pose proof (mg_largest _ _ _ _ H1). pose proof (mg_largest _ _ _ _ H2). lia.
  - intros k Hk. eapply mg_keeps; [exact H2|]. eapply mg_keeps; eauto.
  - intros k x Hx. pose proof (mg_largest _ _ _ _ H2) as Hl2.
    apply (mg_lookup _ _ _ _ H2) in Hx as [Hx|(Hn & Hk & Hg & e0 & Hin & -> & Hid)].
    + apply (mg_lookup _ _ _ _ H1) in Hx as [Hx|(Hn & Hk & Hg & e0 & Hin & -> & Hid)];
        [now left|right].
      repeat split; [done|lia|done|].
      exists e0. rewrite elem_of_app. auto.
    + right. rewrite (mg_last _ _ _ _ H1) in Hg. rewrite (mg_cid _ _ _ _ H1).
      repeat split; [done..|]. exists e0. rewrite elem_of_app. auto.
  - intros B HB Hitems. eapply (mg_bound _ _ _ _ H2).
    + eapply (mg_bound _ _ _ _ H1); [done|].
      intros e0 k Hin. apply Hitems. rewrite elem_of_app. auto.
    + intros e0 k Hin. apply Hitems. rewrite elem_of_app. auto.
Qed.

Lemma merged_enqueue n k e0 p :
  n < k → Number (ev_id e0) = Num k →
  merged n [e0] p (enqueue (Num k) (set_cid (cid p) e0) p).
Proof.
  intros Hn Hid. split.
  - apply enqueue_cid.
  - apply enqueue_last.
  - apply enqueue_processing.
  - apply enqueue_range.
  - rewrite enqueue_largest. lia.
  - apply enqueue_keeps.
  - intros j x Hx. apply enqueue_lookup in Hx as [Hx|(-> & -> & Hg)]; [now left|right].
    rewrite enqueue_largest. repeat split; [done|lia|done|].
    exists e0. split; [apply list_elem_of_singleton| ]; done.
  - intros B HB Hitems. rewrite enqueue_largest.
    specialize (Hitems e0 k). rewrite list_elem_of_singleton in Hitems.
    specialize (Hitems eq_refl Hid). lia.
Qed.

Lemma merge_fetched_cases n foundEvent p e0 :
  merge_fetched n (foundEvent, p) e0 =
  match Number (ev_id e0) with
  | NaN => (foundEvent, p)
  | Num k =>
      if k <? n then (foundEvent, p)
      else if n <? k then (foundEvent, enqueue (Num k) (set_cid (cid p) e0) p)
      else (Some (set_cid (cid p) e0), p)
  end.
Proof.
  unfold merge_fetched. rewrite Number_set_cid.
  destruct (Number (ev_id e0)) as [|k]; [reflexivity|].
  simpl. unfold js_lt, js_gt. reflexivity.
Qed.

(** The fold of [fetchEventsAndProcess]: the state is merged, and the event
    found is the last one of the page whose id is the missing one. *)
Lemma merge_fold n items : ∀ foundEvent p foundEvent' p',
  fold_left (merge_fetched n) items (foundEvent, p) = (foundEvent', p') →
  merged n items p p'
  ∧ (foundEvent' = foundEvent
     ∨ ∃ e0, e0 ∈ items ∧ foundEvent' = Some (set_cid (cid p) e0)
             ∧ Number (ev_id e0) = Num n)
  ∧ ((∀ e0, e0 ∈ items → Number (ev_id e0) ≠ Num n) → foundEvent' = foundEvent)
  ∧ (foundEvent' = None → ∀ e0, e0 ∈ items → Number (ev_id e0) ≠ Num n).
Proof.
  induction items as [|e0 items IH]; intros foundEvent p foundEvent' p' Hf.
  - simpl in Hf. injection Hf as <- <-.
    split; [apply merged_refl|]. split; [now left|]. split; [done|].
    intros _ e0 Hin. now apply elem_of_nil in Hin.
  - cbn [fold_left] in Hf. rewrite merge_fetched_cases in Hf.
    assert (Hstep : ∃ f1 p1,
      fold_left (merge_fetched n) items (f1, p1) = (foundEvent', p')
      ∧ merged n [e0] p p1
      ∧ ((f1 = foundEvent ∧ Number (ev_id e0) ≠ Num n)
         ∨ (f1 = Some (set_cid (cid p) e0) ∧ Number (ev_id e0) = Num n))).
    { destruct (Number (ev_id e0)) as [|k] eqn:Hid.
      - exists foundEvent, p. split; [done|]. split; [apply merged_refl|now left].
      - destruct (k <? n) eqn:Hlt.
        + apply Z.ltb_lt in Hlt. exists foundEvent, p. split; [done|].
          split; [apply merged_refl|left; split; [done|intros [= ?]; lia]].
        + apply Z.ltb_ge in Hlt. destruct (n <? k) eqn:Hgt.
          * apply Z.ltb_lt in Hgt. eexists _, _. split; [exact Hf|].
            split; [now apply merged_enqueue|].
            left; split; [done|intros [= ?]; lia].
          * apply Z.ltb_ge in Hgt. assert (k = n) as -> by lia.
            eexists _, _. split; [exact Hf|].
            split; [apply merged_refl|now right]. }
    destruct Hstep as (f1 & p1 & Hf1 & Hm1 & Hcase).
    apply IH in Hf1 as (Hm & Hfound & Hnone & Hsome).
    split; [change (e0 :: items) with ([e0] ++ items); eapply merged_app; eauto|].
    assert (Hc : cid p1 = cid p) by apply (mg_cid _ _ _ _ Hm1).
    split; [|split].
    + destruct Hfound as [->|(e1 & Hin & -> & Hid)].
      * destruct Hcase as [[-> _]|[-> Hid]]; [now left|right].
        exists e0. split; [apply elem_of_cons; auto|done].
      * right. exists e1. rewrite Hc. split; [apply elem_of_cons; auto|done].
    + intros Hno. rewrite Hnone.
      * destruct Hcase as [[-> _]|[_ Hid]]; [done|].
        exfalso. eapply Hno; [apply elem_of_cons; left; reflexivity|done].
      * intros e1 Hin. apply Hno. apply elem_of_cons; auto.
    + intros -> e1 Hin. apply elem_of_cons in Hin as [->|Hin]; [|now apply Hsome].
      destruct Hcase as [[_ Hne]|[-> Hid]]; [done|].
      destruct Hfound as [[=]|(e2 & Hin2 & _ & Hid2)].
      exfalso. eapply Hsome; eauto.
Qed.

Section Fetch.

Context (env : Environment).

Lemma fetchEventsAndProcess_spec n p tr foundEvent p' tr' :
  fetchEventsAndProcess env n p tr = (foundEvent, p', tr') →
  tr' = tr ++ [Fetched (cid p) n (gap_end_id n p) (gap_reply env n p tr)]
  ∧ merged n (reply_items (gap_reply env n p tr)) p p'
  ∧ (∀ e, foundEvent = Some e →
       Number (ev_id e) = Num n
       ∧ ∃ e0, e0 ∈ reply_items (gap_reply env n p tr) ∧ e = set_cid (cid p) e0)
  ∧ (foundEvent = None ↔
       ∀ e0, e0 ∈ reply_items (gap_reply env n p tr) → Number (ev_id e0) ≠ Num n).
Proof.
  unfold fetchEventsAndProcess, fetchConversationEvents, gap_reply, gap_end_id.
  destruct (paginationRequest env tr (cid p) n _) as [items|] eqn:Hreq; simpl.
  - destruct (fold_left _ items _) as [f1 p1] eqn:Hfold.
    intros [= -> -> <-]. apply merge_fold in Hfold as (Hm & Hfound & Hnone & Hsome).
    split; [done|]. split; [done|]. split.
    + intros e ->. destruct Hfound as [[=]|(e0 & Hin & [= ->] & Hid)].
      split; [done|eauto].
    + split; [apply Hsome|apply Hnone].
  - intros [= <- <- <-]. split; [done|]. split; [apply merged_refl|].
    split; [done|]. split; [|done]. intros _ e0 Hin. now apply elem_of_nil in Hin.
Qed.

End Fetch.

Lemma merged_keys_match n items p p' :
  merged n items p p' → keys_match p → keys_match p'.
Proof.
  intros Hm Hp k x Hx.
  apply (mg_lookup _ _ _ _ Hm) in Hx as [Hx|(_ & _ & _ & e0 & _ & -> & Hid)]; eauto.
Qed.

Lemma merged_keys_le n items p p' :
  merged n items p p' → keys_le_largest p → keys_le_largest p'.
Proof.
  intros Hm Hp k x Hx. pose proof (mg_largest _ _ _ _ Hm).
  apply (mg_lookup _ _ _ _ Hm) in Hx as [Hx|(_ & ? & _)]; [apply Hp in Hx; lia|done].
Qed.

Lemma merged_keys_above n items p p' :
  merged n items p p' → keys_above_last p → keys_above_last p'.
Proof.
  intros Hm Hp k l [x Hx] Hl. rewrite (mg_last _ _ _ _ Hm) in Hl.
  apply (mg_lookup _ _ _ _ Hm) in Hx as [Hx|(_ & _ & Hg & _)]; [eauto|].
  rewrite Hl in Hg. now apply js_gt_Num in Hg.
Qed.

Lemma merged_floor n items p p' :
  merged n items p p' → eventsMap p !! n = None →
  (∀ j, is_Some (eventsMap p !! j) → n ≤ j) →
  ∀ j, is_Some (eventsMap p' !! j) → n + 1 ≤ j.
Proof.
  intros Hm Hn Hp j [x Hx].
  apply (mg_lookup _ _ _ _ Hm) in Hx as [Hx|(? & _)]; [|lia].
  assert (n ≤ j) by eauto. assert (j ≠ n) by congruence. lia.
Qed.

Lemma merged_Inv n items p p' : merged n items p p' → Inv p → Inv p'.
Proof.
  intros Hm [(l & Hl & Hle) Ha Hk Hlg]. split.
  - exists l. rewrite (mg_last _ _ _ _ Hm). pose proof (mg_largest _ _ _ _ Hm).
    split; [done|lia].
  - eapply merged_keys_above; eauto.
  - eapply merged_keys_match; eauto.
  - eapply merged_keys_le; eauto.
Qed.

(** ** One step of the drain loop *)

Section Drain.

Context (env : Environment).

(** Case analysis behind every proof about [processNextEvent]: the event is
    buffered; nothing larger is known; the fetch finds it; the fetch does
    not find it and the next id is tried. *)
Lemma processNextEvent_cases
    (P : Z → ConversationEventsProcessor → list Action → option Event →
         ConversationEventsProcessor → list Action → Prop) :
  (∀ n p tr e, eventsMap p !! n = Some e →
     P n p tr (if handleEvent env tr e then Some e else None)
       (set_eventsMap (delete n (eventsMap p)) p)
       (tr ++ [Dispatched (cid p) e (handleEvent env tr e)])) →
  (∀ n p tr, eventsMap p !! n = None → largestEventIdInQueue p ≤ n →
     P n p tr None p tr) →
  (∀ n p tr e p1 tr1, eventsMap p !! n = None → n < largestEventIdInQueue p →
     fetchEventsAndProcess env n p tr = (Some e, p1, tr1) →
     P n p tr (if handleEvent env tr1 e then Some e else None) p1
       (tr1 ++ [Dispatched (cid p1) e (handleEvent env tr1 e)])) →
  (∀ n p tr p1 tr1 r p' tr', eventsMap p !! n = None →
     n < largestEventIdInQueue p →
     fetchEventsAndProcess env n p tr = (None, p1, tr1) →
     P (n + 1) p1 tr1 r p' tr' → P n p tr r p' tr') →
  ∀ fuel n p tr r p' tr',
    processNextEvent env fuel (Num n) p tr = Some (r, p', tr') →
    P n p tr r p' tr'.
Proof.
  intros Hhit Hstop Hfound Hskip.
  induction fuel as [|fuel IH]; intros n p tr r p' tr' Hrun; [discriminate|].
  cbn [processNextEvent] in Hrun.
  destruct (eventsMap p !! n) as [e|] eqn:Hlook.
  - unfold dequeue in Hrun. rewrite Hlook in Hrun.
    unfold callback in Hrun. cbn in Hrun. injection Hrun as <- <- <-.
    now apply Hhit.
  - rewrite dequeue_absent in Hrun by exact Hlook.
    destruct (js_gt (Num (largestEventIdInQueue p)) (Num n)) eqn:Hg.
    + apply js_gt_Num in Hg.
      destruct (fetchEventsAndProcess env n p tr) as [[[e|] p1] tr1] eqn:Hfetch.
      * unfold callback in Hrun. cbn in Hrun. injection Hrun as <- <- <-.
        now apply Hfound.
      * eapply Hskip; eauto.
    + apply js_gt_Num_false in Hg. injection Hrun as <- <- <-.
      now apply Hstop.
Qed.

Lemma processNextEvent_NaN fuel p tr :
  processNextEvent env (S fuel) NaN p tr = Some (None, p, tr).
Proof. reflexivity. Qed.

Lemma processNextEvent_spec fuel n p tr r p' tr' :
  processNextEvent env fuel (Num n) p tr = Some (r, p', tr') →
  keys_match p → next_post env n p tr r p' tr'.
Proof.
  revert fuel n p tr r p' tr'.
  apply (processNextEvent_cases
           (λ n p tr r p' tr', keys_match p → next_post env n p tr r p' tr')).
  - (* buffered *)
    intros n p tr e Hlook Hp.
    assert (Hsub : ∀ j x, eventsMap (set_eventsMap (delete n (eventsMap p)) p) !! j
                          = Some x → eventsMap p !! j = Some x ∧ j ≠ n).
    { intros j x. cbn. rewrite lookup_delete. case_decide; [done|]. auto. }
    split.
    + reflexivity.
    + reflexivity.
    + reflexivity.
    + reflexivity.
    + reflexivity.
    + intros j x Hx. apply Hsub in Hx as [Hx _]. eauto.
    + intros Hle j x Hx. apply Hsub in Hx as [Hx _]. now apply Hle in Hx.
    + intros Hfl j [x Hx]. apply Hsub in Hx as [Hx _]. eauto.
    + intros B HB _. exact HB.
    + exists [], [Dispatched (cid p) e (handleEvent env tr e)].
      split; [constructor|]. split; [done|].
      destruct (handleEvent env tr e).
      * exists n. split; [lia|]. split; [eauto|]. split; [done|]. split.
        -- intros Hle. now apply Hle in Hlook.
        -- intros Hfl j [x Hx]. apply Hsub in Hx as [Hx Hne].
           assert (n ≤ j) by eauto. lia.
      * right. exists e, n. split; [lia|]. split; [eauto|done].
  - (* nothing larger known *)
    intros n p tr Hlook Hlg Hp.
    split; [reflexivity..|done|auto|auto|auto|].
    exists [], []. split; [constructor|]. split; [now rewrite !app_nil_r|now left].
  - (* found by the fetch *)
    intros n p tr e p1 tr1 Hlook Hlg Hfetch Hp.
    apply fetchEventsAndProcess_spec in Hfetch as (-> & Hm & Hfound & _).
    destruct (Hfound e eq_refl) as (Hid & _).
    pose proof (mg_largest _ _ _ _ Hm) as Hl1.
    split.
    + apply (mg_cid _ _ _ _ Hm).
    + apply (mg_last _ _ _ _ Hm).
    + apply (mg_processing _ _ _ _ Hm).
    + apply (mg_range _ _ _ _ Hm).
    + done.
    + eapply merged_keys_match; eauto.
    + eapply merged_keys_le; eauto.
    + intros Hfl j Hj. eapply merged_floor in Hj; eauto. lia.
    + intros B HB Hrep. eapply (mg_bound _ _ _ _ Hm); [done|].
      intros e0 k Hin Hk. unfold gap_reply in Hin.
      destruct (paginationRequest env tr (cid p) n _) as [items|] eqn:Hreq;
        [|now apply elem_of_nil in Hin].
      eapply Hrep; eauto.
    + rewrite (mg_cid _ _ _ _ Hm).
      exists [Fetched (cid p) n (gap_end_id n p) (gap_reply env n p tr)],
             [Dispatched (cid p) e
                (handleEvent env
                   (tr ++ [Fetched (cid p) n (gap_end_id n p) (gap_reply env n p tr)]) e)].
      split; [constructor; [reflexivity|constructor]|].
      split; [now rewrite <- app_assoc|].
      destruct (handleEvent env _ e).
      * exists n. split; [lia|]. split; [done|]. split; [done|]. split; [lia|].
        intros Hfl j Hj. eapply merged_floor in Hj; eauto. lia.
      * right. exists e, n. split; [lia|]. split; done.
  - (* not found: the next id is tried *)
    intros n p tr p1 tr1 r p' tr' Hlook Hlg Hfetch IH Hp.
    apply fetchEventsAndProcess_spec in Hfetch as (-> & Hm & _ & _).
    pose proof (mg_largest _ _ _ _ Hm) as Hl1.
    assert (Hp1 : keys_match p1) by (eapply merged_keys_match; eauto).
    specialize (IH Hp1). destruct IH as [Hc Hl Hpr Hr Hlg' Hma Hle Hfl Hbd Htr].
    split.
    + now rewrite Hc, (mg_cid _ _ _ _ Hm).
    + now rewrite Hl, (mg_last _ _ _ _ Hm).
    + now rewrite Hpr, (mg_processing _ _ _ _ Hm).
    + now rewrite Hr, (mg_range _ _ _ _ Hm).
    + lia.
    + done.
    + intros Hk. apply Hle. eapply merged_keys_le; eauto.
    + intros Hf j Hj. apply Hfl in Hj; [lia|]. eapply merged_floor; eauto.
    + intros B HB Hrep. apply Hbd; [|done]. eapply (mg_bound _ _ _ _ Hm); [done|].
      intros e0 k Hin Hk. unfold gap_reply in Hin.
      destruct (paginationRequest env tr (cid p) n _) as [items|] eqn:Hreq;
        [|now apply elem_of_nil in Hin].
      eapply Hrep; eauto.
    + destruct Htr as (fs & tail & Hfs & -> & Hr').
      rewrite (mg_cid _ _ _ _ Hm) in *.
      exists (Fetched (cid p) n (gap_end_id n p) (gap_reply env n p tr) :: fs), tail.
      split; [constructor; [reflexivity|done]|].
      split; [now rewrite <- !app_assoc|].
      destruct r as [e|].
      * destruct Hr' as (k & Hk & Hid & -> & Hb1 & Hb2).
        exists k. split; [lia|]. split; [done|]. split; [done|]. split.
        -- intros Hkl. apply Hb1. eapply merged_keys_le; eauto.
        -- intros Hf. apply Hb2. eapply merged_floor; eauto.
      * destruct Hr' as [->|(e & k & Hk & Hid & ->)]; [now left|right].
        exists e, k. split; [lia|]. split; done.
Qed.

End Drain.

(** ** Traces of a pass *)

Lemma handed_app c t1 t2 : handed c (t1 ++ t2) = handed c t1 ++ handed c t2.
Proof. apply omap_app. Qed.

Lemma delivered_app c t1 t2 :
  delivered c (t1 ++ t2) = delivered c t1 ++ delivered c t2.
Proof. apply omap_app. Qed.

Lemma handed_id_same c e ok k :
  Number (ev_id e) = Num k → handed_id c (Dispatched c e ok) = Some k.
Proof. intros H. cbn. now rewrite String.eqb_refl, H. Qed.

Lemma handed_cons c a tr :
  handed c (a :: tr) =
  match handed_id c a with Some k => k :: handed c tr | None => handed c tr end.
Proof. reflexivity. Qed.

Lemma delivered_cons c a tr :
  delivered c (a :: tr) =
  match delivered_id c a with Some k => k :: delivered c tr | None => delivered c tr end.
Proof. reflexivity. Qed.

Lemma delivered_id_ok c e k :
  Number (ev_id e) = Num k → delivered_id c (Dispatched c e true) = Some k.
Proof. intros H. cbn. now rewrite String.eqb_refl, H. Qed.

Lemma pass_trace_fetches c fs l delta l' :
  Forall (fetch_of c) fs → pass_trace c l delta l' →
  pass_trace c l (fs ++ delta) l'.
Proof.
  induction 1 as [|a fs Ha _ IH]; intros Hd; [done|].
  destruct a as [| |c' s t items]; try done. cbn in Ha. subst c'.
  cbn. constructor. auto.
Qed.

Lemma pass_trace_le c l delta l' : pass_trace c l delta l' → l ≤ l'.
Proof. induction 1; lia. Qed.

Lemma pass_trace_handed c l delta l' :
  pass_trace c l delta l' → StronglySorted Z.lt (l :: handed c delta).
Proof.
  induction 1 as [l|l s t items delta l' _ IH|l e k delta l' Hlk Hid _ IH|l e k Hlk Hid].
  - repeat constructor.
  - exact IH.
  - rewrite handed_cons, (handed_id_same _ _ _ _ Hid).
    apply StronglySorted_inv in IH as [Hs Hall].
    constructor; [now constructor|].
    constructor; [done|]. eapply Forall_impl; [exact Hall|]. cbn. lia.
  - rewrite handed_cons, (handed_id_same _ _ _ _ Hid).
    repeat constructor. done.
Qed.

Lemma pass_trace_delivered c l delta l' :
  pass_trace c l delta l' →
  StronglySorted Z.lt (l :: delivered c delta)
  ∧ Forall (λ k, k ≤ l') (l :: delivered c delta).
Proof.
  induction 1 as [l|l s t items delta l' _ IH|l e k delta l' Hlk Hid Hp IH|l e k Hlk Hid].
  - split; repeat constructor. lia.
  - exact IH.
  - rewrite delivered_cons, (delivered_id_ok _ _ _ Hid).
    destruct IH as [Hs Hle]. pose proof (pass_trace_le _ _ _ _ Hp).
    split.
    + pose proof Hs as Hs'. apply StronglySorted_inv in Hs' as [_ Hall].
      constructor; [done|].
      constructor; [done|]. eapply Forall_impl; [exact Hall|]. cbn. lia.
    + constructor; [lia|done].
  - rewrite delivered_cons. cbn. split; repeat constructor. lia.
Qed.

(** The pass ends at the id it started with or at a delivered one. *)
Lemma pass_trace_last_in c l delta l' :
  pass_trace c l delta l' → l' ∈ l :: delivered c delta.
Proof.
  induction 1 as [l|l s t items delta l' _ IH|l e k delta l' Hlk Hid _ IH|l e k Hlk Hid].
  - apply elem_of_cons. now left.
  - exact IH.
  - rewrite delivered_cons, (delivered_id_ok _ _ _ Hid).
    apply elem_of_cons. now right.
  - apply elem_of_cons. now left.
Qed.

Lemma pass_trace_other c c' l delta l' :
  pass_trace c l delta l' → c' ≠ c → handed c' delta = [] ∧ delivered c' delta = [].
Proof.
  intros Hp Hne. apply String.eqb_neq in Hne.
  induction Hp as [l|l s t items delta l' _ IH|l e k delta l' Hlk Hid _ IH|l e k Hlk Hid];
    rewrite ?handed_cons, ?delivered_cons; cbn; rewrite ?Hne; auto.
Qed.

Lemma pass_trace_not_forwarded c l delta l' e ok :
  pass_trace c l delta l' → Forwarded e ok ∉ delta.
Proof.
  induction 1 as [l|l s t items delta l' _ IH|l e1 k delta l' _ _ _ IH|l e1 k _ _];
    intros Hin.
  - now apply elem_of_nil in Hin.
  - apply elem_of_cons in Hin as [[=]|Hin]. auto.
  - apply elem_of_cons in Hin as [[=]|Hin]. auto.
  - now apply list_elem_of_singleton in Hin.
Qed.

(** A failed dispatch is the last action of its pass, and the pass ends with
    a last processed id below the id that failed. *)
Lemma pass_trace_failure c l delta l' pre c0 e post :
  pass_trace c l delta l' → delta = pre ++ Dispatched c0 e false :: post →
  post = [] ∧ c0 = c ∧ ∃ k, Number (ev_id e) = Num k ∧ l' < k.
Proof.
  intros Hp. revert pre.
  induction Hp as [l|l s t items delta l' _ IH|l e1 k delta l' Hlk Hid _ IH|l e1 k Hlk Hid];
    intros pre Heq.
  - now destruct pre.
  - destruct pre as [|a pre]; [discriminate|]. injection Heq as _ Heq. eauto.
  - destruct pre as [|a pre]; [discriminate|]. injection Heq as _ Heq. eauto.
  - destruct pre as [|a pre].
    + injection Heq as <- <- <-. eauto.
    + injection Heq as _ Heq. now destruct pre.
Qed.

Section Pass.

Context (env : Environment).

Lemma doneProcessing_post p tr : pass_post env p tr (doneProcessing p) tr.
Proof.
  split; try reflexivity; cbn; auto; try lia.
  intros l Hl. exists l, []. rewrite app_nil_r.
  split; [done|]. split; [done|]. split; [constructor|auto].
Qed.

Lemma processEvents_spec fuel : ∀ p tr p' tr',
  processEvents env fuel p tr = Some (p', tr') →
  keys_match p → pass_post env p tr p' tr'.
Proof.
  induction fuel as [|fuel IH]; intros p tr p' tr' Hrun Hp; [discriminate|].
  cbn [processEvents] in Hrun.
  destruct (size (eventsMap p) <? 1)%nat.
  { injection Hrun as <- <-. apply doneProcessing_post. }
  destruct (lastEventIdProcessed p) as [|l] eqn:Hlast; cbn [js_add] in Hrun.
  { destruct fuel as [|fuel]; [discriminate|].
    rewrite processNextEvent_NaN in Hrun. injection Hrun as <- <-.
    apply doneProcessing_post. }
  destruct (processNextEvent env fuel (Num (l + 1)) p tr)
    as [[[r p1] tr1]|] eqn:Hnext; [|discriminate].
  apply processNextEvent_spec in Hnext; [|done].
  destruct Hnext as [Hc Hl Hpr Hr Hlg Hma Hle Hfl Hbd (fs & tail & Hfs & -> & Hr')].
  destruct r as [e|].
  - destruct Hr' as (k & Hk & Hid & -> & Hb1 & _).
    apply IH in Hrun; [|exact Hma].
    destruct Hrun as [Hc' Hr2 Hlg' Hcl Hidle Hbd' _ Htr]. cbn in *.
    rewrite Hid in Htr. destruct (Htr k eq_refl) as (l' & delta & Hl' & -> & Hpass & Hb).
    split.
    + now rewrite Hc'.
    + now rewrite Hr2.
    + lia.
    + done.
    + done.
    + intros B HB Hrep. apply Hbd'; auto.
    + rewrite Hlast. intros [=].
    + rewrite Hlast. intros l0 [= <-].
      exists l', (fs ++ Dispatched (cid p) e true :: delta).
      split; [done|]. split; [now rewrite <- !app_assoc|].
      rewrite Hc in Hpass.
      split; [apply pass_trace_fetches; [done|]; econstructor; eauto; lia|].
      intros Hkl Hll. apply Hb; [exact (Hle Hkl)|exact (Hb1 Hkl)].
  - injection Hrun as <- <-.
    split; cbn; auto; try lia.
    + rewrite Hl, Hlast. intros [=].
    + rewrite Hl, Hlast. intros l0 [= <-]. exists l, (fs ++ tail).
      split; [done|]. split; [done|]. split; [|lia].
      apply pass_trace_fetches; [done|].
      destruct Hr' as [->|(e & k & Hk & Hid & ->)]; [constructor|].
      econstructor; eauto. lia.
Qed.

End Pass.

(** ** The lookback scan *)

Lemma scan_transfer_cases event found p fe :
  scan_transfer event (found, p) fe =
  if transfer_from event fe
  then (true, enqueue (Number (ev_id fe)) fe
                (set_lastEventIdProcessed (js_add (Number (ev_id fe)) (-1)) p))
  else if found then (true, enqueue (Number (ev_id fe)) fe p)
  else (false, p).
Proof.
  unfold scan_transfer, transfer_from.
  destruct (_ && _); [reflexivity|]. destruct found; reflexivity.
Qed.

Lemma enqueue_any_frame eventId e p :
  cid (enqueue eventId e p) = cid p
  ∧ processing (enqueue eventId e p) = processing p
  ∧ eventsFetchRange (enqueue eventId e p) = eventsFetchRange p
  ∧ lastEventIdProcessed (enqueue eventId e p) = lastEventIdProcessed p.
Proof.
  destruct eventId as [|n]; [done|].
  rewrite enqueue_cid, enqueue_processing, enqueue_range, enqueue_last. done.
Qed.

Lemma enqueue_any_keys_match e p :
  keys_match p → keys_match (enqueue (Number (ev_id e)) e p).
Proof.
  intros Hp. destruct (Number (ev_id e)) as [|n] eqn:Hid; [done|].
  now apply enqueue_keys_match.
Qed.

Lemma scan_fold_frame event events : ∀ found p found' p',
  fold_left (scan_transfer event) events (found, p) = (found', p') →
  cid p' = cid p ∧ processing p' = processing p
  ∧ eventsFetchRange p' = eventsFetchRange p
  ∧ (keys_match p → keys_match p').
Proof.
  induction events as [|fe events IH]; intros found p found' p' Hf.
  - injection Hf as <- <-. done.
  - cbn [fold_left] in Hf. rewrite scan_transfer_cases in Hf.
    destruct (transfer_from event fe); [|destruct found].
    + apply IH in Hf as (-> & -> & -> & Hk).
      destruct (enqueue_any_frame (Number (ev_id fe)) fe
                  (set_lastEventIdProcessed (js_add (Number (ev_id fe)) (-1)) p))
        as (-> & -> & -> & _).
      repeat split. intros Hp. apply Hk. now apply enqueue_any_keys_match.
    + apply IH in Hf as (-> & -> & -> & Hk).
      destruct (enqueue_any_frame (Number (ev_id fe)) fe p) as (-> & -> & -> & _).
      repeat split. intros Hp. apply Hk. now apply enqueue_any_keys_match.
    + now apply IH in Hf.
Qed.

Lemma scanned_frame event events c n :
  cid (scanned event events c n) = c
  ∧ processing (scanned event events c n) = false
  ∧ eventsFetchRange (scanned event events c n) = 9
  ∧ keys_match (scanned event events c n).
Proof.
  unfold scanned.
  destruct (fold_left _ events _) as [found' p'] eqn:Hf.
  apply scan_fold_frame in Hf as (Hc & Hpr & Hr & Hk). cbn [snd].
  rewrite Hc, Hpr, Hr. repeat split.
  apply Hk. intros k e Hke. cbn in Hke. now rewrite lookup_empty in Hke.
Qed.

(** ** The router *)

Section Router.

Context (env : Environment).

Lemma enqueue_and_process_spec fuel c n event p cidMap tr out cidMap' tr' :
  enqueue_and_process env fuel c n event p cidMap tr = Some (out, cidMap', tr') →
  Number (ev_id event) = Num n → keys_match p → processing p = false →
  out = Resolved ∧ ∃ p', cidMap' = <[c := p']> cidMap
    ∧ pass_post env (set_processing true (enqueue (Num n) event p)) tr p' tr'.
Proof.
  unfold enqueue_and_process. intros Hrun Hid Hp Hidle.
  rewrite enqueue_processing, Hidle in Hrun. cbn in Hrun.
  destruct (processEvents env fuel _ tr) as [[p' tr1]|] eqn:Hpass; [|discriminate].
  injection Hrun as <- <- <-. split; [done|]. exists p'. split; [done|].
  apply processEvents_spec in Hpass; [done|].
  intros k e. cbn. now apply enqueue_keys_match.
Qed.

Lemma fetch_lookback c n tr :
  fetchConversationEvents env (lookback_start n) 20 (new_processor c (n - 1)) tr =
  (paginationRequest env tr c (lookback_start n) (lookback_end n),
   tr ++ [Fetched c (lookback_start n) (lookback_end n)
            (paginationRequest env tr c (lookback_start n) (lookback_end n))]).
Proof. reflexivity. Qed.

Lemma EventsQueue_enqueue_routed fuel event cidMap tr out cidMap' tr' :
  EventsQueue_enqueue env fuel event cidMap tr = Some (out, cidMap', tr') →
  (∀ c p, cidMap !! c = Some p → keys_match p ∧ processing p = false) →
  routed env event cidMap tr out cidMap' tr'.
Proof.
  unfold EventsQueue_enqueue. intros Hrun Hmap.
  destruct (negb (truthy (ev_cid event)) || isNaN (Number (ev_id event))) eqn:Hguard.
  { injection Hrun as <- <- <-. now constructor. }
  apply orb_false_elim in Hguard as [Hcid Hnan]. apply negb_false_iff in Hcid.
  destruct (ev_cid event) as [c|] eqn:Hc; [|done].
  destruct (Number (ev_id event)) as [|n] eqn:Hid; [done|].
  destruct (cidMap !! c) as [p|] eqn:Hlook.
  - destruct (Hmap c p Hlook) as [Hk Hidle].
    apply enqueue_and_process_spec in Hrun as (-> & p' & -> & Hpost); try done.
    rewrite insert_insert_eq || idtac.
    eapply routed_sequenced; eauto.
  - destruct (is_transfer_trigger event) eqn:Htrig.
    + cbv zeta in Hrun. fold (lookback_start n) in Hrun.
      rewrite fetch_lookback in Hrun.
      destruct (paginationRequest env tr c (lookback_start n) (lookback_end n))
        as [events|] eqn:Hreq.
      * destruct (fold_left _ events _) as [found p] eqn:Hscan.
        assert (Hp : p = scanned event events c n) by (unfold scanned; now rewrite Hscan).
        destruct (scanned_frame event events c n) as (_ & Hidle & _ & Hk).
        rewrite <- Hp in Hidle, Hk.
        apply enqueue_and_process_spec in Hrun as (-> & p' & -> & Hpost); try done.
        rewrite insert_insert_eq.
        eapply routed_sequenced; eauto.
        right. right. split; [done|]. split; [done|]. exists events. subst p. done.
      * injection Hrun as <- <- <-. now eapply routed_lookback_failed.
    + apply enqueue_and_process_spec in Hrun as (-> & p' & -> & Hpost); try done.
      rewrite insert_insert_eq. eapply routed_sequenced; eauto.
      right. left. done.
Qed.

End Router.

(** ** States between two deliveries *)

Lemma delivered_nil_of_handed c tr : handed c tr = [] → delivered c tr = [].
Proof.
  induction tr as [|a tr IH]; [done|].
  rewrite handed_cons, delivered_cons.
  destruct a as [e ok|c' e ok|c' s t items]; cbn; auto.
  destruct (String.eqb c c'), (Number (ev_id e)), ok; cbn; auto; discriminate.
Qed.

Lemma sorted_extend (A B : list Z) (l : Z) :
  StronglySorted Z.lt A → Forall (λ k, k ≤ l) A →
  StronglySorted Z.lt (l :: B) → StronglySorted Z.lt (A ++ B).
Proof.
  intros HA Hle HB. apply StronglySorted_inv in HB as [HB Hall].
  apply StronglySorted_app. split; [|done].
  intros x y Hx Hy. rewrite Forall_forall in Hle, Hall.
  apply Hle in Hx. apply Hall in Hy. lia.
Qed.

Section Rest.

Context (env : Environment).

Lemma pass_post_other p tr p' tr' c' :
  pass_post env p tr p' tr' → c' ≠ cid p →
  handed c' tr' = handed c' tr ∧ delivered c' tr' = delivered c' tr.
Proof.
  intros Hpost Hne. destruct (lastEventIdProcessed p) as [|l] eqn:Hl.
  - now destruct (pp_NaN _ _ _ _ _ Hpost Hl) as [_ ->].
  - destruct (pp_trace _ _ _ _ _ Hpost l Hl) as (l' & delta & _ & -> & Hpass & _).
    destruct (pass_trace_other _ _ _ _ _ Hpass Hne) as [Hh Hd].
    now rewrite handed_app, delivered_app, Hh, Hd, !app_nil_r.
Qed.

Lemma pass_post_delivered p tr p' tr' :
  pass_post env p tr p' tr' →
  StronglySorted Z.lt (delivered (cid p) tr) →
  match lastEventIdProcessed p with
  | Num l => Forall (λ k, k ≤ l) (delivered (cid p) tr)
  | NaN => delivered (cid p) tr = []
  end →
  StronglySorted Z.lt (delivered (cid p) tr')
  ∧ match lastEventIdProcessed p' with
    | Num l => Forall (λ k, k ≤ l) (delivered (cid p) tr')
    | NaN => delivered (cid p) tr' = []
    end.
Proof.
  intros Hpost Hs Hb. destruct (lastEventIdProcessed p) as [|l] eqn:Hl.
  - destruct (pp_NaN _ _ _ _ _ Hpost Hl) as [-> ->]. done.
  - destruct (pp_trace _ _ _ _ _ Hpost l Hl) as (l' & delta & -> & -> & Hpass & _).
    destruct (pass_trace_delivered _ _ _ _ Hpass) as [Hs' Hle'].
    pose proof (pass_trace_le _ _ _ _ Hpass) as Hll.
    rewrite delivered_app. split.
    + eapply sorted_extend; eauto.
    + apply Forall_app. split.
      * eapply Forall_impl; [exact Hb|]. cbn. lia.
      * now apply Forall_cons_1 in Hle' as [_ ?].
Qed.

Lemma at_rest_wf cidMap tr c p :
  at_rest cidMap tr → cidMap !! c = Some p → keys_match p ∧ processing p = false.
Proof.
  intros Hr Hc. specialize (Hr c). rewrite Hc in Hr.
  destruct Hr as (_ & Hm & Hp & _). split; [|done].
  intros k e. rewrite Hm, lookup_empty. discriminate.
Qed.

Lemma routed_at_rest event cidMap tr out cidMap' tr' :
  routed env event cidMap tr out cidMap' tr' →
  at_rest cidMap tr → at_rest cidMap' tr'.
Proof.
  intros Hrt Hrest.
  destruct Hrt as [Hguard|c n Hc Hid Hlook Htrig Hreq
                   |c n p0 tr0 p' tr' Hc Hcid Hid Hp0 Hpost].
  - intros c. specialize (Hrest c).
    now rewrite handed_app, delivered_app, !app_nil_r.
  - intros c'. specialize (Hrest c').
    now rewrite handed_app, delivered_app, !app_nil_r.
  - assert (Hpre : cid p0 = c
               ∧ (∀ c', handed c' tr0 = handed c' tr ∧ delivered c' tr0 = delivered c' tr)
               ∧ StronglySorted Z.lt (delivered c tr)
               ∧ match lastEventIdProcessed p0 with
                 | Num l => Forall (λ k, k ≤ l) (delivered c tr)
                 | NaN => delivered c tr = []
                 end).
    { pose proof (Hrest c) as Hcc.
      destruct Hp0 as [[Hl ->]|[(Hl & _ & -> & ->)|(Hl & _ & events & _ & -> & ->)]];
        rewrite Hl in Hcc.
      - destruct Hcc as (? & _ & _ & ? & ?). done.
      - apply delivered_nil_of_handed in Hcc. rewrite Hcc. cbn.
        repeat split; constructor.
      - apply delivered_nil_of_handed in Hcc. rewrite Hcc.
        destruct (scanned_frame event events c n) as (-> & _).
        split; [done|]. split.
        { intros c'. now rewrite handed_app, delivered_app, !app_nil_r. }
        split; [constructor|]. now destruct (lastEventIdProcessed _). }
    destruct Hpre as (Hcp & Hsame & Hs & Hb).
    set (q := set_processing true (enqueue (Num n) event p0)) in *.
    assert (Hcq : cid q = c).
    { change (cid q) with (cid (enqueue (Num n) event p0)). now rewrite enqueue_cid. }
    assert (Hlq : lastEventIdProcessed q = lastEventIdProcessed p0).
    { change (lastEventIdProcessed q)
        with (lastEventIdProcessed (enqueue (Num n) event p0)).
      now rewrite enqueue_last. }
    intros c'. destruct (decide (c' = c)) as [->|Hne].
    + rewrite lookup_insert_eq.
      destruct (pass_post_delivered _ _ _ _ Hpost) as [Hs' Hb'].
      * rewrite Hcq. now destruct (Hsame c) as [_ ->].
      * rewrite Hcq, Hlq. now destruct (Hsame c) as [_ ->].
      * rewrite Hcq in Hs', Hb'.
        split; [now rewrite (pp_cid _ _ _ _ _ Hpost)|].
        split; [apply (pp_cleared _ _ _ _ _ Hpost)|].
        split; [apply (pp_idle _ _ _ _ _ Hpost)|]. done.
    + rewrite lookup_insert_ne by done.
      destruct (pass_post_other _ _ _ _ c' Hpost) as [Hh Hd]; [now rewrite Hcq|].
      destruct (Hsame c') as [Hh0 Hd0]. rewrite Hh, Hd, Hh0, Hd0. apply Hrest.
Qed.

Lemma EventsQueue_enqueue_at_rest fuel event cidMap tr out cidMap' tr' :
  EventsQueue_enqueue env fuel event cidMap tr = Some (out, cidMap', tr') →
  at_rest cidMap tr → at_rest cidMap' tr'.
Proof.
  intros Hrun Hrest. eapply routed_at_rest; [|exact Hrest].
  eapply EventsQueue_enqueue_routed; [exact Hrun|].
  intros c p. now apply (at_rest_wf cidMap tr).
Qed.

Lemma deliver_at_rest fuel events : ∀ cidMap tr cidMap' tr',
  deliver env fuel events cidMap tr = Some (cidMap', tr') →
  at_rest cidMap tr → at_rest cidMap' tr'.
Proof.
  induction events as [|event events IH]; intros cidMap tr cidMap' tr' Hrun Hrest.
  - now injection Hrun as <- <-.
  - cbn [deliver] in Hrun.
    destruct (EventsQueue_enqueue env fuel event cidMap tr)
      as [[[out cidMap1] tr1]|] eqn:Hstep; [|discriminate].
    eapply IH; [exact Hrun|]. eapply EventsQueue_enqueue_at_rest; eauto.
Qed.

Lemma at_rest_empty : at_rest ∅ [].
Proof. intros c. now rewrite lookup_empty. Qed.

End Rest.

(** ** Termination of the drain loop *)

Section Termination.

Context (env : Environment) (B : Z).
Hypothesis Hbounded : replies_bounded env B.

Lemma replies_bounded_max h : replies_bounded env (Z.max B h).
Proof.
  intros tr c s t items e k Hreq Hin Hid.
  specialize (Hbounded tr c s t items e k Hreq Hin Hid). lia.
Qed.

Lemma processNextEvent_total fuel : ∀ n p tr,
  (Z.to_nat (Z.max B (largestEventIdInQueue p) - n) < fuel)%nat →
  ∃ r p' tr', processNextEvent env fuel (Num n) p tr = Some (r, p', tr').
Proof.
  induction fuel as [|fuel IH]; intros n p tr Hfuel; [lia|].
  cbn [processNextEvent].
  destruct (eventsMap p !! n) as [e|] eqn:Hlook.
  - unfold dequeue. rewrite Hlook. cbn. eauto.
  - rewrite dequeue_absent by exact Hlook.
    destruct (js_gt (Num (largestEventIdInQueue p)) (Num n)) eqn:Hg; [|eauto].
    apply js_gt_Num in Hg.
    destruct (fetchEventsAndProcess env n p tr) as [[[e|] p1] tr1] eqn:Hfetch.
    + cbn. eauto.
    + apply fetchEventsAndProcess_spec in Hfetch as (_ & Hm & _).
      apply IH.
      assert (largestEventIdInQueue p1 ≤ Z.max B (largestEventIdInQueue p)).
      { eapply (mg_bound _ _ _ _ Hm); [lia|].
        intros e0 k Hin Hk. unfold gap_reply in Hin.
        destruct (paginationRequest env tr (cid p) n _) as [items|] eqn:Hreq;
          [|now apply elem_of_nil in Hin].
        eapply replies_bounded_max; eauto. }
      lia.
Qed.

Lemma processEvents_total fuel : ∀ p tr,
  keys_match p → keys_le_largest p →
  (drain_fuel B p ≤ fuel)%nat →
  ∃ p' tr', processEvents env fuel p tr = Some (p', tr').
Proof.
  induction fuel as [|fuel IH]; intros p tr Hk Hle Hfuel.
  { unfold drain_fuel in Hfuel. destruct (lastEventIdProcessed p); lia. }
  cbn [processEvents].
  destruct (size (eventsMap p) <? 1)%nat; [eauto|].
  unfold drain_fuel in Hfuel.
  destruct (lastEventIdProcessed p) as [|l] eqn:Hlast; cbn [js_add].
  { destruct fuel as [|fuel]; [lia|]. rewrite processNextEvent_NaN. eauto. }
  destruct (processNextEvent_total fuel (l + 1) p tr) as (r & p1 & tr1 & Hnext); [lia|].
  rewrite Hnext. pose proof Hnext as Hspec.
  apply processNextEvent_spec in Hspec; [|done].
  destruct r as [e|]; [|eauto].
  destruct Hspec as [_ _ _ _ _ Hma Hle1 _ Hbd (fs & tail & _ & _ & k & Hk1 & Hid & _ & Hb1 & _)].
  apply IH; [done|exact (Hle1 Hle)|].
  unfold drain_fuel. cbn. rewrite Hid.
  specialize (Hb1 Hle).
  specialize (Hbd (Z.max B (largestEventIdInQueue p)) ltac:(lia)
                (replies_bounded_max _)).
  lia.
Qed.

End Termination.

(** ** Steps of the drain loop on known states *)

Section Steps.

Context (env : Environment).

Lemma size_lookup_Some (m : gmap Z Event) k e :
  m !! k = Some e → (size m <? 1)%nat = false.
Proof.
  intros H. apply Nat.ltb_ge.
  destruct (decide (size m = 0%nat)) as [H0|]; [|lia].
  apply map_size_empty_iff in H0. subst m. now rewrite lookup_empty in H.
Qed.

(** The next id is buffered and its handler succeeds. *)
Lemma processEvents_buffered fuel p tr l e :
  lastEventIdProcessed p = Num l → eventsMap p !! (l + 1) = Some e →
  handleEvent env tr e = true →
  processEvents env (S (S fuel)) p tr =
  processEvents env (S fuel)
    (set_lastEventIdProcessed (Number (ev_id e))
       (set_eventsMap (delete (l + 1) (eventsMap p)) p))
    (tr ++ [Dispatched (cid p) e true]).
Proof.
  intros Hl Hlook Hok. cbn [processEvents].
  rewrite (size_lookup_Some _ _ _ Hlook), Hl. cbn [js_add processNextEvent].
  unfold dequeue. rewrite Hlook. unfold callback. cbn. now rewrite Hok.
Qed.

(** The next id is buffered and its handler fails: the pass is over. *)
Lemma processEvents_failed fuel p tr l e :
  lastEventIdProcessed p = Num l → eventsMap p !! (l + 1) = Some e →
  handleEvent env tr e = false →
  processEvents env (S (S fuel)) p tr =
  Some (doneProcessing p, tr ++ [Dispatched (cid p) e false]).
Proof.
  intros Hl Hlook Hok. cbn [processEvents].
  rewrite (size_lookup_Some _ _ _ Hlook), Hl. cbn [js_add processNextEvent].
  unfold dequeue. rewrite Hlook. unfold callback. cbn. now rewrite Hok.
Qed.

Lemma processEvents_empty fuel p tr :
  eventsMap p = ∅ → processEvents env (S fuel) p tr = Some (doneProcessing p, tr).
Proof. intros H. cbn [processEvents]. now rewrite H. Qed.

End Steps.

(** ** Ordering of dispatches *)

Section Ordering.

Context (env : Environment).

Lemma routed_handed event cidMap tr out cidMap' tr' :
  routed env event cidMap tr out cidMap' tr' →
  ∃ delta, tr' = tr ++ delta ∧ ∀ c, StronglySorted Z.lt (handed c delta).
Proof.
  intros [Hguard|c n Hc Hid Hlook Htrig Hreq|c n p0 tr0 p1 tr1 Hc Hcid Hid Hp0 Hpost].
  - eexists. split; [done|]. intros c. constructor.
  - eexists. split; [done|]. intros c'. constructor.
  - assert (Hpre : ∃ pre, tr0 = tr ++ pre ∧ ∀ c', handed c' pre = []).
    { destruct Hp0 as [[_ ->]|[(_ & _ & _ & ->)|(_ & _ & events & _ & _ & ->)]].
      - exists []. now rewrite app_nil_r.
      - exists []. now rewrite app_nil_r.
      - eexists. split; [done|]. done. }
    destruct Hpre as (pre & -> & Hpre).
    set (q := set_processing true (enqueue (Num n) event p0)) in *.
    destruct (lastEventIdProcessed q) as [|l] eqn:Hl.
    + destruct (pp_NaN _ _ _ _ _ Hpost Hl) as [_ ->].
      exists pre. split; [done|]. intros c'. rewrite Hpre. constructor.
    + destruct (pp_trace _ _ _ _ _ Hpost l Hl) as (l' & delta & _ & -> & Hpass & _).
      exists (pre ++ delta). split; [now rewrite app_assoc|].
      intros c'. rewrite handed_app, Hpre. cbn.
      destruct (decide (c' = cid q)) as [->|Hne].
      * apply pass_trace_handed in Hpass. now apply StronglySorted_inv in Hpass as [? _].
      * destruct (pass_trace_other _ _ _ _ _ Hpass Hne) as [-> _]. constructor.
Qed.

End Ordering.

(** ** The pass goes on after a gap *)

Section Onward.

Context (env : Environment).

(** What [processNextEvent] does with the ids from [n] on that are in the
    buffer: the event it returns has the smallest of them that is left and
    the others stay; it returns nothing only when there is none or when a
    dispatch failed. *)
Lemma processNextEvent_onward fuel n p tr r p' tr' :
  processNextEvent env fuel (Num n) p tr = Some (r, p', tr') →
  keys_match p → keys_le_largest p →
  match r with
  | Some e => ∃ k, Number (ev_id e) = Num k ∧ n ≤ k
      ∧ (∀ j, n ≤ j < k → eventsMap p !! j = None)
      ∧ ∀ j, k < j → is_Some (eventsMap p !! j) → is_Some (eventsMap p' !! j)
  | None => (∀ j, n ≤ j → eventsMap p !! j = None)
            ∨ ∃ e delta, tr' = tr ++ delta ∧ Dispatched (cid p) e false ∈ delta
  end.
Proof.
  revert fuel n p tr r p' tr'.
  apply (processNextEvent_cases env
           (λ n p tr r p' tr',
              keys_match p → keys_le_largest p →
              match r with
              | Some e => ∃ k, Number (ev_id e) = Num k ∧ n ≤ k
                  ∧ (∀ j, n ≤ j < k → eventsMap p !! j = None)
                  ∧ ∀ j, k < j → is_Some (eventsMap p !! j) →
                         is_Some (eventsMap p' !! j)
              | None => (∀ j, n ≤ j → eventsMap p !! j = None)
                        ∨ ∃ e delta, tr' = tr ++ delta
                            ∧ Dispatched (cid p) e false ∈ delta
              end)).
  - intros n p tr e Hlook Hk Hle. destruct (handleEvent env tr e).
    + exists n. split; [eauto|]. split; [lia|]. split; [intros j Hj; lia|].
      intros j Hj Hin. cbn. rewrite lookup_delete_ne by lia. done.
    + right. exists e, [Dispatched (cid p) e false]. split; [done|].
      apply list_elem_of_here.
  - intros n p tr Hlook Hlg Hk Hle. left. intros j Hj.
    destruct (eventsMap p !! j) as [x|] eqn:Hx; [|done].
    assert (j ≤ largestEventIdInQueue p) by eauto.
    assert (j = n) as -> by lia. congruence.
  - intros n p tr e p1 tr1 Hlook Hlg Hfetch Hk Hle.
    apply fetchEventsAndProcess_spec in Hfetch as (-> & Hm & Hfound & _).
    destruct (Hfound e eq_refl) as (Hid & _).
    destruct (handleEvent env _ e).
    + exists n. split; [done|]. split; [lia|]. split; [intros j Hj; lia|].
      intros j Hj Hin. now apply (mg_keeps _ _ _ _ Hm).
    + right. rewrite (mg_cid _ _ _ _ Hm).
      exists e, [Fetched (cid p) n (gap_end_id n p) (gap_reply env n p tr);
                 Dispatched (cid p) e false].
      split; [now rewrite <- app_assoc|].
      apply list_elem_of_further, list_elem_of_here.
  - intros n p tr p1 tr1 r p' tr' Hlook Hlg Hfetch IH Hk Hle.
    apply fetchEventsAndProcess_spec in Hfetch as (-> & Hm & _).
    assert (Hkeep : ∀ j, eventsMap p1 !! j = None → eventsMap p !! j = None).
    { intros j Hj. destruct (eventsMap p !! j) as [x|] eqn:Hx; [|done].
      destruct (mg_keeps _ _ _ _ Hm j) as [y Hy]; [eauto|]. congruence. }
    specialize (IH (merged_keys_match _ _ _ _ Hm Hk)
                   (merged_keys_le _ _ _ _ Hm Hle)).
    destruct r as [e|].
    + destruct IH as (k & Hid & Hnk & Hnone & Hkeys).
      exists k. split; [done|]. split; [lia|]. split.
      * intros j Hj. destruct (decide (j = n)) as [->|Hne]; [done|].
        apply Hkeep, Hnone. lia.
      * intros j Hj Hin. apply Hkeys; [done|]. now apply (mg_keeps _ _ _ _ Hm).
    + destruct IH as [Hnone|(e & delta & -> & Hin)].
      * left. intros j Hj. destruct (decide (j = n)) as [->|Hne]; [done|].
        apply Hkeep, Hnone. lia.
      * right. rewrite (mg_cid _ _ _ _ Hm) in Hin.
        exists e, (Fetched (cid p) n (gap_end_id n p) (gap_reply env n p tr) :: delta).
        split; [now rewrite <- app_assoc|]. now apply list_elem_of_further.
Qed.

(** Unless a dispatch fails, a pass delivers every id above the last
    processed one that is in the buffer at its start. *)
Lemma processEvents_onward fuel : ∀ p tr p' tr' l,
  processEvents env fuel p tr = Some (p', tr') →
  keys_match p → keys_le_largest p → lastEventIdProcessed p = Num l →
  ∃ delta, tr' = tr ++ delta
    ∧ ((∃ e, Dispatched (cid p) e false ∈ delta)
       ∨ ∀ k, l < k → is_Some (eventsMap p !! k) → k ∈ delivered (cid p) delta).
Proof.
  induction fuel as [|fuel IH]; intros p tr p' tr' l Hrun Hk Hle Hl; [discriminate|].
  cbn [processEvents] in Hrun.
  destruct (size (eventsMap p) <? 1)%nat eqn:Hsize.
  { injection Hrun as <- <-. exists []. split; [now rewrite app_nil_r|].
    right. intros k _ [x Hx]. apply size_lookup_Some in Hx. congruence. }
  rewrite Hl in Hrun. cbn [js_add] in Hrun.
  destruct (processNextEvent env fuel (Num (l + 1)) p tr)
    as [[[r p1] tr1]|] eqn:Hnext; [|discriminate].
  pose proof (processNextEvent_onward _ _ _ _ _ _ _ Hnext Hk Hle) as Hon.
  apply processNextEvent_spec in Hnext; [|done].
  destruct Hnext as [Hc _ _ _ _ Hma Hle1 _ _ (fs & tail & Hfs & -> & Hr')].
  destruct r as [e|].
  - destruct Hon as (k & Hid & Hlk & Hnone & Hkeys).
    destruct Hr' as (k' & _ & Hid' & -> & _).
    eapply (IH _ _ _ _ k) in Hrun; [|exact Hma|exact (Hle1 Hle)|exact Hid].
    destruct Hrun as (d2 & -> & Hd2). cbn in Hd2. rewrite Hc in Hd2.
    exists (fs ++ Dispatched (cid p) e true :: d2).
    split; [now rewrite <- !app_assoc|].
    destruct Hd2 as [(e0 & Hin)|Hall].
    + left. exists e0. apply elem_of_app. right. now apply list_elem_of_further.
    + right. intros j Hj Hin.
      rewrite delivered_app, delivered_cons, (delivered_id_ok _ _ k Hid).
      apply elem_of_app. right.
      destruct (decide (j = k)) as [->|Hne]; [apply list_elem_of_here|].
      apply list_elem_of_further.
      destruct (decide (j < k)) as [Hlt|Hge].
      * rewrite Hnone in Hin by lia. now destruct Hin.
      * apply Hall; [lia|]. apply Hkeys; [lia|done].
  - injection Hrun as <- <-. exists (fs ++ tail). split; [done|].
    destruct Hon as [Hnone|(e & delta & Heq & Hin)].
    + right. intros j Hj Hin. rewrite Hnone in Hin by lia. now destruct Hin.
    + left. exists e. apply app_inv_head in Heq. now subst delta.
Qed.

End Onward.

(** ** Skipping an id that the history does not have *)

Section SkipForward.

Context (env : Environment).

Lemma gap_not_found_step fuel p tr p' tr' l :
  keys_match p → lastEventIdProcessed p = Num l → eventsMap p ≠ ∅ →
  eventsMap p !! (l + 1) = None → l + 1 < largestEventIdInQueue p →
  (∀ e0, e0 ∈ reply_items (gap_reply env (l + 1) p tr) →
         Number (ev_id e0) ≠ Num (l + 1)) →
  processEvents env fuel p tr = Some (p', tr') →
  ∃ delta l',
    tr' = tr ++ Fetched (cid p) (l + 1) (gap_end_id (l + 1) p)
                  (gap_reply env (l + 1) p tr) :: delta
    ∧ StronglySorted Z.lt ((l + 1) :: handed (cid p) delta)
    ∧ lastEventIdProcessed p' = Num l' ∧ l' ≠ l + 1
    ∧ (l' = l ∨ l' ∈ delivered (cid p) delta).
Proof.
  intros Hk Hl Hne Hlook Hlg Hreply Hrun.
  destruct fuel as [|fuel]; [discriminate|]. cbn [processEvents] in Hrun.
  assert (Hsize : (size (eventsMap p) <? 1)%nat = false).
  { apply Nat.ltb_ge. destruct (decide (size (eventsMap p) = 0%nat)) as [H0|]; [|lia].
    now apply map_size_empty_iff in H0. }
  rewrite Hsize, Hl in Hrun. cbn [js_add] in Hrun.
  destruct fuel as [|fuel]; [discriminate|]. cbn [processNextEvent] in Hrun.
  rewrite dequeue_absent in Hrun by exact Hlook.
  assert (Hg : js_gt (Num (largestEventIdInQueue p)) (Num (l + 1)) = true)
    by now apply js_gt_Num.
  rewrite Hg in Hrun.
  destruct (fetchEventsAndProcess env (l + 1) p tr) as [[found p1] tr1] eqn:Hfetch.
  apply fetchEventsAndProcess_spec in Hfetch as (-> & Hm & _ & Hnone).
  apply Hnone in Hreply. subst found.
  destruct (processNextEvent env fuel (Num (l + 1 + 1)) p1 _)
    as [[[r p2] tr2]|] eqn:Hnext; [|discriminate].
  assert (Hk1 : keys_match p1) by (eapply merged_keys_match; eauto).
  apply processNextEvent_spec in Hnext; [|done].
  destruct Hnext as [Hc Hl2 _ _ _ Hma _ _ _ (fs & tail & Hfs & -> & Hr)].
  rewrite (mg_cid _ _ _ _ Hm) in *. rewrite (mg_last _ _ _ _ Hm), Hl in Hl2.
  destruct r as [e|].
  - destruct Hr as (k & Hk2 & Hid & -> & _).
    apply processEvents_spec in Hrun; [|exact Hma].
    destruct Hrun as [_ _ _ _ _ _ _ Htr]. cbn in Htr. rewrite Hid in Htr.
    destruct (Htr k eq_refl) as (l' & delta & Hl' & -> & Hpass & _).
    rewrite Hc in Hpass.
    exists (fs ++ Dispatched (cid p) e true :: delta), l'.
    split; [now rewrite <- !app_assoc|].
    assert (Hfull : pass_trace (cid p) (l + 1)
                      (fs ++ Dispatched (cid p) e true :: delta) l').
    { apply pass_trace_fetches; [done|]. apply (pass_ok _ _ _ k); [lia|done|done]. }
    split; [exact (pass_trace_handed _ _ _ _ Hfull)|].
    pose proof (pass_trace_le _ _ _ _ Hpass).
    split; [done|]. split; [lia|]. right.
    destruct (pass_trace_delivered _ _ _ _ Hpass) as [_ Hle].
    rewrite delivered_app, delivered_cons, (delivered_id_ok _ _ _ Hid).
    apply elem_of_app. right.
    exact (pass_trace_last_in _ _ _ _ Hpass).
  - injection Hrun as <- <-.
    exists (fs ++ tail), l.
    split; [now rewrite <- !app_assoc|].
    split.
    + apply (pass_trace_handed _ _ _ (l + 1)).
      apply pass_trace_fetches; [done|].
      destruct Hr as [->|(e & k & Hk2 & Hid & ->)]; [constructor|].
      apply (pass_fail _ _ _ k); [lia|done].
    + cbn. rewrite Hl2. split; [done|]. split; [lia|now left].
Qed.

End SkipForward.

(** Claim C2, refuted as stated: the fetches for 11 and 12 yield nothing and
    the dispatch of 13 is rejected; the pass ends with last processed id 10,
    not advanced past the skipped ids, and an event 11 that arrives later is
    buffered and dispatched, so 11 was not consumed. *)
Lemma skipped_id_not_consumed :
  summary (processEvents env_reject_13 5 p_gap13 [])
  = Some (Num 10, 13, ∅, false,
          [Fetched "CON-1" 11 22 (Some []); Fetched "CON-1" 12 22 (Some []);
           Dispatched "CON-1" (text_event 13 "live") false])
  ∧ trace_of
      (deliver env_reject_13 5
         [text_event 10 "a"; text_event 13 "live"; text_event 11 "late"] ∅ [])
    = Some [Dispatched "CON-1" (text_event 10 "a") true;
            Fetched "CON-1" 11 22 (Some []); Fetched "CON-1" 12 22 (Some []);
            Dispatched "CON-1" (text_event 13 "live") false;
            Dispatched "CON-1" (text_event 11 "late") true].
Proof. split; vm_compute; reflexivity. Qed.

Lemma keys_match_first b n e c l :
  Number (ev_id e) = Num n →
  keys_match (set_processing b (enqueue (Num n) e (new_processor c l))).
Proof.
  intros Hid k x Hx. change (eventsMap (set_processing b ?q)) with (eventsMap q) in Hx.
  apply enqueue_lookup in Hx as [Hx|(-> & -> & _)]; [|done].
  cbn in Hx. now rewrite lookup_empty in Hx.
Qed.

(** ** Replies in the range of exact arithmetic *)

Lemma safe_bounds n :
  safe n = true → 20 - MAX_SAFE_INTEGER ≤ n ≤ MAX_SAFE_INTEGER - 20.
Proof. unfold safe. intros H. apply andb_true_iff in H as [H1 H2]. lia. Qed.

Lemma replies_safe_bounded env :
  replies_safe env → replies_bounded env (MAX_SAFE_INTEGER - 20).
Proof.
  intros Hsafe tr c s t items e k Hreq Hin Hid.
  specialize (Hsafe tr c s t items e Hreq Hin). unfold safe_event in Hsafe.
  rewrite Hid in Hsafe. now apply safe_bounds in Hsafe.
Qed.

(** ** Skipping an id that the history does not have, continued *)

Section SkipOnward.

Context (env : Environment).

Lemma gap_not_found_onward fuel p tr p' tr' l :
  keys_match p → keys_le_largest p → lastEventIdProcessed p = Num l →
  eventsMap p ≠ ∅ →
  eventsMap p !! (l + 1) = None → l + 1 < largestEventIdInQueue p →
  (∀ e0, e0 ∈ reply_items (gap_reply env (l + 1) p tr) →
         Number (ev_id e0) ≠ Num (l + 1)) →
  processEvents env fuel p tr = Some (p', tr') →
  ∃ delta l',
    tr' = tr ++ Fetched (cid p) (l + 1) (gap_end_id (l + 1) p)
                  (gap_reply env (l + 1) p tr) :: delta
    ∧ StronglySorted Z.lt ((l + 1) :: handed (cid p) delta)
    ∧ lastEventIdProcessed p' = Num l' ∧ l' ≠ l + 1
    ∧ (l' = l ∨ l' ∈ delivered (cid p) delta)
    ∧ ((∃ e, Dispatched (cid p) e false ∈ delta)
       ∨ ∀ k, l < k → is_Some (eventsMap p !! k) →
              k ∈ delivered (cid p) delta ∧ k ≤ l').
Proof.
  intros Hk Hle Hl Hne Hlook Hlg Hreply Hrun.
  destruct (gap_not_found_step env fuel p tr p' tr' l Hk Hl Hne Hlook Hlg Hreply Hrun)
    as (delta & l' & -> & Hsorted & Hl' & Hneq & Hlast).
  exists delta, l'. do 5 (split; [done|]).
  destruct (processEvents_onward env fuel p tr p' _ l Hrun Hk Hle Hl)
    as (delta0 & Heq & Hall).
  apply app_inv_head in Heq. subst delta0.
  destruct Hall as [(e & Hin)|Hall].
  - left. exists e. now apply elem_of_cons in Hin as [[=]|Hin].
  - right. intros k Hlk Hin. specialize (Hall k Hlk Hin).
    rewrite delivered_cons in Hall. cbn in Hall. split; [done|].
    apply processEvents_spec in Hrun; [|done].
    destruct (pp_trace _ _ _ _ _ Hrun l Hl) as (l2 & delta2 & Hl2 & Heq & Hpass & _).
    apply app_inv_head in Heq. subst delta2.
    assert (l2 = l') as -> by congruence.
    destruct (pass_trace_delivered _ _ _ _ Hpass) as [_ Hbound].
    rewrite delivered_cons in Hbound. cbn in Hbound.
    apply Forall_cons in Hbound as [_ Hbound].
    rewrite Forall_forall in Hbound. now apply Hbound.
Qed.

End SkipOnward.

(** Claim C2, amended: when the fetch for the gap at [l + 1] does not yield
    that id, the pass hands no event with id [l + 1] to the handler and goes
    on with the ids above it, in increasing order: unless one of its
    dispatches fails, it delivers every id above [l] that was in the buffer,
    and ends with a last processed id at or above all of them.
    [lastEventIdProcessed] is never set to [l + 1]: it stays [l] or becomes
    the id of an event delivered in the pass.  A pass ends whenever the last
    processed id, the largest id seen and the ids in the replies are in the
    range of exact arithmetic.  With last processed id 10, largest id 13 and
    a fetch for 11 that returns 12 and 13, nothing is dispatched for 11,
    then 12 and 13 are dispatched in this order. *)
Theorem skip_forward :
  (∀ env fuel p tr p' tr' l,
     keys_match p → keys_le_largest p →
     lastEventIdProcessed p = Num l → eventsMap p ≠ ∅ →
     eventsMap p !! (l + 1) = None → l + 1 < largestEventIdInQueue p →
     (∀ e0, e0 ∈ reply_items (gap_reply env (l + 1) p tr) →
            Number (ev_id e0) ≠ Num (l + 1)) →
     processEvents env fuel p tr = Some (p', tr') →
     ∃ delta l',
       tr' = tr ++ Fetched (cid p) (l + 1) (gap_end_id (l + 1) p)
                     (gap_reply env (l + 1) p tr) :: delta
       ∧ StronglySorted Z.lt ((l + 1) :: handed (cid p) delta)
       ∧ lastEventIdProcessed p' = Num l' ∧ l' ≠ l + 1
       ∧ (l' = l ∨ l' ∈ delivered (cid p) delta)
       ∧ ((∃ e, Dispatched (cid p) e false ∈ delta)
          ∨ ∀ k, l < k → is_Some (eventsMap p !! k) →
                 k ∈ delivered (cid p) delta ∧ k ≤ l'))
  ∧ (∀ env p tr,
       replies_safe env → safe_marks p → keys_match p → keys_le_largest p →
       ∃ p' tr',
         processEvents env (drain_fuel (MAX_SAFE_INTEGER - 20) p) p tr
         = Some (p', tr'))
  ∧ summary (processEvents env_without_11 5 p_gap13 [])
    = Some (Num 13, 13, ∅, false,
            [Fetched "CON-1" 11 22
               (Some [history_event 12 "text" "MEM-1";
                      history_event 13 "text" "MEM-1"]);
             Dispatched "CON-1" (set_cid "CON-1" (history_event 12 "text" "MEM-1")) true;
             Dispatched "CON-1" (set_cid "CON-1" (history_event 13 "text" "MEM-1")) true]).
Proof.
  split; [|split].
  - intros env fuel p tr p' tr' l. apply gap_not_found_onward.
  - intros env p tr Hsafe _ Hk Hle.
    eapply processEvents_total; eauto using replies_safe_bounded.
  - vm_compute. reflexivity.
Qed.

Lemma skip_forward_witness :
  ∃ p' tr',
    processEvents env_without_11 5 p_gap13 [] = Some (p', tr')
    ∧ ∃ delta l',
        tr' = [] ++ Fetched (cid p_gap13) (10 + 1) (gap_end_id (10 + 1) p_gap13)
                      (gap_reply env_without_11 (10 + 1) p_gap13 []) :: delta
        ∧ StronglySorted Z.lt ((10 + 1) :: handed (cid p_gap13) delta)
        ∧ lastEventIdProcessed p' = Num l' ∧ l' ≠ 10 + 1
        ∧ (l' = 10 ∨ l' ∈ delivered (cid p_gap13) delta)
        ∧ ((∃ e, Dispatched (cid p_gap13) e false ∈ delta)
           ∨ ∀ k, 10 < k → is_Some (eventsMap p_gap13 !! k) →
                  k ∈ delivered (cid p_gap13) delta ∧ k ≤ l').
Proof.
  eexists _, _. split; [vm_compute; reflexivity|].
  apply (proj1 skip_forward env_without_11 5%nat p_gap13 []).
  - now apply keys_match_first.
  - intros k x Hx.
    change (eventsMap p_gap13) with (<[13 := text_event 13 "live"]> (∅ : gmap Z Event)) in Hx.
    apply lookup_insert_Some in Hx as [[<- _]|[_ Hx]]; [vm_compute; discriminate|].
    now rewrite lookup_empty in Hx.
  - reflexivity.
  - intros H. apply (f_equal (λ m, m !! 13)) in H. vm_compute in H. discriminate.
  - vm_compute. reflexivity.
  - vm_compute. reflexivity.
  - intros e0 Hin.
    change (reply_items (gap_reply env_without_11 (10 + 1) p_gap13 []))
      with [history_event 12 "text" "MEM-1"; history_event 13 "text" "MEM-1"] in Hin.
    apply elem_of_cons in Hin as [->|Hin]; [discriminate|].
    apply list_elem_of_singleton in Hin as ->. discriminate.
  - vm_compute. reflexivity.
Defined.

(** ** Recovering a gap from the history *)

Section Recovery.

Context (env : Environment).

(** A page whose ids are all below the missing one changes nothing. *)
Lemma merge_stale n items : ∀ foundEvent p,
  (∀ e0 k, e0 ∈ items → Number (ev_id e0) = Num k → k < n) →
  fold_left (merge_fetched n) items (foundEvent, p) = (foundEvent, p).
Proof.
  induction items as [|e0 items IH]; intros foundEvent p Hlow; [done|].
  cbn [fold_left]. rewrite merge_fetched_cases.
  assert (Hstep : match Number (ev_id e0) with
                  | NaN => (foundEvent, p)
                  | Num k =>
                      if k <? n then (foundEvent, p)
                      else if n <? k
                           then (foundEvent, enqueue (Num k) (set_cid (cid p) e0) p)
                           else (Some (set_cid (cid p) e0), p)
                  end = (foundEvent, p)).
  { destruct (Number (ev_id e0)) as [|k] eqn:Hid; [done|].
    assert (k < n) as Hk by (eapply Hlow; [apply elem_of_cons; now left|done]).
    apply Z.ltb_lt in Hk. now rewrite Hk. }
  rewrite Hstep. apply IH. intros e1 k Hin. apply Hlow. apply elem_of_cons. now right.
Qed.

Lemma fetchEventsAndProcess_stale n p tr :
  (∀ e0 k, e0 ∈ reply_items (gap_reply env n p tr) →
           Number (ev_id e0) = Num k → k < n) →
  fetchEventsAndProcess env n p tr =
  (None, p, tr ++ [Fetched (cid p) n (gap_end_id n p) (gap_reply env n p tr)]).
Proof.
  intros Hlow. unfold fetchEventsAndProcess, fetchConversationEvents.
  fold (gap_end_id n p). fold (gap_reply env n p tr).
  destruct (gap_reply env n p tr) as [items|]; [|done].
  now rewrite merge_stale.
Qed.

(** The next id is missing, something larger is known and the fetch finds
    the missing event, which the handler accepts. *)
Lemma processEvents_found fuel p tr l e p1 tr1 :
  lastEventIdProcessed p = Num l → eventsMap p ≠ ∅ →
  eventsMap p !! (l + 1) = None → l + 1 < largestEventIdInQueue p →
  fetchEventsAndProcess env (l + 1) p tr = (Some e, p1, tr1) →
  handleEvent env tr1 e = true →
  processEvents env (S (S fuel)) p tr =
  processEvents env (S fuel) (set_lastEventIdProcessed (Number (ev_id e)) p1)
    (tr1 ++ [Dispatched (cid p1) e true]).
Proof.
  intros Hl Hne Hlook Hlg Hfetch Hok. cbn [processEvents].
  assert (Hsize : (size (eventsMap p) <? 1)%nat = false).
  { apply Nat.ltb_ge. destruct (decide (size (eventsMap p) = 0%nat)) as [H0|]; [|lia].
    now apply map_size_empty_iff in H0. }
  rewrite Hsize, Hl. cbn [js_add processNextEvent].
  rewrite dequeue_absent by exact Hlook.
  apply js_gt_Num in Hlg. rewrite Hlg, Hfetch. unfold callback. cbn. now rewrite Hok.
Qed.

(** The next id is missing and the fetch does not find it; the id after it
    is buffered and the handler accepts it. *)
Lemma processEvents_skip_buffered fuel p tr l e p1 tr1 :
  lastEventIdProcessed p = Num l → eventsMap p ≠ ∅ →
  eventsMap p !! (l + 1) = None → l + 1 < largestEventIdInQueue p →
  fetchEventsAndProcess env (l + 1) p tr = (None, p1, tr1) →
  eventsMap p1 !! (l + 1 + 1) = Some e →
  handleEvent env tr1 e = true →
  processEvents env (S (S (S fuel))) p tr =
  processEvents env (S (S fuel))
    (set_lastEventIdProcessed (Number (ev_id e))
       (set_eventsMap (delete (l + 1 + 1) (eventsMap p1)) p1))
    (tr1 ++ [Dispatched (cid p1) e true]).
Proof.
  intros Hl Hne Hlook Hlg Hfetch Hlook1 Hok.
  change (processEvents env (S (S (S fuel))) p tr) with
    (if (size (eventsMap p) <? 1)%nat then Some (doneProcessing p, tr)
     else match processNextEvent env (S (S fuel))
                  (js_add (lastEventIdProcessed p) 1) p tr with
          | None => None
          | Some (Some processedEvent, p, tr) =>
              processEvents env (S (S fuel))
                (set_lastEventIdProcessed (Number (ev_id processedEvent)) p) tr
          | Some (None, p, tr) => Some (doneProcessing p, tr)
          end).
  assert (Hsize : (size (eventsMap p) <? 1)%nat = false).
  { apply Nat.ltb_ge. destruct (decide (size (eventsMap p) = 0%nat)) as [H0|]; [|lia].
    now apply map_size_empty_iff in H0. }
  rewrite Hsize, Hl. cbn [js_add processNextEvent].
  rewrite dequeue_absent by exact Hlook.
  apply js_gt_Num in Hlg. rewrite Hlg, Hfetch.
  unfold dequeue. rewrite Hlook1. unfold callback. cbn. now rewrite Hok.
Qed.

End Recovery.

(** Claim C3, refuted as stated: the history answers with 11, 12 and 13; after
    their dispatch the drain does not block at 14 with the mark at 13: as 15
    is known it fetches from 14, skips 14 and dispatches 15, and the last
    processed id ends at 15. *)
Lemma gap_14_does_not_block :
  summary (processEvents env_page_11_13 7 p_gap15 [])
  = Some (Num 15, 15, ∅, false,
          [Fetched "CON-1" 11 24 (Some page_11_13);
           Dispatched "CON-1" (set_cid "CON-1" (history_event 11 "text" "MEM-1")) true;
           Dispatched "CON-1" (set_cid "CON-1" (history_event 12 "text" "MEM-1")) true;
           Dispatched "CON-1" (set_cid "CON-1" (history_event 13 "text" "MEM-1")) true;
           Fetched "CON-1" 14 24 (Some page_11_13);
           Dispatched "CON-1" (text_event 15 "live") true]).
Proof. vm_compute. reflexivity. Qed.

(** Claim C3, amended: with last processed id 10 and the buffered event 15,
    the drain requests the ids 11 to 24; when the reply is 11, 12 and 13 they
    are dispatched in this order; as the largest id 15 is above 14, the ids
    14 to 24 are requested next, and when that reply has no id from 14 on,
    14 is skipped and 15 is dispatched: the pass ends with last processed id
    15.  A missing id is only fetched while a larger id is known. *)
Theorem recovery_via_fetch :
  (∀ env fuel,
     (∀ tr e, handleEvent env tr e = true) →
     (∀ tr, paginationRequest env tr "CON-1" 11 24 = Some page_11_13) →
     (∀ tr e0 k, e0 ∈ reply_items (paginationRequest env tr "CON-1" 14 24) →
                 Number (ev_id e0) = Num k → k < 14) →
     summary (processEvents env (7 + fuel) p_gap15 [])
     = Some (Num 15, 15, ∅, false,
             recovered_11_13 ++
             [Fetched "CON-1" 14 24
                (paginationRequest env recovered_11_13 "CON-1" 14 24);
              Dispatched "CON-1" (text_event 15 "live") true]))
  ∧ (∀ env fuel n p tr,
       eventsMap p !! n = None → largestEventIdInQueue p ≤ n →
       processNextEvent env (S fuel) (Num n) p tr = Some (None, p, tr)).
Proof.
  split.
  - intros env fuel Hok H11 H14.
    change (7 + fuel)%nat with (S (S (S (S (S (S (S fuel))))))).
    pose (q1 := (fold_left (merge_fetched 11) page_11_13 (None, p_gap15)).2).
    assert (Hf : fetchEventsAndProcess env 11 p_gap15 [] =
                 (Some (set_cid "CON-1" (history_event 11 "text" "MEM-1")), q1,
                  [Fetched "CON-1" 11 24 (Some page_11_13)])).
    { unfold fetchEventsAndProcess, fetchConversationEvents.
      change (cid p_gap15) with "CON-1"%string.
      change (if js_gt (Num (largestEventIdInQueue p_gap15)) (Num 11)
              then largestEventIdInQueue p_gap15 + eventsFetchRange p_gap15
              else 11 + eventsFetchRange p_gap15) with 24.
      rewrite H11. vm_compute. reflexivity. }
    erewrite (processEvents_found env _ p_gap15 [] 10);
      [ | reflexivity | | vm_compute; reflexivity | vm_compute; reflexivity
        | exact Hf | apply Hok ].
    2:{ intros H. apply (f_equal (λ m, m !! 15)) in H. vm_compute in H. discriminate. }
    erewrite (processEvents_buffered env _ _ _ 11);
      [ | reflexivity | vm_compute; reflexivity | apply Hok ].
    erewrite (processEvents_buffered env _ _ _ 12);
      [ | reflexivity | vm_compute; reflexivity | apply Hok ].
    erewrite (processEvents_skip_buffered env _ _ _ 13);
      [ | reflexivity | | vm_compute; reflexivity | vm_compute; reflexivity
        | apply fetchEventsAndProcess_stale | vm_compute; reflexivity | apply Hok ].
    2:{ intros H. apply (f_equal (λ m, m !! 15)) in H. vm_compute in H. discriminate. }
    2:{ intros e0 k Hin. eapply H14. exact Hin. }
    rewrite processEvents_empty by (vm_compute; reflexivity).
    vm_compute. reflexivity.
  - intros env fuel n p tr Hlook Hlg. cbn [processNextEvent].
    rewrite dequeue_absent by exact Hlook.
    apply js_gt_Num_false in Hlg. now rewrite Hlg.
Qed.

Lemma recovery_via_fetch_witness :
  summary (processEvents env_page_11_13 (7 + 0) p_gap15 [])
  = Some (Num 15, 15, ∅, false,
          recovered_11_13 ++
          [Fetched "CON-1" 14 24
             (paginationRequest env_page_11_13 recovered_11_13 "CON-1" 14 24);
           Dispatched "CON-1" (text_event 15 "live") true]).
Proof.
  apply (proj1 recovery_via_fetch env_page_11_13 0%nat).
  - reflexivity.
  - reflexivity.
  - intros tr e0 k Hin Hid.
    change (reply_items (paginationRequest env_page_11_13 tr "CON-1" 14 24))
      with page_11_13 in Hin.
    unfold page_11_13 in Hin.
    repeat (apply elem_of_cons in Hin as [->|Hin]; [injection Hid as <-; lia|]).
    now apply elem_of_nil in Hin.
Defined.

(** ** The invariants of the sequencing state *)

Lemma new_processor_Inv c l : Inv (new_processor c l).
Proof.
  split.
  - exists l. cbn. split; [done|lia].
  - intros k l0 [x Hx]. cbn in Hx. now rewrite lookup_empty in Hx.
  - intros k x Hx. cbn in Hx. now rewrite lookup_empty in Hx.
  - intros k x Hx. cbn in Hx. now rewrite lookup_empty in Hx.
Qed.

Lemma dequeue_Inv n p : Inv p → Inv (dequeue n p).2.
Proof.
  intros Hp. destruct n as [|n]; [done|]. cbn.
  destruct Hp as [Hl Ha Hm Hk].
  assert (Hsub : ∀ j x, delete n (eventsMap p) !! j = Some x → eventsMap p !! j = Some x).
  { intros j x. rewrite lookup_delete. case_decide; [done|auto]. }
  split.
  - exact Hl.
  - intros k l [x Hx] Hlast. apply Hsub in Hx. eapply Ha; eauto.
  - intros k x Hx. apply Hsub in Hx. eauto.
  - intros k x Hx. apply Hsub in Hx. eapply Hk; eauto.
Qed.

Lemma enqueue_any_Inv e p : Inv p → Inv (enqueue (Number (ev_id e)) e p).
Proof.
  intros Hp. destruct (Number (ev_id e)) as [|n] eqn:Hid; [done|].
  now apply enqueue_Inv.
Qed.

Lemma rewind_Inv k fe p :
  eventsMap p = ∅ → Number (ev_id fe) = Num k →
  Inv (enqueue (Num k) fe (set_lastEventIdProcessed (Num (k + -1)) p)).
Proof.
  intros Hempty Hid.
  assert (Hmap : eventsMap (enqueue (Num k) fe
                   (set_lastEventIdProcessed (Num (k + -1)) p)) = {[k := fe]}).
  { rewrite enqueue_eventsMap. cbn [lastEventIdProcessed set_lastEventIdProcessed].
    assert (js_gt (Num k) (Num (k + -1)) = true) as -> by (apply js_gt_Num; lia).
    cbn. now rewrite Hempty. }
  assert (Hone : ∀ j x, ({[k := fe]} : gmap Z Event) !! j = Some x → j = k ∧ x = fe).
  { intros j x Hx. apply lookup_singleton_Some in Hx as [-> ->]. done. }
  split.
  - exists (k + -1). rewrite enqueue_last, enqueue_largest. split; [done|cbn; lia].
  - intros j l [x Hx] Hl. rewrite Hmap in Hx. apply Hone in Hx as [-> _].
    rewrite enqueue_last in Hl. injection Hl as <-. lia.
  - intros j x Hx. rewrite Hmap in Hx. now apply Hone in Hx as [-> ->].
  - intros j x Hx. rewrite Hmap in Hx. apply Hone in Hx as [-> _].
    rewrite enqueue_largest. lia.
Qed.

Lemma scan_after_transfer event events : ∀ p found' p',
  (∀ t, t ∈ events → transfer_from event t = false) →
  fold_left (scan_transfer event) events (true, p) = (found', p') →
  Inv p → Inv p'.
Proof.
  induction events as [|fe events IH]; intros p found' p' Hno Hf Hp.
  - now injection Hf as <- <-.
  - cbn [fold_left] in Hf. rewrite scan_transfer_cases in Hf.
    rewrite (Hno fe) in Hf by (apply elem_of_cons; now left).
    eapply IH; [|exact Hf|now apply enqueue_any_Inv].
    intros t Hin. apply Hno. apply elem_of_cons. now right.
Qed.

Lemma scan_single_transfer event events : ∀ p found' p',
  single_transfer event events = true → eventsMap p = ∅ → Inv p →
  fold_left (scan_transfer event) events (false, p) = (found', p') →
  Inv p'.
Proof.
  induction events as [|fe events IH]; intros p found' p' Hsingle Hempty Hp Hf.
  - now injection Hf as <- <-.
  - cbn [fold_left] in Hf. rewrite scan_transfer_cases in Hf.
    cbn [single_transfer] in Hsingle.
    destruct (transfer_from event fe) eqn:Ht.
    + apply andb_prop in Hsingle as [Hnum Hno].
      destruct (Number (ev_id fe)) as [|k] eqn:Hid; [discriminate|].
      cbn [js_add] in Hf.
      eapply scan_after_transfer; [|exact Hf|now apply rewind_Inv].
      intros t Hin. rewrite forallb_forall in Hno.
      apply negb_true_iff, Hno. now apply list_elem_of_In.
    + eapply IH; eauto.
Qed.

Lemma scanned_Inv event events c n :
  single_transfer event events = true → Inv (scanned event events c n).
Proof.
  intros Hsingle. unfold scanned.
  destruct (fold_left _ events _) as [found' p'] eqn:Hf. cbn [snd].
  eapply scan_single_transfer; [exact Hsingle| |apply new_processor_Inv|exact Hf].
  reflexivity.
Qed.

Section DrainInvariant.

Context (env : Environment).

Lemma processNextEvent_Inv fuel l p tr r p' tr' :
  Inv p → lastEventIdProcessed p = Num l →
  processNextEvent env fuel (Num (l + 1)) p tr = Some (r, p', tr') →
  Inv p' ∧ ∀ e, r = Some e → Inv (set_lastEventIdProcessed (Number (ev_id e)) p').
Proof.
  intros [(l0 & Hl0 & Hle0) Ha Hm Hk] Hl Hrun.
  rewrite Hl in Hl0. injection Hl0 as <-.
  apply processNextEvent_spec in Hrun; [|done].
  destruct Hrun as [_ Hl' _ _ Hlg Hma Hle Hfl _ (fs & tail & _ & _ & Hr)].
  assert (Hfloor : ∀ j, is_Some (eventsMap p !! j) → l + 1 ≤ j).
  { intros j Hj. specialize (Ha j l Hj Hl). lia. }
  split.
  - split.
    + exists l. rewrite Hl', Hl. split; [done|lia].
    + intros j l1 Hj Hl1. rewrite Hl', Hl in Hl1. injection Hl1 as <-.
      specialize (Hfl Hfloor j Hj). lia.
    + done.
    + auto.
  - intros e ->. destruct Hr as (k & Hk1 & Hid & _ & Hb1 & Hb2).
    rewrite Hid. split.
    + exists k. split; [done|]. exact (Hb1 Hk).
    + intros j l1 Hj [= <-]. exact (Hb2 Hfloor j Hj).
    + exact Hma.
    + exact (Hle Hk).
Qed.

Lemma processEvents_Inv fuel p tr p' tr' :
  Inv p → processEvents env fuel p tr = Some (p', tr') → Inv p'.
Proof.
  intros [(l & Hl & Hle) Ha Hm Hk] Hrun.
  apply processEvents_spec in Hrun; [|done].
  destruct Hrun as [_ _ _ Hcl _ _ _ Htr].
  destruct (Htr l Hl) as (l' & delta & Hl' & _ & _ & Hb).
  split.
  - exists l'. split; [done|]. now apply Hb.
  - intros j l1 [x Hx]. rewrite Hcl, lookup_empty in Hx. discriminate.
  - intros j x Hx. rewrite Hcl, lookup_empty in Hx. discriminate.
  - intros j x Hx. rewrite Hcl, lookup_empty in Hx. discriminate.
Qed.

End DrainInvariant.

(** ** The lookback on the first event of a conversation *)

Section Lookback.

Context (env : Environment).

Lemma EventsQueue_enqueue_lookback fuel event cidMap tr c n :
  ev_cid event = Some c → truthy (Some c) = true →
  Number (ev_id event) = Num n → cidMap !! c = None →
  is_transfer_trigger event = true →
  EventsQueue_enqueue env fuel event cidMap tr =
  match paginationRequest env tr c (lookback_start n) (lookback_end n) with
  | Some events =>
      enqueue_and_process env fuel c n event (scanned event events c n)
        (<[c := scanned event events c n]> cidMap)
        (tr ++ [Fetched c (lookback_start n) (lookback_end n) (Some events)])
  | None =>
      Some (Rejected, cidMap,
            tr ++ [Fetched c (lookback_start n) (lookback_end n) None])
  end.
Proof.
  intros Hc Hcid Hid Hlook Htrig. unfold EventsQueue_enqueue.
  rewrite Hc, Hid, Hcid, Hlook, Htrig. cbn [negb orb isNaN]. cbv zeta.
  fold (lookback_start n). rewrite fetch_lookback.
  destruct (paginationRequest env tr c (lookback_start n) (lookback_end n))
    as [events|]; [|reflexivity].
  unfold scanned. now destruct (fold_left _ events _).
Qed.

(** In the drain loop a failed history request is the same as an empty
    page. *)
Lemma fetchEventsAndProcess_failed n p tr :
  gap_reply env n p tr = None →
  fetchEventsAndProcess env n p tr =
  (None, p, tr ++ [Fetched (cid p) n (gap_end_id n p) None]).
Proof.
  intros Hfail. rewrite fetchEventsAndProcess_stale; rewrite Hfail; [done|].
  intros e0 k Hin. now apply elem_of_nil in Hin.
Qed.

(** The scan after the last matching transfer only buffers. *)
Lemma scan_buffer_rest event post : ∀ p found' p',
  (∀ t, t ∈ post → transfer_from event t = false) →
  fold_left (scan_transfer event) post (true, p) = (found', p') →
  lastEventIdProcessed p' = lastEventIdProcessed p
  ∧ (∀ j, is_Some (eventsMap p !! j) → is_Some (eventsMap p' !! j))
  ∧ (∀ e j, e ∈ post → Number (ev_id e) = Num j →
            js_gt (Num j) (lastEventIdProcessed p) = true →
            is_Some (eventsMap p' !! j)).
Proof.
  induction post as [|fe post IH]; intros p found' p' Hno Hf.
  - injection Hf as <- <-. split; [done|]. split; [done|].
    intros e j Hin. now apply elem_of_nil in Hin.
  - cbn [fold_left] in Hf. rewrite scan_transfer_cases in Hf.
    rewrite (Hno fe) in Hf by (apply elem_of_cons; now left).
    apply IH in Hf as (Hl & Hkeep & Hall);
      [|intros t Hin; apply Hno; apply elem_of_cons; now right].
    destruct (enqueue_any_frame (Number (ev_id fe)) fe p) as (_ & _ & _ & Hl1).
    rewrite Hl1 in Hl, Hall.
    assert (Hkeep1 : ∀ j, is_Some (eventsMap p !! j) →
                          is_Some (eventsMap (enqueue (Number (ev_id fe)) fe p) !! j)).
    { intros j Hj. destruct (Number (ev_id fe)); [done|now apply enqueue_keeps]. }
    split; [done|]. split; [intros j Hj; apply Hkeep, Hkeep1, Hj|].
    intros e j Hin Hid Hg. apply elem_of_cons in Hin as [->|Hin]; [|eauto].
    apply Hkeep. rewrite Hid, enqueue_eventsMap, Hg, lookup_insert_eq. eauto.
Qed.

(** The scan of a page whose last matching transfer is [t], with id [k]. *)
Lemma scanned_last_transfer event pre t post c n k :
  transfer_from event t = true →
  (∀ t', t' ∈ post → transfer_from event t' = false) →
  Number (ev_id t) = Num k →
  lastEventIdProcessed (scanned event (pre ++ t :: post) c n) = Num (k - 1)
  ∧ ∀ e j, e ∈ t :: post → Number (ev_id e) = Num j → k ≤ j →
           is_Some (eventsMap (scanned event (pre ++ t :: post) c n) !! j).
Proof.
  intros Ht Hno Hid. unfold scanned. rewrite fold_left_app. cbn [fold_left].
  destruct (fold_left (scan_transfer event) pre _) as [found1 p1].
  rewrite scan_transfer_cases, Ht, Hid. cbn [js_add].
  destruct (fold_left (scan_transfer event) post _) as [found' p'] eqn:Hf.
  apply scan_buffer_rest in Hf as (Hl & Hkeep & Hall); [|done].
  rewrite enqueue_last in Hl, Hall. cbn in Hl, Hall. cbn [snd].
  split; [rewrite Hl; f_equal; lia|].
  intros e j Hin Hj Hkj. apply elem_of_cons in Hin as [->|Hin].
  - apply Hkeep. rewrite Hid in Hj. injection Hj as <-.
    rewrite enqueue_eventsMap. cbn.
    assert ((k + -1 <? k) = true) as -> by (apply Z.ltb_lt; lia).
    rewrite lookup_insert_eq. eauto.
  - eapply Hall; eauto. apply js_gt_Num. lia.
Qed.

(** A pass that starts with the next event in the buffer hands it over
    first, and only larger ids after it. *)
Lemma processEvents_first fuel p tr p' tr' l e :
  keys_match p → lastEventIdProcessed p = Num l →
  eventsMap p !! (l + 1) = Some e →
  processEvents env fuel p tr = Some (p', tr') →
  ∃ ok rest, tr' = tr ++ Dispatched (cid p) e ok :: rest
             ∧ StronglySorted Z.lt ((l + 1) :: handed (cid p) rest).
Proof.
  intros Hk Hl Hlook Hrun.
  destruct fuel as [|[|fuel]]; [discriminate| |].
  { cbn [processEvents processNextEvent] in Hrun.
    rewrite (size_lookup_Some _ _ _ Hlook) in Hrun. discriminate. }
  destruct (handleEvent env tr e) eqn:Hok.
  - rewrite (processEvents_buffered env _ _ _ l e Hl Hlook Hok) in Hrun.
    apply processEvents_spec in Hrun.
    + destruct Hrun as [_ _ _ _ _ _ _ Htr]. cbn in Htr.
      rewrite (Hk _ _ Hlook) in Htr.
      destruct (Htr (l + 1) eq_refl) as (l' & delta & _ & -> & Hpass & _).
      exists true, delta. split; [now rewrite <- app_assoc|].
      exact (pass_trace_handed _ _ _ _ Hpass).
    + intros j x Hx. cbn in Hx. rewrite lookup_delete in Hx.
      case_decide; [done|eauto].
  - rewrite (processEvents_failed env _ _ _ l e Hl Hlook Hok) in Hrun.
    injection Hrun as <- <-. exists false, []. split; [done|].
    repeat constructor.
Qed.

End Lookback.

(** Claim C5, at its failing input: when the history request of the lookback
    fails, the call of [EventsQueue.enqueue] is rejected, no processor is
    registered and the triggering event is not dispatched. *)
Theorem lookback_failure_propagates env fuel event cidMap tr c n :
  ev_cid event = Some c → truthy (Some c) = true →
  Number (ev_id event) = Num n → cidMap !! c = None →
  is_transfer_trigger event = true →
  paginationRequest env tr c (lookback_start n) (lookback_end n) = None →
  EventsQueue_enqueue env fuel event cidMap tr =
  Some (Rejected, cidMap,
        tr ++ [Fetched c (lookback_start n) (lookback_end n) None]).
Proof.
  intros Hc Hcid Hid Hlook Htrig Hfail.
  rewrite (EventsQueue_enqueue_lookback env fuel event cidMap tr c n) by done.
  now rewrite Hfail.
Qed.

Lemma lookback_failure_propagates_witness :
  EventsQueue_enqueue env_retry 5 (joined_event 10) ∅ [] =
  Some (Rejected, ∅, [] ++ [Fetched "CON-1" (lookback_start 10) (lookback_end 10) None]).
Proof.
  apply (lookback_failure_propagates env_retry 5%nat (joined_event 10) ∅ []
           "CON-1" 10); reflexivity.
Defined.

(** Claim C6, refuted as stated: for the joining event 10 the history request
    covers the ids 1 to 29, not only ids before 10; and with transfers from
    the joining member at 5 and at 8 in the page, the dispatch starts at 8,
    the last one, while 5, 6 and 7 are never dispatched. *)
Lemma lookback_starts_at_last_transfer :
  trace_of (deliver env_two_transfers 8 [joined_event 10] ∅ [])
  = Some [Fetched "CON-1" 1 29 (Some page_two_transfers);
          Dispatched "CON-1" (history_event 8 "rtc:transfer" "MEM-1") true;
          Dispatched "CON-1" (history_event 9 "text" "MEM-1") true;
          Dispatched "CON-1" (joined_event 10) true]
  ∧ transfer_from (joined_event 10) (history_event 5 "rtc:transfer" "MEM-1") = true.
Proof. split; vm_compute; reflexivity. Qed.

(** Claim C6, amended: on the first event of a conversation, when it is a
    media event with audio or a member joining with a channel id, the engine
    requests the history from [max 1 (id - 20)] up to [id + 19] (up to 21
    for ids below 3), scans the page in order and rewinds the last processed
    id at every transfer from the originator of the trigger, so that the
    last such transfer [t] decides: the last processed id becomes its id
    minus one, every event of the page from [t] on with an id from [t]'s on
    is buffered, and the first event dispatched has the id of [t]. *)
Theorem lookback_transfer env fuel event cidMap tr c n pre t post k out cidMap' tr' :
  ev_cid event = Some c → truthy (Some c) = true →
  Number (ev_id event) = Num n → cidMap !! c = None →
  is_transfer_trigger event = true →
  paginationRequest env tr c (lookback_start n) (lookback_end n)
    = Some (pre ++ t :: post) →
  transfer_from event t = true →
  (∀ t', t' ∈ post → transfer_from event t' = false) →
  Number (ev_id t) = Num k →
  EventsQueue_enqueue env fuel event cidMap tr = Some (out, cidMap', tr') →
  lookback_start n = Z.max 1 (n - 20)
  ∧ lookback_end n = (if n <? 3 then 21 else n + 19)
  ∧ lastEventIdProcessed (scanned event (pre ++ t :: post) c n) = Num (k - 1)
  ∧ (∀ e j, e ∈ t :: post → Number (ev_id e) = Num j → k ≤ j →
            is_Some (eventsMap (scanned event (pre ++ t :: post) c n) !! j))
  ∧ ∃ e ok rest,
      tr' = tr ++ Fetched c (lookback_start n) (lookback_end n)
                    (Some (pre ++ t :: post))
               :: Dispatched c e ok :: rest
      ∧ Number (ev_id e) = Num k.
Proof.
  intros Hc Hcid Hid Hlook Htrig Hreq Ht Hno Hk Hrun.
  split.
  { unfold lookback_start. destruct (Z.ltb_spec (n - 20) 1); lia. }
  split.
  { unfold lookback_end, lookback_start, js_gt.
    destruct (Z.ltb_spec (n - 20) 1);
      repeat match goal with
             | |- context [?a <? ?b] => destruct (Z.ltb_spec a b)
             end; lia. }
  destruct (scanned_last_transfer event pre t post c n k Ht Hno Hk) as [Hlast Hbuf].
  split; [done|]. split; [done|].
  rewrite (EventsQueue_enqueue_lookback env fuel event cidMap tr c n) in Hrun by done.
  rewrite Hreq in Hrun.
  set (p0 := scanned event (pre ++ t :: post) c n) in *.
  destruct (scanned_frame event (pre ++ t :: post) c n) as (Hcp & Hidle & _ & Hkm).
  fold p0 in Hcp, Hidle, Hkm.
  unfold enqueue_and_process in Hrun.
  rewrite enqueue_processing, Hidle in Hrun. cbn [negb] in Hrun.
  destruct (processEvents env fuel _ _) as [[p' tr1]|] eqn:Hpass; [|discriminate].
  injection Hrun as <- <- <-.
  assert (He0 : is_Some (eventsMap p0 !! k)).
  { apply (Hbuf t k); [apply elem_of_cons; now left|done|lia]. }
  apply (enqueue_keeps n event) in He0 as [e He].
  assert (Hkq : keys_match (set_processing true (enqueue (Num n) event p0))).
  { intros j x. cbn. now apply enqueue_keys_match. }
  eapply (processEvents_first env _ _ _ _ _ (k - 1) e) in Hpass; [|done| |].
  - destruct Hpass as (ok & rest & -> & _). exists e, ok, rest.
    split.
    + cbn [cid set_processing]. rewrite enqueue_cid, Hcp. now rewrite <- app_assoc.
    + apply (Hkq k e). cbn. exact He.
  - cbn [lastEventIdProcessed set_processing]. now rewrite enqueue_last.
  - cbn [eventsMap set_processing]. replace (k - 1 + 1) with k by lia. exact He.
Qed.

Lemma lookback_transfer_witness :
  ∃ out cidMap' tr',
    EventsQueue_enqueue env_one_transfer 8 (joined_event 10) ∅ []
    = Some (out, cidMap', tr')
    ∧ lastEventIdProcessed
        (scanned (joined_event 10) page_one_transfer "CON-1" 10) = Num (5 - 1)
    ∧ ∃ e ok rest,
        tr' = [] ++ Fetched "CON-1" (lookback_start 10) (lookback_end 10)
                      (Some page_one_transfer)
                 :: Dispatched "CON-1" e ok :: rest
        ∧ Number (ev_id e) = Num 5.
Proof.
  eexists _, _, _. split; [vm_compute; reflexivity|].
  assert (Hno : ∀ t', t' ∈ [history_event 6 "text" "MEM-1";
                            history_event 7 "text" "MEM-2";
                            history_event 9 "text" "MEM-1"] →
                      transfer_from (joined_event 10) t' = false).
  { intros t' Hin.
    repeat (apply elem_of_cons in Hin as [->|Hin]; [reflexivity|]).
    now apply elem_of_nil in Hin. }
  edestruct (lookback_transfer env_one_transfer 8%nat (joined_event 10) ∅ []
               "CON-1" 10
               [history_event 3 "text" "MEM-2"; history_event 4 "rtc:transfer" "MEM-2"]
               (history_event 5 "rtc:transfer" "MEM-1")
               [history_event 6 "text" "MEM-1"; history_event 7 "text" "MEM-2";
                history_event 9 "text" "MEM-1"] 5)
    as (_ & _ & Hl & _ & Htr);
    [reflexivity|reflexivity|reflexivity|reflexivity|reflexivity|reflexivity
    |reflexivity|exact Hno|reflexivity|vm_compute; reflexivity|].
  split; [exact Hl|exact Htr].
Defined.

(** ** Where dispatched events come from *)

Lemma from_fetch_app_l c t1 t2 e : from_fetch c t1 e → from_fetch c (t1 ++ t2) e.
Proof.
  intros (s & t & items & e0 & Hin & He0 & ->).
  exists s, t, items, e0. rewrite elem_of_app. auto.
Qed.

Lemma from_fetch_app_r c t1 t2 e : from_fetch c t2 e → from_fetch c (t1 ++ t2) e.
Proof.
  intros (s & t & items & e0 & Hin & He0 & ->).
  exists s, t, items, e0. rewrite elem_of_app. auto.
Qed.

Section Provenance.

Context (env : Environment).

Lemma merged_sourced n p p1 tr k x :
  merged n (reply_items (gap_reply env n p tr)) p p1 →
  eventsMap p1 !! k = Some x →
  sourced p [Fetched (cid p) n (gap_end_id n p) (gap_reply env n p tr)] x.
Proof.
  intros Hm Hx.
  apply (mg_lookup _ _ _ _ Hm) in Hx as [Hx|(_ & _ & _ & e0 & Hin & -> & _)].
  - left. eauto.
  - right. destruct (gap_reply env n p tr) as [items|] eqn:Hreply;
      [|now apply elem_of_nil in Hin].
    exists n, (gap_end_id n p), items, e0.
    split; [apply list_elem_of_singleton; reflexivity|done].
Qed.

Lemma processNextEvent_sourced fuel n p tr r p' tr' :
  processNextEvent env fuel (Num n) p tr = Some (r, p', tr') →
  cid p' = cid p
  ∧ ∃ delta, tr' = tr ++ delta
      ∧ (∀ c e ok, Dispatched c e ok ∈ delta → sourced p delta e)
      ∧ (∀ k x, eventsMap p' !! k = Some x → sourced p delta x).
Proof.
  revert fuel n p tr r p' tr'.
  apply (processNextEvent_cases env
           (λ n p tr r p' tr',
              cid p' = cid p
              ∧ ∃ delta, tr' = tr ++ delta
                  ∧ (∀ c e ok, Dispatched c e ok ∈ delta → sourced p delta e)
                  ∧ (∀ k x, eventsMap p' !! k = Some x → sourced p delta x))).
  - intros n p tr e Hlook. split; [done|]. eexists. split; [done|]. split.
    + intros c e1 ok Hin. apply list_elem_of_singleton in Hin as [= _ -> _].
      left. eauto.
    + intros k x Hx. cbn in Hx. rewrite lookup_delete in Hx.
      case_decide; [done|]. left. eauto.
  - intros n p tr Hlook Hlg. split; [done|]. exists []. split; [now rewrite app_nil_r|].
    split.
    + intros c e ok Hin. now apply elem_of_nil in Hin.
    + intros k x Hx. left. eauto.
  - intros n p tr e p1 tr1 Hlook Hlg Hfetch.
    apply fetchEventsAndProcess_spec in Hfetch as (-> & Hm & Hfound & _).
    destruct (Hfound e eq_refl) as (_ & e0 & Hin0 & ->).
    split; [apply (mg_cid _ _ _ _ Hm)|].
    eexists. split; [now rewrite <- app_assoc|]. split.
    + intros c e1 ok Hin. apply elem_of_cons in Hin as [[=]|Hin].
      apply list_elem_of_singleton in Hin as [= _ -> _].
      right. destruct (gap_reply env n p tr) as [items|] eqn:Hreply;
        [|now apply elem_of_nil in Hin0].
      exists n, (gap_end_id n p), items, e0.
      split; [apply elem_of_cons; now left|done].
    + intros k x Hx. eapply merged_sourced in Hx; [|exact Hm].
      destruct Hx as [Hx|Hx]; [now left|right].
      now apply (from_fetch_app_l _ [_] [_]).
  - intros n p tr p1 tr1 r p' tr' Hlook Hlg Hfetch (Hc & delta & -> & Hd & Hmap).
    apply fetchEventsAndProcess_spec in Hfetch as (-> & Hm & _ & _).
    pose proof (mg_cid _ _ _ _ Hm) as Hc1.
    split; [now rewrite Hc|].
    eexists. split; [now rewrite <- app_assoc|].
    assert (Hlift : ∀ x, sourced p1 delta x →
              sourced p ([Fetched (cid p) n (gap_end_id n p) (gap_reply env n p tr)]
                         ++ delta) x).
    { intros x [[k Hx]|Hx].
      - eapply merged_sourced in Hx; [|exact Hm].
        destruct Hx as [Hx|Hx]; [now left|right]. now apply from_fetch_app_l.
      - right. rewrite Hc1 in Hx. now apply from_fetch_app_r. }
    split.
    + intros c e ok Hin. apply elem_of_cons in Hin as [[=]|Hin]. eauto.
    + intros k x Hx. eauto.
Qed.

Lemma processEvents_sourced fuel : ∀ p tr p' tr',
  processEvents env fuel p tr = Some (p', tr') →
  ∃ delta, tr' = tr ++ delta
    ∧ ∀ c e ok, Dispatched c e ok ∈ delta → sourced p delta e.
Proof.
  induction fuel as [|fuel IH]; intros p tr p' tr' Hrun; [discriminate|].
  cbn [processEvents] in Hrun.
  assert (Hnil : ∃ delta, tr = tr ++ delta
            ∧ ∀ c e ok, Dispatched c e ok ∈ delta → sourced p delta e).
  { exists []. split; [now rewrite app_nil_r|].
    intros c e ok Hin. now apply elem_of_nil in Hin. }
  destruct (size (eventsMap p) <? 1)%nat; [now injection Hrun as <- <-|].
  destruct (lastEventIdProcessed p) as [|l]; cbn [js_add] in Hrun.
  { destruct fuel as [|fuel]; [discriminate|].
    rewrite processNextEvent_NaN in Hrun. now injection Hrun as <- <-. }
  destruct (processNextEvent env fuel (Num (l + 1)) p tr)
    as [[[r p1] tr1]|] eqn:Hnext; [|discriminate].
  apply processNextEvent_sourced in Hnext as (Hc & delta & -> & Hd & Hmap).
  destruct r as [e|].
  - apply IH in Hrun as (delta' & -> & Hd').
    exists (delta ++ delta'). split; [now rewrite app_assoc|].
    intros c e1 ok Hin. apply elem_of_app in Hin as [Hin|Hin].
    + destruct (Hd c e1 ok Hin) as [Hx|Hx]; [now left|right].
      now apply from_fetch_app_l.
    + destruct (Hd' c e1 ok Hin) as [[k Hx]|Hx].
      * cbn in Hx. destruct (Hmap k e1 Hx) as [Hy|Hy]; [now left|right].
        now apply from_fetch_app_l.
      * right. cbn in Hx. rewrite Hc in Hx. now apply from_fetch_app_r.
  - injection Hrun as <- <-. eauto.
Qed.

End Provenance.

(** ** A rejected dispatch *)

Section Failure.

Context (env : Environment).

Lemma routed_failure event cidMap tr out cidMap' tr' pre c e post :
  at_rest cidMap tr →
  routed env event cidMap tr out cidMap' tr' →
  tr' = tr ++ pre ++ Dispatched c e false :: post →
  post = [] ∧ out = Resolved
  ∧ ∃ p' l n, cidMap' !! c = Some p' ∧ processing p' = false
      ∧ eventsMap p' = ∅
      ∧ lastEventIdProcessed p' = Num l ∧ Number (ev_id e) = Num n ∧ l < n.
Proof.
  intros Hrest [Hguard|c0 n0 Hc Hid Hlook Htrig Hreq
                |c0 n0 p0 tr0 p1 tr1 Hc Hcid Hid Hp0 Hpost] Heq.
  - apply app_inv_head in Heq. destruct pre as [|a [|b pre]]; discriminate.
  - apply app_inv_head in Heq. destruct pre as [|a [|b pre]]; discriminate.
  - set (q := set_processing true (enqueue (Num n0) event p0)) in *.
    assert (Hpre : cid p0 = c0 ∧ ∃ pre0, tr0 = tr ++ pre0 ∧ Forall (fetch_of c0) pre0).
    { destruct Hp0 as [[Hl ->]|[(_ & _ & -> & ->)|(_ & _ & events & _ & -> & ->)]].
      - specialize (Hrest c0). rewrite Hl in Hrest. destruct Hrest as (-> & _).
        split; [done|]. exists []. now rewrite app_nil_r.
      - split; [done|]. exists []. now rewrite app_nil_r.
      - destruct (scanned_frame event events c0 n0) as (-> & _).
        split; [done|]. eexists. split; [done|]. repeat constructor. }
    destruct Hpre as (Hcp & pre0 & -> & Hpre0).
    assert (Hcq : cid q = c0).
    { change (cid q) with (cid (enqueue (Num n0) event p0)). now rewrite enqueue_cid. }
    destruct (lastEventIdProcessed q) as [|l] eqn:Hl.
    + destruct (pp_NaN _ _ _ _ _ Hpost Hl) as [_ ->].
      apply app_inv_head in Heq. exfalso.
      assert (Hin : Dispatched c e false ∈ pre0).
      { rewrite Heq. apply elem_of_app. right. apply elem_of_cons. now left. }
      rewrite Forall_forall in Hpre0. now apply Hpre0 in Hin.
    + destruct (pp_trace _ _ _ _ _ Hpost l Hl) as (l' & delta & Hl' & -> & Hpass & _).
      rewrite Hcq in Hpass. rewrite <- app_assoc in Heq. apply app_inv_head in Heq.
      assert (Hfull : pass_trace c0 l (pre0 ++ delta) l')
        by now apply pass_trace_fetches.
      destruct (pass_trace_failure _ _ _ _ _ _ _ _ Hfull Heq) as (-> & -> & k & Hk & Hlt).
      split; [done|]. split; [done|].
      exists p1, l', k. rewrite lookup_insert_eq.
      split; [done|]. split; [apply (pp_idle _ _ _ _ _ Hpost)|].
      split; [apply (pp_cleared _ _ _ _ _ Hpost)|]. done.
Qed.

End Failure.

(** Claim C7: when the handler rejects the event [e] during a call of
    [EventsQueue.enqueue], nothing else is done in that call (the rejected
    dispatch is its last action: no retry, no further dispatch or fetch),
    the call resolves, and the processor of the conversation is left idle
    with a last processed id below the id of [e]. *)
Theorem dispatch_failure_contained
    env fuel0 events cidMap tr fuel event out cidMap' tr' pre c e post :
  deliver env fuel0 events ∅ [] = Some (cidMap, tr) →
  EventsQueue_enqueue env fuel event cidMap tr = Some (out, cidMap', tr') →
  tr' = tr ++ pre ++ Dispatched c e false :: post →
  post = [] ∧ out = Resolved
  ∧ ∃ p' l n, cidMap' !! c = Some p' ∧ processing p' = false
      ∧ eventsMap p' = ∅
      ∧ lastEventIdProcessed p' = Num l ∧ Number (ev_id e) = Num n ∧ l < n.
Proof.
  intros Hreach Hrun Heq.
  assert (Hrest : at_rest cidMap tr).
  { eapply deliver_at_rest; [exact Hreach|apply at_rest_empty]. }
  eapply routed_failure; [exact Hrest| |exact Heq].
  eapply EventsQueue_enqueue_routed; [exact Hrun|].
  intros c0 p. now apply (at_rest_wf cidMap tr).
Qed.

Lemma dispatch_failure_contained_witness :
  ∃ cidMap tr out cidMap' tr',
    deliver env_reject_13 5 [text_event 12 "a"] ∅ [] = Some (cidMap, tr)
    ∧ EventsQueue_enqueue env_reject_13 5 (text_event 13 "live") cidMap tr
      = Some (out, cidMap', tr')
    ∧ tr' = tr ++ [] ++ [Dispatched "CON-1" (text_event 13 "live") false]
    ∧ out = Resolved
    ∧ ∃ p' l n, cidMap' !! "CON-1" = Some p' ∧ processing p' = false
        ∧ eventsMap p' = ∅
        ∧ lastEventIdProcessed p' = Num l
        ∧ Number (ev_id (text_event 13 "live")) = Num n ∧ l < n.
Proof.
  eexists _, _, _, _, _.
  split; [vm_compute; reflexivity|].
  split; [vm_compute; reflexivity|].
  split; [vm_compute; reflexivity|].
  eapply proj2.
  eapply (dispatch_failure_contained env_reject_13 5%nat [text_event 12 "a"])
    with (fuel := 5%nat) (event := text_event 13 "live") (pre := []) (post := []);
    vm_compute; reflexivity.
Defined.

(** ** Enqueueing an id twice *)

Lemma processor_eq (p q : ConversationEventsProcessor) :
  cid p = cid q → eventsMap p = eventsMap q →
  lastEventIdProcessed p = lastEventIdProcessed q →
  largestEventIdInQueue p = largestEventIdInQueue q →
  processing p = processing q → eventsFetchRange p = eventsFetchRange q →
  p = q.
Proof. destruct p, q. cbn. now intros -> -> -> -> -> ->. Qed.

Lemma enqueue_twice n e1 e2 p :
  enqueue (Num n) e2 (enqueue (Num n) e1 p) = enqueue (Num n) e2 p.
Proof.
  apply processor_eq.
  - now rewrite !enqueue_cid.
  - rewrite !enqueue_eventsMap, enqueue_last.
    destruct (js_gt (Num n) (lastEventIdProcessed p)); [|done].
    apply insert_insert_eq.
  - now rewrite !enqueue_last.
  - rewrite !enqueue_largest. lia.
  - now rewrite !enqueue_processing.
  - now rewrite !enqueue_range.
Qed.

(** ** Enqueueing an id twice, continued *)

(** Claim C8, refuted as stated.  The id 13 is enqueued twice, with
    different payloads, before it is consumed.  When the event 11 is ahead
    of it and its dispatch fails, the pass ends and clears the buffer: no
    event with id 13 is dispatched.  When the id 11 is missing, the page
    fetched for it holds 13 as well, and the copy of the history replaces
    the buffered event: neither payload is dispatched.  Both happen as well
    when the two events arrive while the handler is busy. *)
Lemma doubled_id_not_dispatched_once :
  summary (processEvents env_reject_11_once 5 p_doubled_behind_11 [])
  = Some (Num 10, 13, ∅, false, [Dispatched "CON-1" (text_event 11 "b") false])
  ∧ summary (processEvents env_page_11_13 7 p_doubled_13 [])
    = Some (Num 13, 13, ∅, false, recovered_up_to_13)
  ∧ (λ m, (actions m, marks_and_keys <$> objects m, calls m))
      <$> run overlapping_doubled Machine_init
    = Some ([Dispatched "CON-1" (text_event 11 "b") false],
            [(Num 10, 13, [], false)],
            [Finished Resolved; Finished Resolved; Finished Resolved])
  ∧ (λ m, (actions m, marks_and_keys <$> objects m, calls m))
      <$> run overlapping_doubled_gap Machine_init
    = Some (Dispatched "CON-1" (text_event 10 "a") true :: recovered_up_to_13,
            [(Num 13, 13, [], false)],
            [Finished Resolved; Finished Resolved; Finished Resolved]).
Proof. repeat split; vm_compute; reflexivity. Qed.

(** Claim C8, amended: [enqueue] raises the largest id seen to the maximum
    with the new id; it stores the event under its id exactly when the id is
    above the last processed one, replacing what was there; enqueueing the
    same id twice leaves the state that enqueueing the second event alone
    leaves.  In the pass that follows no id is handed over twice, an event
    with that id is the second event unless a history fetch of the pass
    supplied it, and the id is delivered unless a dispatch of the pass
    fails; when that id is the next one to process it is dispatched first,
    exactly once, with the second event. *)
Theorem enqueue_last_write_wins :
  (∀ n e p,
     largestEventIdInQueue (enqueue (Num n) e p) = Z.max (largestEventIdInQueue p) n
     ∧ lastEventIdProcessed (enqueue (Num n) e p) = lastEventIdProcessed p
     ∧ eventsMap (enqueue (Num n) e p) =
       match lastEventIdProcessed p with
       | Num l => if l <? n then <[n := e]> (eventsMap p) else eventsMap p
       | NaN => eventsMap p
       end)
  ∧ (∀ n e1 e2 p, enqueue (Num n) e2 (enqueue (Num n) e1 p) = enqueue (Num n) e2 p)
  ∧ (∀ env fuel p tr p' tr' l n e1 e2,
       keys_match p → lastEventIdProcessed p = Num l → l < n →
       Number (ev_id e1) = Num n → Number (ev_id e2) = Num n →
       processEvents env fuel (enqueue (Num n) e2 (enqueue (Num n) e1 p)) tr
       = Some (p', tr') →
       ∃ delta, tr' = tr ++ delta
         ∧ StronglySorted Z.lt (handed (cid p) delta)
         ∧ (∀ c e ok, Dispatched c e ok ∈ delta → Number (ev_id e) = Num n →
                      e = e2 ∨ from_fetch (cid p) delta e)
         ∧ (keys_le_largest p →
            (∃ e, Dispatched (cid p) e false ∈ delta)
            ∨ n ∈ delivered (cid p) delta))
  ∧ (∀ env fuel p tr p' tr' l e1 e2,
       keys_match p → lastEventIdProcessed p = Num l →
       Number (ev_id e1) = Num (l + 1) → Number (ev_id e2) = Num (l + 1) →
       processEvents env fuel
         (enqueue (Num (l + 1)) e2 (enqueue (Num (l + 1)) e1 p)) tr
       = Some (p', tr') →
       ∃ ok rest, tr' = tr ++ Dispatched (cid p) e2 ok :: rest
                  ∧ handed (cid p) (Dispatched (cid p) e2 ok :: rest)
                    = (l + 1) :: handed (cid p) rest
                  ∧ (l + 1) ∉ handed (cid p) rest).
Proof.
  split; [|split; [|split]].
  - intros n e p. rewrite enqueue_largest, enqueue_last, enqueue_eventsMap.
    split; [done|]. split; [done|]. now destruct (lastEventIdProcessed p).
  - intros n e1 e2 p. apply enqueue_twice.
  - intros env fuel p tr p' tr' l n e1 e2 Hk Hl Hln Hid1 Hid2 Hrun.
    rewrite enqueue_twice in Hrun.
    assert (Hkq : keys_match (enqueue (Num n) e2 p)) by now apply enqueue_keys_match.
    assert (Hn : eventsMap (enqueue (Num n) e2 p) !! n = Some e2).
    { rewrite enqueue_eventsMap, Hl.
      assert (js_gt (Num n) (Num l) = true) as -> by now apply js_gt_Num.
      apply lookup_insert_eq. }
    pose proof (processEvents_sourced env fuel _ _ _ _ Hrun) as (delta & -> & Hsrc).
    exists delta. split; [done|].
    pose proof Hrun as Hpost.
    apply processEvents_spec in Hpost; [|done].
    destruct (pp_trace _ _ _ _ _ Hpost l) as (l' & delta' & _ & Heq & Hpass & _);
      [now rewrite enqueue_last|].
    apply app_inv_head in Heq. subst delta'. rewrite enqueue_cid in *.
    split; [|split].
    + apply pass_trace_handed in Hpass. now apply StronglySorted_inv in Hpass as [? _].
    + intros c e ok Hin Hid.
      destruct (Hsrc c e ok Hin) as [[k Hx]|Hx];
        [left|right; now rewrite enqueue_cid in Hx].
      pose proof (Hkq k e Hx) as Hidk. rewrite Hid in Hidk. injection Hidk as <-.
      congruence.
    + intros Hle.
      destruct (processEvents_onward env fuel _ tr p' _ l Hrun Hkq
                  (enqueue_keys_le n e2 p Hle))
        as (delta0 & Heq & Hall); [now rewrite enqueue_last|].
      apply app_inv_head in Heq. subst delta0. rewrite enqueue_cid in Hall.
      destruct Hall as [Hfail|Hall]; [now left|right].
      apply Hall; [done|]. rewrite Hn. eauto.
  - intros env fuel p tr p' tr' l e1 e2 Hk Hl Hid1 Hid2 Hrun.
    rewrite enqueue_twice in Hrun.
    eapply (processEvents_first env _ _ _ _ _ l e2) in Hrun.
    + destruct Hrun as (ok & rest & -> & Hs). rewrite enqueue_cid in *.
      exists ok, rest. split; [done|].
      split; [now rewrite handed_cons, (handed_id_same _ _ _ _ Hid2)|].
      apply StronglySorted_inv in Hs as [_ Hall]. rewrite Forall_forall in Hall.
      intros Hin. apply Hall in Hin. lia.
    + now apply enqueue_keys_match.
    + now rewrite enqueue_last.
    + rewrite enqueue_eventsMap, Hl.
      assert (js_gt (Num (l + 1)) (Num l) = true) as -> by (apply js_gt_Num; lia).
      apply lookup_insert_eq.
Qed.

Lemma enqueue_last_write_wins_witness :
  ∃ p' tr',
    processEvents env_retry 5
      (enqueue (Num (10 + 1)) (text_event 11 "second")
         (enqueue (Num (10 + 1)) (text_event 11 "first")
            (set_processing true (new_processor "CON-1" 10)))) []
    = Some (p', tr')
    ∧ ∃ ok rest,
        tr' = [] ++ Dispatched "CON-1" (text_event 11 "second") ok :: rest
        ∧ handed "CON-1" (Dispatched "CON-1" (text_event 11 "second") ok :: rest)
          = (10 + 1) :: handed "CON-1" rest
        ∧ (10 + 1) ∉ handed "CON-1" rest.
Proof.
  eexists _, _. split; [vm_compute; reflexivity|].
  eapply (proj2 (proj2 (proj2 enqueue_last_write_wins)) env_retry 5%nat
            (set_processing true (new_processor "CON-1" 10)) [])
    with (e1 := text_event 11 "first");
    [|reflexivity|reflexivity|reflexivity|vm_compute; reflexivity].
  intros k x Hx. cbn in Hx. now rewrite lookup_empty in Hx.
Defined.

(** ** Events outside any sequence *)

Section Bypass.

Context (env : Environment).

Lemma routed_not_forwarded event cidMap tr out cidMap' tr' :
  routed env event cidMap tr out cidMap' tr' →
  truthy (ev_cid event) = true → Number (ev_id event) ≠ NaN →
  ∃ delta, tr' = tr ++ delta ∧ ∀ e ok, Forwarded e ok ∉ delta.
Proof.
  intros [Hguard|c n Hc Hid Hlook Htrig Hreq|c n p0 tr0 p1 tr1 Hc Hcid Hid Hp0 Hpost]
    Htruthy Hnum.
  - rewrite Htruthy in Hguard. cbn in Hguard.
    destruct (Number (ev_id event)); [done|discriminate].
  - eexists. split; [done|]. intros e ok Hin.
    now apply list_elem_of_singleton in Hin.
  - assert (Hpre : ∃ pre, tr0 = tr ++ pre ∧ ∀ e ok, Forwarded e ok ∉ pre).
    { destruct Hp0 as [[_ ->]|[(_ & _ & _ & ->)|(_ & _ & events & _ & _ & ->)]].
      - exists []. split; [now rewrite app_nil_r|]. intros e ok. apply not_elem_of_nil.
      - exists []. split; [now rewrite app_nil_r|]. intros e ok. apply not_elem_of_nil.
      - eexists. split; [done|]. intros e ok Hin.
        now apply list_elem_of_singleton in Hin. }
    destruct Hpre as (pre & -> & Hpre).
    set (q := set_processing true (enqueue (Num n) event p0)) in *.
    destruct (lastEventIdProcessed q) as [|l] eqn:Hl.
    + destruct (pp_NaN _ _ _ _ _ Hpost Hl) as [_ ->]. eauto.
    + destruct (pp_trace _ _ _ _ _ Hpost l Hl) as (l' & delta & _ & -> & Hpass & _).
      exists (pre ++ delta). split; [now rewrite app_assoc|].
      intros e ok Hin. apply elem_of_app in Hin as [Hin|Hin].
      * now apply Hpre in Hin.
      * now apply (pass_trace_not_forwarded _ _ _ _ e ok Hpass).
Qed.

End Bypass.

(** Property X26: an event whose [cid] is missing or empty, or whose id
    [Number] turns into [NaN], is handed to the callback of the queue exactly
    once and at once, the outcome of the call is the outcome of the callback,
    and [cidMap] is unchanged; any other event is never handed to that
    callback. *)
Theorem bypass_forwards_once env fuel event cidMap tr :
  (truthy (ev_cid event) = false ∨ Number (ev_id event) = NaN →
   EventsQueue_enqueue env fuel event cidMap tr =
   Some (if queue_callback env tr event then Resolved else Rejected, cidMap,
         tr ++ [Forwarded event (queue_callback env tr event)]))
  ∧ (at_rest cidMap tr → truthy (ev_cid event) = true →
     Number (ev_id event) ≠ NaN →
     ∀ out cidMap' tr',
       EventsQueue_enqueue env fuel event cidMap tr = Some (out, cidMap', tr') →
       ∃ delta, tr' = tr ++ delta ∧ ∀ e ok, Forwarded e ok ∉ delta).
Proof.
  split.
  - intros Hbypass. unfold EventsQueue_enqueue.
    assert (negb (truthy (ev_cid event)) || isNaN (Number (ev_id event)) = true) as ->.
    { destruct Hbypass as [->| ->]; [done|]. apply orb_true_r. }
    reflexivity.
  - intros Hrest Htruthy Hnum out cidMap' tr' Hrun.
    eapply routed_not_forwarded; [|done|done].
    eapply EventsQueue_enqueue_routed; [exact Hrun|].
    intros c p. now apply (at_rest_wf cidMap tr).
Qed.

Lemma bypass_forwards_once_witness :
  (truthy (ev_cid no_cid_event) = false ∨ Number (ev_id no_cid_event) = NaN)
  ∧ EventsQueue_enqueue env_accept 0 no_cid_event ∅ [] =
    Some (if queue_callback env_accept [] no_cid_event then Resolved else Rejected,
          ∅, [] ++ [Forwarded no_cid_event (queue_callback env_accept [] no_cid_event)]).
Proof.
  split; [left; reflexivity|].
  apply (proj1 (bypass_forwards_once env_accept 0%nat no_cid_event ∅ [])). left. reflexivity.
Defined.

(** ** The buffer after a pass *)

Section Cleared.

Context (env : Environment).


End Cleared.



(** * Further properties *)

(** Projections of updated processors, without unfolding [enqueue]. *)
Ltac fields :=
  unfold doneProcessing, set_processing, set_eventsMap,
    set_lastEventIdProcessed, set_largestEventIdInQueue;
  cbn [cid eventsMap lastEventIdProcessed largestEventIdInQueue processing
       eventsFetchRange].

(** ** Events that are dispatched at once *)

Section Alone.

Context (env : Environment).

(** The buffer holds the next id and nothing else. *)
Lemma processEvents_single fuel p tr l e :
  lastEventIdProcessed p = Num l → eventsMap p = {[ l + 1 := e ]} →
  processEvents env (S (S fuel)) p tr =
  Some (doneProcessing
          (if handleEvent env tr e
           then set_lastEventIdProcessed (Number (ev_id e)) p else p),
        tr ++ [Dispatched (cid p) e (handleEvent env tr e)]).
Proof.
  intros Hl Hmap.
  assert (Hlook : eventsMap p !! (l + 1) = Some e).
  { rewrite Hmap. apply lookup_singleton_eq. }
  destruct (handleEvent env tr e) eqn:Hok.
  - rewrite (processEvents_buffered env fuel p tr l e Hl Hlook Hok).
    rewrite processEvents_empty.
    + reflexivity.
    + cbn. rewrite Hmap. apply delete_singleton_eq.
  - now rewrite (processEvents_failed env fuel p tr l e Hl Hlook Hok).
Qed.

Lemma enqueue_and_process_next fuel c n event p cidMap tr :
  Number (ev_id event) = Num n → eventsMap p = ∅ → processing p = false →
  lastEventIdProcessed p = Num (n - 1) →
  enqueue_and_process env (S (S fuel)) c n event p cidMap tr =
  Some (Resolved, <[c := settled p n (handleEvent env tr event)]> cidMap,
        tr ++ [Dispatched (cid p) event (handleEvent env tr event)]).
Proof.
  intros Hid Hmap Hidle Hl. unfold enqueue_and_process.
  rewrite enqueue_processing, Hidle. cbn [negb].
  set (q := set_processing true (enqueue (Num n) event p)).
  assert (Hql : lastEventIdProcessed q = Num (n - 1)).
  { unfold q. fields. now rewrite enqueue_last. }
  assert (Hqm : eventsMap q = {[ n - 1 + 1 := event ]}).
  { unfold q. fields. rewrite enqueue_eventsMap, Hl, Hmap.
    replace (js_gt (Num n) (Num (n - 1))) with true
      by (symmetry; apply js_gt_Num; lia).
    replace (n - 1 + 1) with n by lia. apply insert_empty. }
  rewrite (processEvents_single fuel q tr (n - 1) event Hql Hqm).
  assert (Hqc : cid q = cid p) by (unfold q; fields; apply enqueue_cid).
  rewrite Hqc. f_equal. f_equal. f_equal. f_equal.
  unfold settled, q. apply processor_eq.
  - destruct (handleEvent env tr event); fields; apply enqueue_cid.
  - destruct (handleEvent env tr event); reflexivity.
  - destruct (handleEvent env tr event); fields; [done|]. now rewrite enqueue_last.
  - destruct (handleEvent env tr event); fields; apply enqueue_largest.
  - destruct (handleEvent env tr event); reflexivity.
  - destruct (handleEvent env tr event); fields; apply enqueue_range.
Qed.

Lemma enqueue_and_process_stale fuel c n event p cidMap tr l :
  eventsMap p = ∅ → processing p = false →
  lastEventIdProcessed p = Num l → n ≤ l →
  enqueue_and_process env (S fuel) c n event p cidMap tr =
  Some (Resolved,
        <[c := set_largestEventIdInQueue (Z.max (largestEventIdInQueue p) n) p]> cidMap,
        tr).
Proof.
  intros Hmap Hidle Hl Hle. unfold enqueue_and_process.
  rewrite enqueue_processing, Hidle. cbn [negb].
  rewrite processEvents_empty.
  - f_equal. f_equal. f_equal. f_equal. apply processor_eq; fields.
    + apply enqueue_cid.
    + now rewrite Hmap.
    + apply enqueue_last.
    + apply enqueue_largest.
    + now rewrite Hidle.
    + apply enqueue_range.
  - fields. rewrite enqueue_eventsMap, Hl.
    replace (js_gt (Num n) (Num l)) with false
      by (symmetry; apply js_gt_Num_false; lia).
    done.
Qed.

End Alone.






(** Property X3: an event that carries the id right after the last processed
    one of its idle conversation is dispatched at once, without any history
    request, and the last processed id advances to it when the handler
    succeeds. *)
Theorem next_event_dispatched env fuel event cidMap tr c n p :
  ev_cid event = Some c → truthy (Some c) = true →
  Number (ev_id event) = Num n → cidMap !! c = Some p →
  eventsMap p = ∅ → processing p = false →
  lastEventIdProcessed p = Num (n - 1) →
  EventsQueue_enqueue env (S (S fuel)) event cidMap tr =
  Some (Resolved, <[c := settled p n (handleEvent env tr event)]> cidMap,
        tr ++ [Dispatched (cid p) event (handleEvent env tr event)]).
Proof.
  intros Hc Hcid Hid Hlook Hmap Hidle Hl. unfold EventsQueue_enqueue.
  rewrite Hc, Hcid, Hid, Hlook. cbn [negb orb isNaN].
  now apply enqueue_and_process_next.
Qed.

Lemma next_event_dispatched_witness :
  EventsQueue_enqueue env_accept 2 (text_event 8 "next")
    {[ "CON-1"%string := new_processor "CON-1" 7 ]} [] =
  Some (Resolved,
        <[("CON-1"%string) :=
            settled (new_processor "CON-1" 7) 8
              (handleEvent env_accept [] (text_event 8 "next"))]>
          {[ "CON-1"%string := new_processor "CON-1" 7 ]},
        [] ++ [Dispatched (cid (new_processor "CON-1" 7)) (text_event 8 "next")
                 (handleEvent env_accept [] (text_event 8 "next"))]).
Proof.
  apply (next_event_dispatched env_accept 0%nat (text_event 8 "next")
           {[ "CON-1"%string := new_processor "CON-1" 7 ]} [] "CON-1" 8
           (new_processor "CON-1" 7)); reflexivity.
Defined.

(** ** An event whose id is null *)

(** Claim C9, at its failing input: an event that has a conversation id and
    whose id is [null] has no valid integer id, yet it is not forwarded to
    the callback of the queue, because [Number(null)] is 0.  When its
    conversation has no processor (and the event does not trigger the
    lookback), a processor is created with last processed id -1 and the
    event is dispatched by the drain loop under the id 0.  When its
    conversation has an idle processor whose last processed id is 0 or
    more, the call resolves without handing the event to anyone. *)
Theorem null_id_is_not_forwarded env fuel event cidMap tr c :
  ev_id event = IdNull → ev_cid event = Some c → truthy (Some c) = true →
  valid_integer_id (ev_id event) = false
  ∧ (cidMap !! c = None → is_transfer_trigger event = false →
     EventsQueue_enqueue env (S (S fuel)) event cidMap tr =
     Some (Resolved,
           <[c := mkProcessor c ∅
                    (if handleEvent env tr event then Num 0 else Num (-1))
                    0 false 9]> cidMap,
           tr ++ [Dispatched c event (handleEvent env tr event)]))
  ∧ (∀ p l,
       cidMap !! c = Some p → eventsMap p = ∅ → processing p = false →
       lastEventIdProcessed p = Num l → 0 ≤ l →
       EventsQueue_enqueue env (S fuel) event cidMap tr =
       Some (Resolved,
             <[c := set_largestEventIdInQueue
                      (Z.max (largestEventIdInQueue p) 0) p]> cidMap,
             tr)).
Proof.
  intros Hid Hc Hcid.
  assert (Hnum : Number (ev_id event) = Num 0) by now rewrite Hid.
  split; [now rewrite Hid|]. split.
  - intros Hlook Htrig. unfold EventsQueue_enqueue.
    rewrite Hc, Hcid, Hnum, Hlook, Htrig. cbn [negb orb isNaN].
    rewrite (enqueue_and_process_next env fuel c 0 event) by done.
    rewrite insert_insert_eq. unfold settled. cbn.
    now destruct (handleEvent env tr event).
  - intros p l Hlook Hmap Hidle Hl Hle. unfold EventsQueue_enqueue.
    rewrite Hc, Hcid, Hnum, Hlook. cbn [negb orb isNaN].
    now apply (enqueue_and_process_stale env fuel c 0 event p cidMap tr l).
Qed.

Lemma null_id_is_not_forwarded_witness :
  EventsQueue_enqueue env_accept 2 null_id_event ∅ [] =
  Some (Resolved,
        <[("CON-1"%string) := mkProcessor "CON-1" ∅
                 (if handleEvent env_accept [] null_id_event
                  then Num 0 else Num (-1))
                 0 false 9]> ∅,
        [] ++ [Dispatched "CON-1" null_id_event
                 (handleEvent env_accept [] null_id_event)])
  ∧ EventsQueue_enqueue env_accept 1 null_id_event
      {[ "CON-1"%string := mkProcessor "CON-1" ∅ (Num 10) 10 false 9 ]}
      [Dispatched "CON-1" (text_event 10 "a") true] =
    Some (Resolved,
          <[("CON-1"%string) :=
              set_largestEventIdInQueue
                (Z.max (largestEventIdInQueue
                          (mkProcessor "CON-1" ∅ (Num 10) 10 false 9)) 0)
                (mkProcessor "CON-1" ∅ (Num 10) 10 false 9)]>
            {[ "CON-1"%string := mkProcessor "CON-1" ∅ (Num 10) 10 false 9 ]},
          [Dispatched "CON-1" (text_event 10 "a") true]).
Proof.
  split.
  - apply (null_id_is_not_forwarded env_accept 0%nat null_id_event ∅ [] "CON-1");
      reflexivity.
  - apply (null_id_is_not_forwarded env_accept 0%nat null_id_event
             {[ "CON-1"%string := mkProcessor "CON-1" ∅ (Num 10) 10 false 9 ]}
             [Dispatched "CON-1" (text_event 10 "a") true] "CON-1"
             eq_refl eq_refl eq_refl) with (l := 10);
      first [reflexivity|lia].
Defined.

(** ** Calls that are rejected *)

Section Rejection.

Context (env : Environment).

Lemma enqueue_and_process_resolved fuel c n event p cidMap tr out cidMap' tr' :
  enqueue_and_process env fuel c n event p cidMap tr = Some (out, cidMap', tr') →
  out = Resolved.
Proof.
  unfold enqueue_and_process. intros Hrun.
  destruct (negb _); [|congruence].
  destruct (processEvents env fuel _ tr) as [[p' tr1]|]; congruence.
Qed.

End Rejection.

(** Property X5: a call of [EventsQueue.enqueue] is rejected in two cases
    only: the callback of the queue rejected an event that bypasses the
    sequencing, or the history request of the lookback failed. In both cases
    [cidMap] is left as it was; a failure of the handler or of a history
    request of the drain loop never rejects the call. *)
Theorem rejected_calls env fuel event cidMap tr cidMap' tr' :
  EventsQueue_enqueue env fuel event cidMap tr = Some (Rejected, cidMap', tr') →
  cidMap' = cidMap
  ∧ (tr' = tr ++ [Forwarded event false]
     ∨ ∃ c n, ev_cid event = Some c ∧ Number (ev_id event) = Num n
         ∧ cidMap !! c = None ∧ is_transfer_trigger event = true
         ∧ tr' = tr ++ [Fetched c (lookback_start n) (lookback_end n) None]).
Proof.
  unfold EventsQueue_enqueue. intros Hrun.
  assert (Hfwd : ∀ out,
    Some (if queue_callback env tr event then Resolved else Rejected, cidMap,
          tr ++ [Forwarded event (queue_callback env tr event)])
    = Some (out, cidMap', tr') → out = Rejected →
    cidMap' = cidMap ∧ tr' = tr ++ [Forwarded event false]).
  { intros out H Hout. destruct (queue_callback env tr event);
      injection H as <- <- <-; [discriminate|done]. }
  destruct (negb (truthy (ev_cid event)) || isNaN (Number (ev_id event))).
  { destruct (Hfwd _ Hrun eq_refl) as [-> ->]. auto. }
  destruct (ev_cid event) as [c|] eqn:Hc;
    [|destruct (Hfwd _ Hrun eq_refl) as [-> ->]; auto].
  destruct (Number (ev_id event)) as [|n] eqn:Hid;
    [destruct (Hfwd _ Hrun eq_refl) as [-> ->]; auto|].
  destruct (cidMap !! c) as [p|] eqn:Hlook.
  { now apply enqueue_and_process_resolved in Hrun. }
  destruct (is_transfer_trigger event) eqn:Htrig.
  - cbv zeta in Hrun. fold (lookback_start n) in Hrun.
    rewrite fetch_lookback in Hrun.
    destruct (paginationRequest env tr c (lookback_start n) (lookback_end n))
      as [events|] eqn:Hreq.
    + destruct (fold_left _ events _) as [found p].
      now apply enqueue_and_process_resolved in Hrun.
    + injection Hrun as <- <-. split; [done|]. right. exists c, n. done.
  - now apply enqueue_and_process_resolved in Hrun.
Qed.

Lemma rejected_calls_witness :
  (∅ : gmap string ConversationEventsProcessor) = ∅
  ∧ ([Fetched "CON-1" 1 29 None] = [] ++ [Forwarded (joined_event 10) false]
     ∨ ∃ c n, ev_cid (joined_event 10) = Some c
         ∧ Number (ev_id (joined_event 10)) = Num n
         ∧ (∅ : gmap string ConversationEventsProcessor) !! c = None
         ∧ is_transfer_trigger (joined_event 10) = true
         ∧ [Fetched "CON-1" 1 29 None]
           = [] ++ [Fetched c (lookback_start n) (lookback_end n) None]).
Proof.
  apply (rejected_calls env_retry 0%nat (joined_event 10) ∅ [] ∅
           [Fetched "CON-1" 1 29 None]).
  vm_compute. reflexivity.
Defined.

(** ** One conversation at a time *)

Lemma concerns_other c c' a : concerns c a = true → c' ≠ c → concerns c' a = false.
Proof.
  destruct a as [e ok|c0 e ok|c0 s t items]; cbn; [done|..];
    intros Hc Hne; apply String.eqb_eq in Hc; subst c0;
    now apply String.eqb_neq.
Qed.

Section Concerns.

Context (env : Environment).

Lemma processNextEvent_concerns fuel n p tr r p' tr' :
  processNextEvent env fuel (Num n) p tr = Some (r, p', tr') →
  cid p' = cid p
  ∧ ∃ delta, tr' = tr ++ delta ∧ Forall (λ a, concerns (cid p) a = true) delta.
Proof.
  revert fuel n p tr r p' tr'.
  apply (processNextEvent_cases env
           (λ n p tr r p' tr',
              cid p' = cid p
              ∧ ∃ delta, tr' = tr ++ delta
                  ∧ Forall (λ a, concerns (cid p) a = true) delta)).
  - intros n p tr e Hlook. split; [done|]. eexists. split; [done|].
    constructor; [|constructor]. cbn. apply String.eqb_refl.
  - intros n p tr _ _. split; [done|]. exists []. now rewrite app_nil_r.
  - intros n p tr e p1 tr1 _ _ Hfetch.
    apply fetchEventsAndProcess_spec in Hfetch as (-> & Hm & _).
    rewrite (mg_cid _ _ _ _ Hm). split; [done|].
    eexists. split; [now rewrite <- app_assoc|].
    repeat constructor; cbn; apply String.eqb_refl.
  - intros n p tr p1 tr1 r p' tr' _ _ Hfetch (Hc & delta & -> & Hall).
    apply fetchEventsAndProcess_spec in Hfetch as (-> & Hm & _).
    rewrite (mg_cid _ _ _ _ Hm) in *. split; [done|].
    eexists. split; [now rewrite <- app_assoc|].
    constructor; [cbn; apply String.eqb_refl|done].
Qed.

Lemma processEvents_concerns fuel : ∀ p tr p' tr',
  processEvents env fuel p tr = Some (p', tr') →
  cid p' = cid p
  ∧ ∃ delta, tr' = tr ++ delta ∧ Forall (λ a, concerns (cid p) a = true) delta.
Proof.
  induction fuel as [|fuel IH]; intros p tr p' tr' Hrun; [discriminate|].
  assert (Hdone : cid (doneProcessing p) = cid p
            ∧ ∃ delta, tr = tr ++ delta
                ∧ Forall (λ a, concerns (cid p) a = true) delta).
  { split; [done|]. exists []. now rewrite app_nil_r. }
  cbn [processEvents] in Hrun.
  destruct (size (eventsMap p) <? 1)%nat; [now injection Hrun as <- <-|].
  destruct (lastEventIdProcessed p) as [|l]; cbn [js_add] in Hrun.
  { destruct fuel as [|fuel]; [discriminate|].
    rewrite processNextEvent_NaN in Hrun. now injection Hrun as <- <-. }
  destruct (processNextEvent env fuel (Num (l + 1)) p tr)
    as [[[r p1] tr1]|] eqn:Hnext; [|discriminate].
  apply processNextEvent_concerns in Hnext as (Hc1 & d1 & -> & Hd1).
  destruct r as [e|].
  - apply IH in Hrun as (Hc2 & d2 & -> & Hd2). cbn in Hc2, Hd2.
    rewrite Hc1 in Hc2, Hd2. split; [done|].
    exists (d1 ++ d2). split; [now rewrite app_assoc|]. now apply Forall_app.
  - injection Hrun as <- <-. split; [done|]. eauto.
Qed.

Lemma enqueue_and_process_concerns fuel c n event p cidMap tr out cidMap' tr' :
  enqueue_and_process env fuel c n event p cidMap tr = Some (out, cidMap', tr') →
  ∃ p' delta, cidMap' = <[c := p']> cidMap ∧ tr' = tr ++ delta
    ∧ Forall (λ a, concerns (cid p) a = true) delta.
Proof.
  unfold enqueue_and_process. intros Hrun.
  destruct (negb _).
  - destruct (processEvents env fuel _ tr) as [[p' tr1]|] eqn:Hpass; [|discriminate].
    injection Hrun as <- <- <-.
    apply processEvents_concerns in Hpass as (_ & delta & -> & Hall).
    change (cid (set_processing true (enqueue (Num n) event p)))
      with (cid (enqueue (Num n) event p)) in Hall.
    rewrite enqueue_cid in Hall. eauto.
  - injection Hrun as <- <- <-. exists (enqueue (Num n) event p), [].
    now rewrite app_nil_r.
Qed.

End Concerns.

(** Property X6: a call of [EventsQueue.enqueue] for an event of conversation
    [c] leaves the processor of every other conversation as it was, and
    neither dispatches an event nor requests the history for another
    conversation. *)
Theorem other_conversations_untouched
    env fuel0 events cidMap tr fuel event out cidMap' tr' c :
  deliver env fuel0 events ∅ [] = Some (cidMap, tr) →
  ev_cid event = Some c →
  EventsQueue_enqueue env fuel event cidMap tr = Some (out, cidMap', tr') →
  ∃ delta, tr' = tr ++ delta
    ∧ ∀ c', c' ≠ c →
        cidMap' !! c' = cidMap !! c'
        ∧ Forall (λ a, concerns c' a = false) delta.
Proof.
  intros Hreach Hc Hrun.
  assert (Hrest : at_rest cidMap tr).
  { eapply deliver_at_rest; [exact Hreach|apply at_rest_empty]. }
  unfold EventsQueue_enqueue in Hrun. rewrite Hc in Hrun.
  assert (Hfwd :
    Some (if queue_callback env tr event then Resolved else Rejected, cidMap,
          tr ++ [Forwarded event (queue_callback env tr event)])
    = Some (out, cidMap', tr') →
    ∃ delta, tr' = tr ++ delta
      ∧ ∀ c', c' ≠ c →
          cidMap' !! c' = cidMap !! c'
          ∧ Forall (λ a, concerns c' a = false) delta).
  { intros H. injection H as <- <- <-. eexists. split; [done|].
    intros c' _. split; [done|]. now repeat constructor. }
  assert (Hseq : ∀ p (m : gmap string ConversationEventsProcessor) pre n,
    cid p = c → (∀ c', c' ≠ c → m !! c' = cidMap !! c') →
    Forall (λ a, concerns c a = true) pre →
    enqueue_and_process env fuel c n event p m (tr ++ pre)
    = Some (out, cidMap', tr') →
    ∃ delta, tr' = tr ++ delta
      ∧ ∀ c', c' ≠ c →
          cidMap' !! c' = cidMap !! c'
          ∧ Forall (λ a, concerns c' a = false) delta).
  { intros p m pre n Hcp Hm Hpre H.
    apply enqueue_and_process_concerns in H as (p' & delta & -> & -> & Hall).
    rewrite Hcp in Hall.
    exists (pre ++ delta). split; [now rewrite app_assoc|].
    intros c' Hne. split.
    - rewrite lookup_insert_ne by done. now apply Hm.
    - apply Forall_app. split; (eapply Forall_impl; [eassumption|]);
        intros a Ha; now apply (concerns_other c). }
  destruct (negb (truthy (Some c)) || isNaN (Number (ev_id event))); [auto|].
  destruct (Number (ev_id event)) as [|n] eqn:Hid; [auto|].
  destruct (cidMap !! c) as [p|] eqn:Hlook.
  - pose proof (Hrest c) as Hp. rewrite Hlook in Hp. destruct Hp as (Hcp & _).
    apply (Hseq p cidMap [] n); [done|done|constructor|].
    now rewrite app_nil_r.
  - destruct (is_transfer_trigger event).
    + cbv zeta in Hrun. fold (lookback_start n) in Hrun.
      rewrite fetch_lookback in Hrun.
      destruct (paginationRequest env tr c (lookback_start n) (lookback_end n))
        as [page|] eqn:Hreq.
      * destruct (fold_left _ page _) as [found p] eqn:Hscan.
        apply scan_fold_frame in Hscan as (Hcp & _).
        apply (Hseq p (<[c := p]> cidMap)
                 [Fetched c (lookback_start n) (lookback_end n) (Some page)] n);
          [done| | |exact Hrun].
        -- intros c' Hne. now rewrite lookup_insert_ne.
        -- repeat constructor. cbn. apply String.eqb_refl.
      * injection Hrun as <- <- <-. eexists. split; [done|].
        intros c' Hne. split; [done|]. repeat constructor. cbn.
        apply String.eqb_neq. done.
    + apply (Hseq (new_processor c (n - 1))
               (<[c := new_processor c (n - 1)]> cidMap) [] n);
        [done| |constructor|now rewrite app_nil_r].
      intros c' Hne. now rewrite lookup_insert_ne.
Qed.

Lemma other_conversations_untouched_witness :
  ∃ delta,
    [Dispatched "CON-1" (text_event 7 "a") true;
     Dispatched "CON-1" (text_event 8 "b") true]
    = [Dispatched "CON-1" (text_event 7 "a") true] ++ delta
    ∧ ∀ c', c' ≠ "CON-1"%string →
        ({[ "CON-1"%string := mkProcessor "CON-1" ∅ (Num 8) 8 false 9 ]}
           : gmap string ConversationEventsProcessor) !! c'
        = ({[ "CON-1"%string := mkProcessor "CON-1" ∅ (Num 7) 7 false 9 ]}
             : gmap string ConversationEventsProcessor) !! c'
        ∧ Forall (λ a, concerns c' a = false) delta.
Proof.
  apply (other_conversations_untouched env_accept 3%nat [text_event 7 "a"]
           {[ "CON-1"%string := mkProcessor "CON-1" ∅ (Num 7) 7 false 9 ]}
           [Dispatched "CON-1" (text_event 7 "a") true]
           3%nat (text_event 8 "b") Resolved
           {[ "CON-1"%string := mkProcessor "CON-1" ∅ (Num 8) 8 false 9 ]}
           [Dispatched "CON-1" (text_event 7 "a") true;
            Dispatched "CON-1" (text_event 8 "b") true] "CON-1");
    [vm_compute; reflexivity|reflexivity|vm_compute; reflexivity].
Defined.

(** ** The marks never go back *)

Lemma not_behind_refl p : not_behind p p.
Proof. split; [lia|]. destruct (lastEventIdProcessed p) as [|l]; eauto with lia. Qed.

Lemma not_behind_trans p1 p2 p3 :
  not_behind p1 p2 → not_behind p2 p3 → not_behind p1 p3.
Proof.
  intros [H1 H1'] [H2 H2']. split; [lia|].
  destruct (lastEventIdProcessed p1) as [|l1].
  - now rewrite H1' in H2'.
  - destruct H1' as (l2 & Hl2 & ?). rewrite Hl2 in H2'.
    destruct H2' as (l3 & Hl3 & ?). exists l3. split; [done|lia].
Qed.

Section Marks.

Context (env : Environment).

Lemma routed_not_behind event cidMap tr out cidMap' tr' c p :
  routed env event cidMap tr out cidMap' tr' → cidMap !! c = Some p →
  ∃ p', cidMap' !! c = Some p' ∧ not_behind p p'.
Proof.
  intros [Hguard|c0 n Hc Hid Hlook Htrig Hreq
          |c0 n p0 tr0 p1 tr1 Hc Hcid Hid Hp0 Hpost] Hp.
  - exists p. split; [done|apply not_behind_refl].
  - exists p. split; [done|apply not_behind_refl].
  - destruct (decide (c = c0)) as [->|Hne].
    + rewrite lookup_insert_eq. exists p1. split; [done|].
      destruct Hp0 as [[Hl _]|[(Hl & _)|(Hl & _)]]; [|congruence..].
      assert (p0 = p) as -> by congruence.
      set (q := set_processing true (enqueue (Num n) event p)) in *.
      assert (Hlq : lastEventIdProcessed q = lastEventIdProcessed p).
      { unfold q. fields. apply enqueue_last. }
      assert (Hgq : largestEventIdInQueue q = Z.max (largestEventIdInQueue p) n).
      { unfold q. fields. apply enqueue_largest. }
      split.
      * pose proof (pp_largest _ _ _ _ _ Hpost). lia.
      * destruct (lastEventIdProcessed p) as [|l] eqn:Hlp.
        -- now destruct (pp_NaN _ _ _ _ _ Hpost Hlq).
        -- destruct (pp_trace _ _ _ _ _ Hpost l Hlq)
             as (l' & delta & Hl' & _ & Hpass & _).
           exists l'. split; [done|]. exact (pass_trace_le _ _ _ _ Hpass).
    + rewrite lookup_insert_ne by done. exists p. split; [done|apply not_behind_refl].
Qed.

Lemma deliver_not_behind fuel events : ∀ cidMap tr cidMap' tr' c p,
  at_rest cidMap tr →
  deliver env fuel events cidMap tr = Some (cidMap', tr') →
  cidMap !! c = Some p →
  ∃ p', cidMap' !! c = Some p' ∧ not_behind p p'.
Proof.
  induction events as [|event events IH]; intros cidMap tr cidMap' tr' c p Hrest Hrun Hp.
  - injection Hrun as <- <-. exists p. split; [done|apply not_behind_refl].
  - cbn [deliver] in Hrun.
    destruct (EventsQueue_enqueue env fuel event cidMap tr)
      as [[[out cidMap1] tr1]|] eqn:Hstep; [|discriminate].
    assert (Hrt : routed env event cidMap tr out cidMap1 tr1).
    { eapply EventsQueue_enqueue_routed; [exact Hstep|].
      intros c0 p0. now apply (at_rest_wf cidMap tr). }
    destruct (routed_not_behind _ _ _ _ _ _ c p Hrt Hp) as (p1 & Hp1 & Hb1).
    destruct (IH cidMap1 tr1 cidMap' tr' c p1) as (p' & Hp' & Hb');
      [eapply routed_at_rest; eauto|done|done|].
    exists p'. split; [done|]. eapply not_behind_trans; eauto.
Qed.

End Marks.

(** ** Where the events of a call come from *)



Section Sources.

Context (env : Environment).


End Sources.



(** ** A handler that accepts every event *)

Section Accepting.

Context (env : Environment).
Hypothesis Haccept : ∀ tr e, handleEvent env tr e = true.

Lemma processNextEvent_accepting fuel n p tr r p' tr' :
  processNextEvent env fuel (Num n) p tr = Some (r, p', tr') →
  (∀ j, is_Some (eventsMap p !! j) → n ≤ j) →
  keys_match p → keys_le_largest p →
  match r with
  | Some e => ∃ k, Number (ev_id e) = Num k
      ∧ ∀ j, is_Some (eventsMap p !! j) → j = k ∨ is_Some (eventsMap p' !! j)
  | None => ∀ j, ¬ is_Some (eventsMap p !! j)
  end.
Proof.
  revert fuel n p tr r p' tr'.
  apply (processNextEvent_cases env
           (λ n p tr r p' tr',
              (∀ j, is_Some (eventsMap p !! j) → n ≤ j) →
              keys_match p → keys_le_largest p →
              match r with
              | Some e => ∃ k, Number (ev_id e) = Num k
                  ∧ ∀ j, is_Some (eventsMap p !! j) →
                         j = k ∨ is_Some (eventsMap p' !! j)
              | None => ∀ j, ¬ is_Some (eventsMap p !! j)
              end)).
  - intros n p tr e Hlook Hfl Hk Hle. rewrite Haccept.
    exists n. split; [eauto|]. intros j Hj.
    destruct (decide (j = n)) as [->|Hne]; [now left|right].
    fields. now rewrite lookup_delete_ne.
  - intros n p tr Hlook Hlg Hfl Hk Hle j [x Hj].
    assert (n ≤ j) by eauto. assert (j ≤ largestEventIdInQueue p) by eauto.
    assert (j = n) as -> by lia. congruence.
  - intros n p tr e p1 tr1 Hlook Hlg Hfetch Hfl Hk Hle. rewrite Haccept.
    apply fetchEventsAndProcess_spec in Hfetch as (-> & Hm & Hfound & _).
    destruct (Hfound e eq_refl) as (Hid & _).
    exists n. split; [done|]. intros j Hj. right. now apply (mg_keeps _ _ _ _ Hm).
  - intros n p tr p1 tr1 r p' tr' Hlook Hlg Hfetch IH Hfl Hk Hle.
    apply fetchEventsAndProcess_spec in Hfetch as (-> & Hm & _).
    assert (Hr : match r with
                 | Some e => ∃ k, Number (ev_id e) = Num k
                     ∧ ∀ j, is_Some (eventsMap p1 !! j) →
                            j = k ∨ is_Some (eventsMap p' !! j)
                 | None => ∀ j, ¬ is_Some (eventsMap p1 !! j)
                 end).
    { apply IH.
      - now apply (merged_floor _ _ _ _ Hm).
      - now apply (merged_keys_match _ _ _ _ Hm).
      - now apply (merged_keys_le _ _ _ _ Hm). }
    destruct r as [e|].
    + destruct Hr as (k & Hid & Hkeys). exists k. split; [done|].
      intros j Hj. apply Hkeys. now apply (mg_keeps _ _ _ _ Hm).
    + intros j Hj. apply (Hr j). now apply (mg_keeps _ _ _ _ Hm).
Qed.

Lemma processEvents_accepting fuel : ∀ p tr p' tr',
  Inv p → processEvents env fuel p tr = Some (p', tr') →
  ∃ delta, tr' = tr ++ delta
    ∧ ∀ k, is_Some (eventsMap p !! k) → k ∈ delivered (cid p) delta.
Proof.
  induction fuel as [|fuel IH]; intros p tr p' tr' Hinv Hrun; [discriminate|].
  cbn [processEvents] in Hrun.
  destruct (size (eventsMap p) <? 1)%nat eqn:Hsize.
  { injection Hrun as <- <-. exists []. split; [now rewrite app_nil_r|].
    intros k [x Hk]. apply size_lookup_Some in Hk. congruence. }
  destruct Hinv as [(l & Hl & Hll) Hab Hkm Hkl]. rewrite Hl in Hrun.
  cbn [js_add] in Hrun.
  destruct (processNextEvent env fuel (Num (l + 1)) p tr)
    as [[[r p1] tr1]|] eqn:Hnext; [|discriminate].
  assert (Hfl : ∀ j, is_Some (eventsMap p !! j) → l + 1 ≤ j).
  { intros j Hj. specialize (Hab j l Hj Hl). lia. }
  pose proof (processNextEvent_accepting _ _ _ _ _ _ _ Hnext Hfl Hkm Hkl) as Hacc.
  pose proof (processNextEvent_Inv env _ _ _ _ _ _ _
                (mkInv p (ex_intro _ l (conj Hl Hll)) Hab Hkm Hkl) Hl Hnext)
    as [_ Hinv2].
  apply processNextEvent_spec in Hnext; [|done].
  destruct Hnext as [Hc _ _ _ _ _ _ _ _ (fs & tail & Hfs & -> & Hr')].
  destruct r as [e|].
  - destruct Hacc as (k & Hid & Hkeys).
    destruct Hr' as (k' & _ & Hid' & -> & _).
    apply IH in Hrun as (d2 & -> & Hd2); [|now apply Hinv2].
    cbn in Hd2. rewrite Hc in Hd2.
    exists (fs ++ Dispatched (cid p) e true :: d2).
    split; [now rewrite <- !app_assoc|].
    intros j Hj. rewrite delivered_app, delivered_cons, (delivered_id_ok _ _ k Hid).
    apply elem_of_app. right.
    destruct (Hkeys j Hj) as [->|Hj1]; [apply list_elem_of_here|].
    apply list_elem_of_further. now apply Hd2.
  - injection Hrun as <- <-. exists (fs ++ tail). split; [done|].
    intros k Hk. now apply Hacc in Hk.
Qed.

End Accepting.

(** Property X9: when the handler accepts every event, a pass of the drain
    loop that starts from a state satisfying the invariants delivers every id
    that is in the buffer at its start: nothing buffered is lost. *)
Theorem accepted_pass_delivers_buffer env fuel p tr p' tr' :
  (∀ tr e, handleEvent env tr e = true) → Inv p →
  processEvents env fuel p tr = Some (p', tr') →
  ∃ delta, tr' = tr ++ delta
    ∧ ∀ k, is_Some (eventsMap p !! k) → k ∈ delivered (cid p) delta.
Proof. intros Haccept. now apply processEvents_accepting. Qed.

Lemma accepted_pass_delivers_buffer_witness :
  ∃ delta,
    recovered_11_13 ++
      [Fetched "CON-1" 14 24 (Some page_11_13);
       Dispatched "CON-1" (text_event 15 "live") true]
    = [] ++ delta
    ∧ ∀ k, is_Some (eventsMap (enqueue (Num 15) (text_event 15 "live")
                                 (new_processor "CON-1" 10)) !! k) →
           k ∈ delivered
                 (cid (enqueue (Num 15) (text_event 15 "live")
                         (new_processor "CON-1" 10))) delta.
Proof.
  apply (accepted_pass_delivers_buffer env_page_11_13 7%nat
           (enqueue (Num 15) (text_event 15 "live") (new_processor "CON-1" 10))
           []
           (mkProcessor "CON-1" ∅ (Num 15) 15 false 9)).
  - intros tr e. reflexivity.
  - apply enqueue_Inv; [reflexivity|apply new_processor_Inv].
  - vm_compute. reflexivity.
Defined.

(** ** A buffer without gaps *)

Section NoGap.

Context (env : Environment).


End NoGap.



(** ** The history requests of a pass *)



Section Windows.

Context (env : Environment).



End Windows.



(** ** A fetched page against the buffer *)

Lemma merge_fold_overrides n post : ∀ foundEvent p foundEvent' p' k x,
  fold_left (merge_fetched n) post (foundEvent, p) = (foundEvent', p') →
  (∀ e, e ∈ post → Number (ev_id e) ≠ Num k) →
  eventsMap p !! k = Some x → eventsMap p' !! k = Some x.
Proof.
  intros foundEvent p foundEvent' p' k x Hf Hno Hk.
  apply merge_fold in Hf as (Hm & _).
  destruct (mg_keeps _ _ _ _ Hm k) as [y Hy]; [eauto|].
  destruct (mg_lookup _ _ _ _ Hm k y Hy) as [Hold|(_ & _ & _ & e0 & Hin & _ & Hid)].
  - congruence.
  - now apply Hno in Hid.
Qed.

(** Property X12: an event of a fetched page whose id lies above the missing
    id and above the last processed id is put in the buffer with the
    conversation id set, replacing an event buffered under that id; of several
    events of the page with the same id the last one stays. *)
Theorem fetched_event_replaces_buffered
    env n p tr foundEvent p1 tr1 pre e0 post k :
  gap_reply env n p tr = Some (pre ++ e0 :: post) →
  Number (ev_id e0) = Num k → n < k →
  js_gt (Num k) (lastEventIdProcessed p) = true →
  (∀ e, e ∈ post → Number (ev_id e) ≠ Num k) →
  fetchEventsAndProcess env n p tr = (foundEvent, p1, tr1) →
  eventsMap p1 !! k = Some (set_cid (cid p) e0).
Proof.
  unfold gap_reply, fetchEventsAndProcess, fetchConversationEvents.
  fold (gap_end_id n p). intros Hreq Hid Hnk Hgt Hpost Hrun.
  rewrite Hreq in Hrun. injection Hrun as Hfold _.
  rewrite fold_left_app in Hfold. cbn [fold_left] in Hfold.
  destruct (fold_left (merge_fetched n) pre (None, p)) as [f0 p0] eqn:Hpre.
  apply merge_fold in Hpre as (Hm0 & _).
  rewrite merge_fetched_cases, Hid in Hfold.
  replace (k <? n) with false in Hfold by (symmetry; apply Z.ltb_ge; lia).
  replace (n <? k) with true in Hfold by (symmetry; apply Z.ltb_lt; lia).
  destruct (fold_left (merge_fetched n) post _) as [f1 p2] eqn:Hfold'.
  injection Hfold as _ <-.
  eapply merge_fold_overrides; [exact Hfold'|exact Hpost|].
  rewrite enqueue_eventsMap, (mg_last _ _ _ _ Hm0), Hgt, (mg_cid _ _ _ _ Hm0).
  apply lookup_insert_eq.
Qed.

Lemma fetched_event_replaces_buffered_witness :
  eventsMap
    (mkProcessor "CON-1"
       (<[13 := set_cid "CON-1" (history_event 13 "text" "MEM-1")]>
          (<[12 := set_cid "CON-1" (history_event 12 "text" "MEM-1")]>
             ∅)) (Num 10) 13 true 9) !! 13
  = Some (set_cid (cid p_gap13) (history_event 13 "text" "MEM-1")).
Proof.
  apply (fetched_event_replaces_buffered env_without_11 11 p_gap13 [] None
           (mkProcessor "CON-1"
              (<[13 := set_cid "CON-1" (history_event 13 "text" "MEM-1")]>
                 (<[12 := set_cid "CON-1" (history_event 12 "text" "MEM-1")]>
                    ∅)) (Num 10) 13 true 9)
           [Fetched "CON-1" 11 22
              (Some [history_event 12 "text" "MEM-1";
                     history_event 13 "text" "MEM-1"])]
           [history_event 12 "text" "MEM-1"] (history_event 13 "text" "MEM-1")
           [] 13).
  - reflexivity.
  - reflexivity.
  - lia.
  - reflexivity.
  - intros e He. now apply elem_of_nil in He.
  - vm_compute. reflexivity.
Defined.

(** ** Storing and taking an event *)

(** Property X13: an event enqueued under an id above the last processed one
    is what [dequeue] returns for that id; taking it removes it, every other
    key keeps its event, and a second [dequeue] of the id returns nothing. *)
Theorem enqueue_dequeue_round_trip n e p :
  js_gt (Num n) (lastEventIdProcessed p) = true →
  (dequeue (Num n) (enqueue (Num n) e p)).1 = Some e
  ∧ eventsMap (dequeue (Num n) (enqueue (Num n) e p)).2 = delete n (eventsMap p)
  ∧ (dequeue (Num n) (dequeue (Num n) (enqueue (Num n) e p)).2).1 = None.
Proof.
  intros Hgt. unfold dequeue. cbn [fst snd]. fields.
  rewrite enqueue_eventsMap, Hgt. split; [apply lookup_insert_eq|].
  split; [apply delete_insert_eq|]. apply lookup_delete_eq.
Qed.

Lemma enqueue_dequeue_round_trip_witness :
  (dequeue (Num 13) (enqueue (Num 13) (text_event 13 "live")
                       (new_processor "CON-1" 10))).1
  = Some (text_event 13 "live").
Proof.
  apply (enqueue_dequeue_round_trip 13 (text_event 13 "live")
           (new_processor "CON-1" 10)).
  reflexivity.
Defined.

(** ** Deliveries run to completion *)

Lemma scan_fold_keys_le event events : ∀ found p found' p',
  fold_left (scan_transfer event) events (found, p) = (found', p') →
  keys_le_largest p → keys_le_largest p'.
Proof.
  induction events as [|fe events IH]; intros found p found' p' Hf Hp.
  - now injection Hf as <- <-.
  - cbn [fold_left] in Hf. rewrite scan_transfer_cases in Hf.
    assert (Henq : ∀ q, keys_le_largest q →
              keys_le_largest (enqueue (Number (ev_id fe)) fe q)).
    { intros q Hq. destruct (Number (ev_id fe)); [done|]. now apply enqueue_keys_le. }
    destruct (transfer_from event fe); [|destruct found].
    + eapply IH; [exact Hf|]. now apply Henq.
    + eapply IH; [exact Hf|]. now apply Henq.
    + eapply IH; eauto.
Qed.

Lemma scanned_keys_le event events c n : keys_le_largest (scanned event events c n).
Proof.
  unfold scanned. destruct (fold_left _ events _) as [found' p'] eqn:Hf.
  eapply scan_fold_keys_le; [exact Hf|].
  intros k e Hk. cbn in Hk. now rewrite lookup_empty in Hk.
Qed.

Section Fuel.

Context (env : Environment).

Lemma processNextEvent_more_fuel fuel : ∀ fuel' eventId p tr r,
  processNextEvent env fuel eventId p tr = Some r → (fuel ≤ fuel')%nat →
  processNextEvent env fuel' eventId p tr = Some r.
Proof.
  induction fuel as [|fuel IH]; intros fuel' eventId p tr r Hrun Hle; [discriminate|].
  destruct fuel' as [|fuel']; [lia|].
  cbn [processNextEvent] in *.
  destruct (dequeue eventId p) as [[e|] p1]; [done|].
  destruct eventId as [|n]; [done|].
  destruct (js_gt (Num (largestEventIdInQueue p1)) (Num n)); [|done].
  destruct (fetchEventsAndProcess env n p1 tr) as [[[e|] p2] tr2]; [done|].
  apply IH; [done|lia].
Qed.

Lemma processEvents_more_fuel fuel : ∀ fuel' p tr r,
  processEvents env fuel p tr = Some r → (fuel ≤ fuel')%nat →
  processEvents env fuel' p tr = Some r.
Proof.
  induction fuel as [|fuel IH]; intros fuel' p tr r Hrun Hle; [discriminate|].
  destruct fuel' as [|fuel']; [lia|].
  cbn [processEvents] in *.
  destruct (size (eventsMap p) <? 1)%nat; [done|].
  destruct (processNextEvent env fuel _ p tr) as [res|] eqn:Hnext; [|discriminate].
  rewrite (processNextEvent_more_fuel fuel fuel' _ p tr res Hnext) by lia.
  destruct res as [[[e|] p1] tr1]; [|done].
  apply IH; [done|lia].
Qed.

Lemma enqueue_and_process_more_fuel fuel fuel' c n event p cidMap tr r :
  enqueue_and_process env fuel c n event p cidMap tr = Some r → (fuel ≤ fuel')%nat →
  enqueue_and_process env fuel' c n event p cidMap tr = Some r.
Proof.
  unfold enqueue_and_process. intros Hrun Hle.
  destruct (negb _); [|done].
  destruct (processEvents env fuel _ tr) as [res|] eqn:Hpass; [|discriminate].
  now rewrite (processEvents_more_fuel fuel fuel' _ tr res Hpass).
Qed.

Lemma EventsQueue_enqueue_more_fuel fuel fuel' event cidMap tr r :
  EventsQueue_enqueue env fuel event cidMap tr = Some r → (fuel ≤ fuel')%nat →
  EventsQueue_enqueue env fuel' event cidMap tr = Some r.
Proof.
  unfold EventsQueue_enqueue. intros Hrun Hle.
  destruct (negb (truthy (ev_cid event)) || isNaN (Number (ev_id event))); [done|].
  destruct (ev_cid event) as [c|]; [|done].
  destruct (Number (ev_id event)) as [|n]; [done|].
  destruct (cidMap !! c) as [p|].
  { eapply enqueue_and_process_more_fuel; eauto. }
  destruct (is_transfer_trigger event).
  - cbv zeta in *.
    destruct (fetchConversationEvents env _ 20 _ tr) as [[page|] tr1]; [|done].
    destruct (fold_left _ page _) as [found p].
    eapply enqueue_and_process_more_fuel; eauto.
  - eapply enqueue_and_process_more_fuel; eauto.
Qed.

Lemma deliver_more_fuel fuel fuel' events : ∀ cidMap tr r,
  deliver env fuel events cidMap tr = Some r → (fuel ≤ fuel')%nat →
  deliver env fuel' events cidMap tr = Some r.
Proof.
  induction events as [|event events IH]; intros cidMap tr r Hrun Hle; [done|].
  cbn [deliver] in *.
  destruct (EventsQueue_enqueue env fuel event cidMap tr) as [res|] eqn:Hstep;
    [|discriminate].
  rewrite (EventsQueue_enqueue_more_fuel fuel fuel' _ _ _ res Hstep Hle).
  destruct res as [[out cidMap1] tr1]. now apply IH.
Qed.

Context (B : Z).
Hypothesis Hbounded : replies_bounded env B.

Lemma enqueue_and_process_total c n event p cidMap tr :
  Number (ev_id event) = Num n → keys_match p → keys_le_largest p →
  ∃ fuel r, enqueue_and_process env fuel c n event p cidMap tr = Some r.
Proof.
  intros Hid Hkm Hkl. unfold enqueue_and_process.
  destruct (negb _); [|exists 0%nat; eauto].
  set (q := set_processing true (enqueue (Num n) event p)).
  destruct (processEvents_total env B Hbounded (drain_fuel B q) q tr)
    as (p' & tr' & Hrun).
  - intros k e. unfold q. fields. now apply enqueue_keys_match.
  - intros k e. unfold q. fields. now apply enqueue_keys_le.
  - lia.
  - exists (drain_fuel B q). rewrite Hrun. eauto.
Qed.

Lemma EventsQueue_enqueue_total event cidMap tr :
  at_rest cidMap tr →
  ∃ fuel r, EventsQueue_enqueue env fuel event cidMap tr = Some r.
Proof.
  intros Hrest. unfold EventsQueue_enqueue.
  destruct (negb (truthy (ev_cid event)) || isNaN (Number (ev_id event)));
    [exists 0%nat; eauto|].
  destruct (ev_cid event) as [c|]; [|exists 0%nat; eauto].
  destruct (Number (ev_id event)) as [|n] eqn:Hid; [exists 0%nat; eauto|].
  destruct (cidMap !! c) as [p|] eqn:Hlook.
  { pose proof (Hrest c) as Hp. rewrite Hlook in Hp. destruct Hp as (_ & Hmap & _).
    apply enqueue_and_process_total; [done|..];
      intros k e; rewrite Hmap, lookup_empty; discriminate. }
  destruct (is_transfer_trigger event).
  - cbv zeta. fold (lookback_start n). rewrite fetch_lookback.
    destruct (paginationRequest env tr c (lookback_start n) (lookback_end n))
      as [page|]; [|exists 0%nat; eauto].
    destruct (fold_left _ page _) as [found p] eqn:Hscan.
    assert (Hp : p = scanned event page c n) by (unfold scanned; now rewrite Hscan).
    apply enqueue_and_process_total; [done|..]; subst p.
    + apply scanned_frame.
    + apply scanned_keys_le.
  - apply enqueue_and_process_total; [done|..];
      intros k e; cbn; rewrite lookup_empty; discriminate.
Qed.

Lemma deliver_total events : ∀ cidMap tr,
  at_rest cidMap tr →
  ∃ fuel r, deliver env fuel events cidMap tr = Some r.
Proof.
  induction events as [|event events IH]; intros cidMap tr Hrest.
  { exists 0%nat. cbn. eauto. }
  destruct (EventsQueue_enqueue_total event cidMap tr Hrest)
    as (fuel1 & [[out cidMap1] tr1] & Hstep).
  destruct (IH cidMap1 tr1) as (fuel2 & r & Hrun).
  { eapply EventsQueue_enqueue_at_rest; eauto. }
  exists (Nat.max fuel1 fuel2), r. cbn [deliver].
  rewrite (EventsQueue_enqueue_more_fuel fuel1 _ _ _ _ _ Hstep) by lia.
  apply (deliver_more_fuel fuel2); [done|lia].
Qed.

End Fuel.

(** Property X14: when the ids of the events and of the replies to history
    requests are in the range of exact arithmetic, every finite sequence of
    deliveries made one after the other runs to completion: with enough fuel
    the run has a result, and more fuel does not change it. *)
Theorem deliveries_terminate env events :
  replies_safe env → forallb safe_event events = true →
  ∃ fuel r, ∀ fuel', (fuel ≤ fuel')%nat → deliver env fuel' events ∅ [] = Some r.
Proof.
  intros Hsafe _.
  destruct (deliver_total env (MAX_SAFE_INTEGER - 20) (replies_safe_bounded env Hsafe)
              events ∅ [] (at_rest_empty))
    as (fuel & r & Hrun).
  exists fuel, r. intros fuel' Hle. now apply (deliver_more_fuel env fuel).
Qed.

Lemma deliveries_terminate_witness :
  ∃ fuel r, ∀ fuel', (fuel ≤ fuel')%nat →
    deliver env_without_11 fuel'
      [text_event 10 "a"; text_event 13 "live"] ∅ [] = Some r.
Proof.
  apply (deliveries_terminate env_without_11); [|reflexivity].
  intros tr c s t items e Hreq Hin. cbn in Hreq.
  destruct (s =? 11); injection Hreq as <-.
  - apply elem_of_cons in Hin as [->|Hin]; [reflexivity|].
    apply list_elem_of_singleton in Hin as ->. reflexivity.
  - now apply elem_of_nil in Hin.
Defined.

(** ** No event is lost while the handler succeeds *)

Lemma enqueue_any_marks_ordered eventId e p :
  marks_ordered p → marks_ordered (enqueue eventId e p).
Proof.
  intros Hp l Hl. destruct eventId as [|n]; [now apply Hp|].
  rewrite enqueue_last in Hl. rewrite enqueue_largest. apply Hp in Hl. lia.
Qed.

Lemma scan_fold_marks_ordered event events : ∀ found p found' p',
  fold_left (scan_transfer event) events (found, p) = (found', p') →
  marks_ordered p → marks_ordered p'.
Proof.
  induction events as [|fe events IH]; intros found p found' p' Hf Hp.
  - now injection Hf as <- <-.
  - cbn [fold_left] in Hf. rewrite scan_transfer_cases in Hf.
    destruct (transfer_from event fe); [|destruct found].
    + eapply IH; [exact Hf|]. intros l Hl.
      destruct (Number (ev_id fe)) as [|k] eqn:Hid; [discriminate|].
      rewrite enqueue_last in Hl. cbn in Hl. injection Hl as <-.
      rewrite enqueue_largest. fields. lia.
    + eapply IH; [exact Hf|]. now apply enqueue_any_marks_ordered.
    + eapply IH; eauto.
Qed.

Lemma scanned_marks_ordered event events c n :
  marks_ordered (scanned event events c n).
Proof.
  unfold scanned. destruct (fold_left _ events _) as [found' p'] eqn:Hf.
  eapply scan_fold_marks_ordered; [exact Hf|].
  intros l Hl. cbn in Hl. injection Hl as <-. cbn. lia.
Qed.

Section Ordered.

Context (env : Environment).

Lemma routed_marks_ordered event cidMap tr out cidMap' tr' :
  routed env event cidMap tr out cidMap' tr' →
  at_rest cidMap tr →
  (∀ c p, cidMap !! c = Some p → marks_ordered p) →
  ∀ c p, cidMap' !! c = Some p → marks_ordered p.
Proof.
  intros [Hguard|c0 n Hc Hid Hlook Htrig Hreq
          |c0 n p0 tr0 p1 tr1 Hc Hcid Hid Hp0 Hpost] Hrest Hall; [done|done|].
  intros c p Hp. destruct (decide (c = c0)) as [->|Hne];
    [|rewrite lookup_insert_ne in Hp by done; eauto].
  rewrite lookup_insert_eq in Hp. injection Hp as <-.
  assert (Hp0' : marks_ordered p0 ∧ keys_le_largest p0).
  { destruct Hp0 as [[Hl _]|[(_ & _ & -> & _)|(_ & _ & events & _ & -> & _)]].
    - split; [eauto|]. pose proof (Hrest c0) as Hr. rewrite Hl in Hr.
      destruct Hr as (_ & Hmap & _). intros k e. rewrite Hmap, lookup_empty.
      discriminate.
    - split.
      + intros l Hl. cbn in Hl. injection Hl as <-. cbn. lia.
      + intros k e Hk. cbn in Hk. now rewrite lookup_empty in Hk.
    - split; [apply scanned_marks_ordered|apply scanned_keys_le]. }
  destruct Hp0' as [Hord Hkl].
  set (q := set_processing true (enqueue (Num n) event p0)) in *.
  assert (Hlq : lastEventIdProcessed q = lastEventIdProcessed p0).
  { unfold q. fields. apply enqueue_last. }
  assert (Hgq : largestEventIdInQueue q = Z.max (largestEventIdInQueue p0) n).
  { unfold q. fields. apply enqueue_largest. }
  assert (Hkq : keys_le_largest q).
  { intros k e. unfold q. fields. now apply enqueue_keys_le. }
  intros l' Hl'. destruct (lastEventIdProcessed p0) as [|l] eqn:Hl0.
  - destruct (pp_NaN _ _ _ _ _ Hpost Hlq) as [Hnan _]. congruence.
  - destruct (pp_trace _ _ _ _ _ Hpost l Hlq) as (l2 & delta & Hl2 & _ & _ & Hb).
    assert (l2 = l') as -> by congruence.
    apply Hb; [done|]. rewrite Hgq. specialize (Hord l Hl0). lia.
Qed.

Lemma deliver_marks_ordered fuel events : ∀ cidMap tr cidMap' tr',
  deliver env fuel events cidMap tr = Some (cidMap', tr') →
  at_rest cidMap tr →
  (∀ c p, cidMap !! c = Some p → marks_ordered p) →
  ∀ c p, cidMap' !! c = Some p → marks_ordered p.
Proof.
  induction events as [|event events IH]; intros cidMap tr cidMap' tr' Hrun Hrest Hall.
  - now injection Hrun as <- <-.
  - cbn [deliver] in Hrun.
    destruct (EventsQueue_enqueue env fuel event cidMap tr)
      as [[[out cidMap1] tr1]|] eqn:Hstep; [|discriminate].
    assert (Hrt : routed env event cidMap tr out cidMap1 tr1).
    { eapply EventsQueue_enqueue_routed; [exact Hstep|].
      intros c0 p0. now apply (at_rest_wf cidMap tr). }
    eapply IH; [exact Hrun| |].
    + eapply routed_at_rest; eauto.
    + eapply routed_marks_ordered; eauto.
Qed.

Hypothesis Haccept : ∀ tr e, handleEvent env tr e = true.

Lemma enqueue_and_process_delivers fuel c n event p cidMap tr out cidMap' tr' l :
  enqueue_and_process env fuel c n event p cidMap tr = Some (out, cidMap', tr') →
  Number (ev_id event) = Num n → processing p = false → eventsMap p = ∅ →
  lastEventIdProcessed p = Num l → l < n → l ≤ largestEventIdInQueue p →
  ∃ delta, tr' = tr ++ delta ∧ n ∈ delivered (cid p) delta.
Proof.
  unfold enqueue_and_process. intros Hrun Hid Hidle Hmap Hl Hln Hll.
  rewrite enqueue_processing, Hidle in Hrun. cbn [negb] in Hrun.
  set (q := set_processing true (enqueue (Num n) event p)) in *.
  destruct (processEvents env fuel q tr) as [[p' tr1]|] eqn:Hpass; [|discriminate].
  injection Hrun as _ _ <-.
  assert (Hmq : eventsMap q = {[ n := event ]}).
  { unfold q. fields. rewrite enqueue_eventsMap, Hl, Hmap.
    replace (js_gt (Num n) (Num l)) with true by (symmetry; now apply js_gt_Num).
    apply insert_empty. }
  assert (Hlq : lastEventIdProcessed q = Num l).
  { unfold q. fields. now rewrite enqueue_last. }
  assert (Hinv : Inv q).
  { split.
    - exists l. unfold q. fields. rewrite enqueue_last, enqueue_largest.
      split; [done|lia].
    - intros k l0 [x Hk] Hl0. rewrite Hmq in Hk.
      apply lookup_singleton_Some in Hk as [<- _]. congruence.
    - intros k x Hk. rewrite Hmq in Hk.
      now apply lookup_singleton_Some in Hk as [<- <-].
    - intros k x Hk. rewrite Hmq in Hk.
      apply lookup_singleton_Some in Hk as [<- _].
      unfold q. fields. rewrite enqueue_largest. lia. }
  destruct (processEvents_accepting env Haccept fuel q tr p' tr1 Hinv Hpass)
    as (delta & -> & Hall).
  exists delta. split; [done|].
  assert (Hcq : cid q = cid p) by (unfold q; fields; apply enqueue_cid).
  rewrite <- Hcq. apply Hall. rewrite Hmq, lookup_singleton_eq. eauto.
Qed.

End Ordered.

(** ** The event that a call brings *)

Lemma delivered_elem c tr k :
  k ∈ delivered c tr → ∃ e, Dispatched c e true ∈ tr ∧ Number (ev_id e) = Num k.
Proof.
  intros Hin. apply list_elem_of_omap in Hin as (x & Hx & Hid).
  destruct x as [|c' e ok|]; try discriminate.
  destruct ok; [|discriminate]. cbn in Hid.
  destruct (String.eqb c c') eqn:Hc; [|discriminate].
  apply String.eqb_eq in Hc as <-.
  destruct (Number (ev_id e)) as [|j] eqn:Hj; [discriminate|].
  injection Hid as ->. eauto.
Qed.

Section Brought.

Context (env : Environment).
Hypothesis Haccept : ∀ tr e, handleEvent env tr e = true.
Hypothesis Hsafe : replies_safe env.

(** On an idle processor, the call that brings an event with an id above the
    last processed one ends, and delivers that id: with the event itself, or
    with its copy from a page that the call fetched. *)
Lemma enqueue_and_process_brings c n event p cidMap tr l :
  Number (ev_id event) = Num n → processing p = false → eventsMap p = ∅ →
  lastEventIdProcessed p = Num l → l < n → l ≤ largestEventIdInQueue p →
  (∃ fuel r, enqueue_and_process env fuel c n event p cidMap tr = Some r)
  ∧ ∀ fuel out cidMap' tr',
      enqueue_and_process env fuel c n event p cidMap tr = Some (out, cidMap', tr') →
      ∃ delta e,
        tr' = tr ++ delta ∧ Dispatched (cid p) e true ∈ delta
        ∧ Number (ev_id e) = Num n
        ∧ (e = event ∨ from_fetch (cid p) delta e).
Proof.
  intros Hid Hidle Hmap Hl Hln Hll. split.
  { apply (enqueue_and_process_total env (MAX_SAFE_INTEGER - 20)
             (replies_safe_bounded env Hsafe)); [done|..];
      intros k x; rewrite Hmap, lookup_empty; discriminate. }
  intros fuel out cidMap' tr'. unfold enqueue_and_process. intros Hrun.
  rewrite enqueue_processing, Hidle in Hrun. cbn [negb] in Hrun.
  set (q := set_processing true (enqueue (Num n) event p)) in *.
  destruct (processEvents env fuel q tr) as [[p' tr1]|] eqn:Hpass; [|discriminate].
  injection Hrun as _ _ <-.
  assert (Hmq : eventsMap q = {[ n := event ]}).
  { unfold q. fields. rewrite enqueue_eventsMap, Hl, Hmap.
    replace (js_gt (Num n) (Num l)) with true by (symmetry; now apply js_gt_Num).
    apply insert_empty. }
  assert (Hcq : cid q = cid p) by (unfold q; fields; apply enqueue_cid).
  assert (Hlq : lastEventIdProcessed q = Num l).
  { unfold q. fields. now rewrite enqueue_last. }
  assert (Hinv : Inv q).
  { split.
    - exists l. unfold q. fields. rewrite enqueue_last, enqueue_largest.
      split; [done|lia].
    - intros k l0 [x Hk] Hl0. rewrite Hmq in Hk.
      apply lookup_singleton_Some in Hk as [<- _]. congruence.
    - intros k x Hk. rewrite Hmq in Hk.
      now apply lookup_singleton_Some in Hk as [<- <-].
    - intros k x Hk. rewrite Hmq in Hk.
      apply lookup_singleton_Some in Hk as [<- _].
      unfold q. fields. rewrite enqueue_largest. lia. }
  destruct (processEvents_sourced env fuel q tr p' tr1 Hpass) as (delta & -> & Hsrc).
  destruct (processEvents_accepting env Haccept fuel q tr p' _ Hinv Hpass)
    as (delta0 & Heq & Hall).
  apply app_inv_head in Heq. subst delta0.
  assert (Hn : n ∈ delivered (cid q) delta).
  { apply Hall. rewrite Hmq, lookup_singleton_eq. eauto. }
  apply delivered_elem in Hn as (e & Hin & Hide).
  rewrite Hcq in *.
  exists delta, e. split; [done|]. split; [done|]. split; [done|].
  destruct (Hsrc _ _ _ Hin) as [[k Hk]|Hf].
  - left. rewrite Hmq in Hk. now apply lookup_singleton_Some in Hk as [_ <-].
  - right. now rewrite Hcq in Hf.
Qed.

End Brought.

(** Property X15: when the handler accepts every event and the ids are in
    the range of exact arithmetic, a call of [EventsQueue.enqueue] that
    finds the processor of the conversation idle and brings an event with an
    id above its last processed id, or that brings the first event of a
    conversation when it does not trigger the lookback, ends and delivers
    that id in the call: it dispatches the event itself, or a copy with the
    same id from a history page that the call fetched. *)
Theorem accepted_event_is_delivered env event cidMap tr c n :
  (∀ tr e, handleEvent env tr e = true) → replies_safe env → safe n = true →
  ev_cid event = Some c → truthy (Some c) = true →
  Number (ev_id event) = Num n →
  match cidMap !! c with
  | Some p => cid p = c ∧ processing p = false ∧ eventsMap p = ∅ ∧ safe_marks p
              ∧ ∃ l, lastEventIdProcessed p = Num l ∧ l < n
                     ∧ l ≤ largestEventIdInQueue p
  | None => is_transfer_trigger event = false
  end →
  (∃ fuel r, EventsQueue_enqueue env fuel event cidMap tr = Some r)
  ∧ ∀ fuel out cidMap' tr',
      EventsQueue_enqueue env fuel event cidMap tr = Some (out, cidMap', tr') →
      ∃ delta e,
        tr' = tr ++ delta ∧ Dispatched c e true ∈ delta
        ∧ Number (ev_id e) = Num n
        ∧ (e = event ∨ from_fetch c delta e).
Proof.
  intros Haccept Hsafe _ Hc Hcid Hid Hstate.
  unfold EventsQueue_enqueue. rewrite Hc, Hcid, Hid. cbn [negb orb isNaN].
  destruct (cidMap !! c) as [p|] eqn:Hlook.
  - destruct Hstate as (Hcp & Hidle & Hmap & _ & l & Hl & Hln & Hll).
    subst c.
    now apply (enqueue_and_process_brings env Haccept Hsafe (cid p) n event p
                 cidMap tr l).
  - rewrite Hstate.
    refine (enqueue_and_process_brings env Haccept Hsafe c n event
              (new_processor c (n - 1)) _ tr (n - 1) _ _ _ _ _ _);
      [done|done|done|done|lia|cbn; lia].
Qed.

Lemma accepted_event_is_delivered_witness :
  (∃ fuel r,
     EventsQueue_enqueue env_page_11_13 fuel (text_event 15 "live")
       {[ "CON-1"%string := mkProcessor "CON-1" ∅ (Num 10) 10 false 9 ]}
       [Dispatched "CON-1" (text_event 10 "a") true] = Some r)
  ∧ ∀ fuel out cidMap' tr',
      EventsQueue_enqueue env_page_11_13 fuel (text_event 15 "live")
        {[ "CON-1"%string := mkProcessor "CON-1" ∅ (Num 10) 10 false 9 ]}
        [Dispatched "CON-1" (text_event 10 "a") true]
      = Some (out, cidMap', tr') →
      ∃ delta e,
        tr' = [Dispatched "CON-1" (text_event 10 "a") true] ++ delta
        ∧ Dispatched "CON-1" e true ∈ delta
        ∧ Number (ev_id e) = Num 15
        ∧ (e = text_event 15 "live" ∨ from_fetch "CON-1" delta e).
Proof.
  apply (accepted_event_is_delivered env_page_11_13 (text_event 15 "live")
           {[ "CON-1"%string := mkProcessor "CON-1" ∅ (Num 10) 10 false 9 ]}
           [Dispatched "CON-1" (text_event 10 "a") true] "CON-1" 15).
  - intros tr e. reflexivity.
  - intros tr c s t items e Hreq Hin. cbn in Hreq. injection Hreq as <-.
    unfold page_11_13 in Hin.
    repeat (apply elem_of_cons in Hin as [->|Hin]; [reflexivity|]).
    now apply elem_of_nil in Hin.
  - reflexivity.
  - reflexivity.
  - reflexivity.
  - reflexivity.
  - rewrite lookup_singleton_eq. split; [reflexivity|]. split; [reflexivity|].
    split; [reflexivity|]. split.
    + split; [reflexivity|]. intros l [= <-]. reflexivity.
    + exists 10. split; [reflexivity|]. split; [lia|]. cbn. lia.
Defined.

(** ** The query of a request *)

Lemma searchParams_get_filter name name' q :
  name' ≠ name →
  searchParams_get name' (filter (λ kv, kv.1 ≠ name) q) = searchParams_get name' q.
Proof.
  intros Hne. induction q as [|[k v] q IH]; [done|].
  rewrite filter_cons. cbn [fst]. case_decide as Hk.
  - cbn [searchParams_get]. now rewrite IH.
  - cbn [searchParams_get]. subst k.
    replace (String.eqb name name') with false
      by (symmetry; apply String.eqb_neq; congruence).
    exact IH.
Qed.

Lemma searchParams_get_set_eq name value q :
  searchParams_get name (searchParams_set name value q) = Some value.
Proof.
  induction q as [|[k v] q IH]; cbn [searchParams_set searchParams_get].
  - now rewrite String.eqb_refl.
  - destruct (String.eqb k name) eqn:Hk; cbn [searchParams_get]; now rewrite Hk.
Qed.

Lemma searchParams_get_set_ne name name' value q :
  name' ≠ name →
  searchParams_get name' (searchParams_set name value q) = searchParams_get name' q.
Proof.
  intros Hne. induction q as [|[k v] q IH]; cbn [searchParams_set searchParams_get].
  - replace (String.eqb name name') with false
      by (symmetry; apply String.eqb_neq; congruence).
    done.
  - destruct (String.eqb k name) eqn:Hk; cbn [searchParams_get].
    + apply String.eqb_eq in Hk. subst k.
      replace (String.eqb name name') with false
        by (symmetry; apply String.eqb_neq; congruence).
      now apply searchParams_get_filter.
    + destruct (String.eqb k name'); [done|exact IH].
Qed.

Lemma param_tests_truthy v :
  param_truthy v && negb (is_empty_string v) && negb (is_null v) = param_truthy v.
Proof. destruct v as [| |b|[|z]|[|a s]]; cbn; try reflexivity; now rewrite ?andb_true_r. Qed.

Lemma addUrlSearchParams_base params : ∀ url,
  url_base (addUrlSearchParams url params) = url_base url.
Proof.
  unfold addUrlSearchParams.
  induction params as [|[k v] params IH]; intros url; [done|].
  cbn [fold_left]. rewrite IH. now destruct (_ && _).
Qed.

Lemma addUrlSearchParams_other key params : ∀ url,
  param_of key params = None →
  searchParams_get key (searchParams (addUrlSearchParams url params))
  = searchParams_get key (searchParams url).
Proof.
  unfold addUrlSearchParams.
  induction params as [|[k v] params IH]; intros url Hnone; [done|].
  cbn [param_of] in Hnone. destruct (String.eqb k key) eqn:Hk; [discriminate|].
  apply String.eqb_neq in Hk.
  cbn [fold_left]. rewrite IH by done.
  destruct (_ && _); [|done]. cbn [searchParams].
  apply searchParams_get_set_ne. congruence.
Qed.

Lemma addUrlSearchParams_get key params : ∀ url,
  NoDup params.*1 →
  searchParams_get key (searchParams (addUrlSearchParams url params))
  = match param_of key params with
    | Some v =>
        if param_truthy v then Some (param_to_string v)
        else searchParams_get key (searchParams url)
    | None => searchParams_get key (searchParams url)
    end.
Proof.
  induction params as [|[k v] params IH]; intros url Hnd; [done|].
  apply NoDup_cons in Hnd as [Hk Hnd].
  cbn [param_of]. destruct (String.eqb k key) eqn:Hkey.
  - apply String.eqb_eq in Hkey. subst k.
    assert (Hnone : param_of key params = None).
    { clear -Hk. induction params as [|[k' v'] params IH]; [done|].
      cbn [param_of]. cbn in Hk. apply not_elem_of_cons in Hk as [Hne Hk].
      replace (String.eqb k' key) with false
        by (symmetry; apply String.eqb_neq; congruence).
      now apply IH. }
    change (addUrlSearchParams url ((key, v) :: params))
      with (addUrlSearchParams
              (if param_truthy v && negb (is_empty_string v) && negb (is_null v)
               then mkURL (url_base url)
                      (searchParams_set key (param_to_string v) (searchParams url))
               else url) params).
    rewrite addUrlSearchParams_other by done.
    rewrite param_tests_truthy. destruct (param_truthy v); [|done].
    apply searchParams_get_set_eq.
  - apply String.eqb_neq in Hkey.
    change (addUrlSearchParams url ((k, v) :: params))
      with (addUrlSearchParams
              (if param_truthy v && negb (is_empty_string v) && negb (is_null v)
               then mkURL (url_base url)
                      (searchParams_set k (param_to_string v) (searchParams url))
               else url) params).
    rewrite IH by done.
    assert (Hsame : searchParams_get key
              (searchParams
                 (if param_truthy v && negb (is_empty_string v) && negb (is_null v)
                  then mkURL (url_base url)
                         (searchParams_set k (param_to_string v) (searchParams url))
                  else url))
            = searchParams_get key (searchParams url)).
    { destruct (_ && _); [|done]. cbn [searchParams].
      apply searchParams_get_set_ne. congruence. }
    rewrite Hsame. done.
Qed.

(** Property X16: [addUrlSearchParams] leaves the part of the URL before the
    query as it is; afterwards the query gives, for every name, the value of
    that parameter as a string when the parameter is truthy, and what the URL
    gave before otherwise: a parameter that is [undefined], [null], [false],
    [0], [NaN] or the empty string is left out. *)
Theorem addUrlSearchParams_query url params key :
  NoDup params.*1 →
  url_base (addUrlSearchParams url params) = url_base url
  ∧ searchParams_get key (searchParams (addUrlSearchParams url params))
    = match param_of key params with
      | Some v =>
          if param_truthy v then Some (param_to_string v)
          else searchParams_get key (searchParams url)
      | None => searchParams_get key (searchParams url)
      end.
Proof.
  intros Hnd. split; [apply addUrlSearchParams_base|].
  now apply addUrlSearchParams_get.
Qed.

Lemma addUrlSearchParams_query_witness :
  searchParams_get "end_id"
    (searchParams (addUrlSearchParams (mkURL "https://api.nexmo.com/beta2/conversations/CON-1/events" [])
                     (events_params 11 22)))
  = match param_of "end_id" (events_params 11 22) with
    | Some v =>
        if param_truthy v then Some (param_to_string v)
        else searchParams_get "end_id" []
    | None => searchParams_get "end_id" []
    end.
Proof.
  apply (addUrlSearchParams_query
           (mkURL "https://api.nexmo.com/beta2/conversations/CON-1/events" [])
           (events_params 11 22) "end_id").
  apply NoDup_cons. split; [|apply NoDup_singleton].
  intros Hin. apply list_elem_of_singleton in Hin. discriminate.
Defined.

(** Property X17: the history request of the lookback names both ids, whatever
    the id of the triggering event; a request that starts at the id 0 does not
    name its start id. *)
Theorem lookback_request_names_both_ids url n t :
  searchParams_get "start_id"
    (searchParams (addUrlSearchParams url
                     (events_params (lookback_start n) (lookback_end n))))
  = Some (NilZero.string_of_int (Z.to_int (lookback_start n)))
  ∧ searchParams_get "end_id"
      (searchParams (addUrlSearchParams url
                       (events_params (lookback_start n) (lookback_end n))))
    = Some (NilZero.string_of_int (Z.to_int (lookback_end n)))
  ∧ searchParams_get "start_id"
      (searchParams (addUrlSearchParams url (events_params 0 t)))
    = searchParams_get "start_id" (searchParams url).
Proof.
  assert (Hnd : ∀ s e, NoDup (events_params s e).*1).
  { intros s e. apply NoDup_cons. split; [|apply NoDup_singleton].
    intros Hin. apply list_elem_of_singleton in Hin. discriminate. }
  assert (Hs : lookback_start n ≠ 0).
  { unfold lookback_start. destruct (Z.ltb_spec (n - 20) 1); lia. }
  assert (He : lookback_end n ≠ 0).
  { unfold lookback_end, lookback_start, js_gt.
    destruct (Z.ltb_spec (n - 20) 1);
      repeat match goal with
             | |- context [?a <? ?b] => destruct (Z.ltb_spec a b)
             end; lia. }
  rewrite !addUrlSearchParams_get by apply Hnd.
  cbn [events_params param_of]. cbn [String.eqb Ascii.eqb Bool.eqb].
  cbn [param_truthy param_to_string].
  apply Z.eqb_neq in Hs, He. rewrite Hs, He. cbn [negb]. done.
Qed.

(** ** Replies and their requests *)

Lemma on_packet_requests client packet h client' :
  on_packet client packet = (h, client') →
  (∀ key, invokes key h = true →
     is_Some (requests client !! key) ∧ requests client' !! key = None)
  ∧ (∀ key, requests client' !! key = None ∨
            requests client' !! key = requests client !! key).
Proof.
  unfold on_packet. intros Hrun.
  assert (Hsame : ∀ hh, callback_of hh = None → (hh, client) = (h, client') →
    (∀ key, invokes key h = true →
       is_Some (requests client !! key) ∧ requests client' !! key = None)
    ∧ (∀ key, requests client' !! key = None ∨
              requests client' !! key = requests client !! key)).
  { intros hh Hhh [= <- <-]. split; [|auto].
    intros key. unfold invokes. now rewrite Hhh. }
  assert (Hdel : ∀ k r hh, requests client !! k = Some r →
    (callback_of hh = None ∨ callback_of hh = Some k) →
    (hh, delete_request k client) = (h, client') →
    (∀ key, invokes key h = true →
       is_Some (requests client !! key) ∧ requests client' !! key = None)
    ∧ (∀ key, requests client' !! key = None ∨
              requests client' !! key = requests client !! key)).
  { intros k r hh Hk Hhh [= <- <-]. split.
    - intros key. unfold invokes. destruct Hhh as [-> | ->]; [done|].
      intros Heq. apply String.eqb_eq in Heq. subst key.
      split; [eauto|]. cbn. apply lookup_delete_eq.
    - intros key. cbn. destruct (decide (key = k)) as [->|Hne].
      + left. apply lookup_delete_eq.
      + right. now apply lookup_delete_ne. }
  destruct (negb _); [now apply (Hsame Ignored)|].
  destruct (String.eqb (packet_name packet) "echo"); [now apply (Hsame Ignored)|].
  cbv zeta in Hrun.
  destruct (requests client !! "session:login"%string) as [login|] eqn:Hlogin.
  { eapply Hdel; [exact Hlogin| |exact Hrun].
    destruct (has_callback login); auto. }
  destruct (requests client !! property_key (packet_rid packet))
    as [request|] eqn:Hreq.
  { eapply Hdel; [exact Hreq| |exact Hrun].
    destruct (has_callback request); auto. }
  destruct (bool_decide _); [now eapply Hsame; [|exact Hrun]|].
  destruct (_ && startsWith _ _); [now eapply Hsame; [|exact Hrun]|].
  destruct (startsWith _ "session:").
  { injection Hrun as <- <-. split.
    - intros key. now unfold invokes.
    - intros key. right. unfold updateSession. now destruct (String.eqb _ _). }
  destruct (application client); now eapply Hsame; [|exact Hrun].
Qed.

Lemma exchange_invocations key traffic : ∀ client hs client',
  exchange client traffic = (hs, client') →
  (length (List.filter (invokes key) hs)
   ≤ pending key client + length (List.filter (sent_as key) traffic))%nat.
Proof.
  induction traffic as [|[tid request|packet] traffic IH]; intros client hs client' Hrun.
  - injection Hrun as <- <-. cbn. lia.
  - cbn [exchange] in Hrun. apply IH in Hrun. cbn [List.filter sent_as].
    unfold pending in *. cbn [requests sendRequest] in Hrun.
    destruct (String.eqb tid key) eqn:Hk.
    + cbn [length].
      destruct (<[tid:=request]> (requests client) !! key),
               (requests client !! key); lia.
    + apply String.eqb_neq in Hk. rewrite lookup_insert_ne in Hrun by done.
      exact Hrun.
  - cbn [exchange] in Hrun.
    destruct (on_packet client packet) as [h client1] eqn:Hstep.
    destruct (exchange client1 traffic) as [hs1 client2] eqn:Hrest.
    injection Hrun as <- <-. apply IH in Hrest.
    apply on_packet_requests in Hstep as [Hinv Hkeep].
    cbn [List.filter sent_as]. unfold pending in *.
    destruct (invokes key h) eqn:Hh.
    + cbn [length].
      destruct (Hinv key Hh) as [[r Hr] Hnone].
      rewrite Hr. rewrite Hnone in Hrest. lia.
    + destruct (Hkeep key) as [Hnone|Heq].
      * rewrite Hnone in Hrest. destruct (requests client !! key); lia.
      * now rewrite Heq in Hrest.
Qed.

(** Property X18: in any exchange of requests sent and packets received, the
    callback of a request is invoked at most once for each time the request
    was stored: a packet that repeats the [rid] of an answered request is not
    passed to its callback again. *)
Theorem callback_invoked_once client traffic key :
  (length (List.filter (invokes key) (exchange client traffic).1)
   ≤ pending key client + length (List.filter (sent_as key) traffic))%nat.
Proof.
  destruct (exchange client traffic) as [hs client'] eqn:Hrun.
  now apply (exchange_invocations key traffic client hs client').
Qed.

Lemma prefix_system_error s :
  String.prefix "system:error:" s = true → _isTypeError s = true.
Proof.
  intros H.
  do 13 (destruct s as [|? s]; [discriminate|];
         cbn [String.prefix] in H;
         match type of H with
         | (if ?d then _ else _) = true =>
             destruct d as [<-|]; [|discriminate]
         end).
  reflexivity.
Qed.

(** Property X19: a packet that answers no pending request and whose type
    starts with [system:error:] is, once the errors emitter exists, always
    emitted to the listeners of errors and never enqueued as an event: the
    test of [emitResponseIfError] cannot fail for such a type. *)
Theorem system_errors_are_emitted client packet :
  packet_type packet = 2 →
  requests client !! "session:login"%string = None →
  requests client !! property_key (packet_rid packet) = None →
  property_key (packet_rid packet) ∉ Object_prototype →
  errorsEmitter client = true →
  startsWith (packet_name packet) "system:error:" = true →
  on_packet client packet = (ErrorEmitter true, client).
Proof.
  intros Htype Hlogin Hrid Hproto Hem Hpre. unfold on_packet.
  rewrite Htype, Hlogin, Hrid, Hem, Hpre. cbn [Z.eqb Pos.eqb negb].
  assert (String.eqb (packet_name packet) "echo" = false) as ->.
  { apply String.eqb_neq. intros Heq. rewrite Heq in Hpre. discriminate. }
  cbv zeta. rewrite bool_decide_eq_false_2 by done. cbn [andb].
  rewrite prefix_system_error; [done|exact Hpre].
Qed.

Lemma system_errors_are_emitted_witness :
  on_packet (mkClient ∅ true true (Some "SES-1"%string))
    (mkPacket 2 "system:error:expired-token" None None)
  = (ErrorEmitter true, mkClient ∅ true true (Some "SES-1"%string)).
Proof.
  apply (system_errors_are_emitted (mkClient ∅ true true (Some "SES-1"%string))
           (mkPacket 2 "system:error:expired-token" None None));
    try reflexivity.
  vm_compute. intros H. repeat (apply elem_of_cons in H as [H|H]; [discriminate|]).
  now apply elem_of_nil in H.
Defined.

Lemma exchange_login traffic : ∀ client login,
  requests client !! "session:login"%string = Some login →
  has_callback login = true →
  forallb (λ t, negb (sent_as "session:login" t)) traffic = true →
  ∃ k rest,
    (exchange client traffic).1 = replicate k Ignored ++ rest
    ∧ (rest = [] ∨ ∃ rest', rest = LoginCallback :: rest').
Proof.
  induction traffic as [|[tid request|packet] traffic IH];
    intros client login Hlogin Hcb Hsent.
  - exists 0%nat, []. auto.
  - cbn [forallb sent_as] in Hsent. apply andb_true_iff in Hsent as [Htid Hsent].
    apply negb_true_iff, String.eqb_neq in Htid.
    cbn [exchange]. apply (IH _ login); [|done|done].
    cbn. now rewrite lookup_insert_ne.
  - cbn [forallb sent_as negb andb] in Hsent. cbn [exchange].
    destruct (on_packet client packet) as [h client1] eqn:Hstep.
    destruct (exchange client1 traffic) as [hs client2] eqn:Hrest.
    cbn [fst]. unfold on_packet in Hstep. rewrite Hlogin, Hcb in Hstep.
    assert (Hignored : (Ignored, client) = (h, client1) →
              ∃ k rest, h :: hs = replicate k Ignored ++ rest
                ∧ (rest = [] ∨ ∃ rest', rest = LoginCallback :: rest')).
    { intros [= <- <-].
      destruct (IH client login Hlogin Hcb Hsent) as (k & rest & Heq & Hr).
      rewrite Hrest in Heq. cbn [fst] in Heq. subst hs.
      exists (S k), rest. done. }
    destruct (negb _); [auto|].
    destruct (String.eqb (packet_name packet) "echo"); [auto|].
    injection Hstep as <- <-. exists 0%nat, (LoginCallback :: hs). eauto.
Qed.

(** Property X20: while a login is pending, the first packet that is not
    ignored is passed to the callback of the login, whatever its type and its
    [rid]: before the login is settled no packet is enqueued as an event,
    answers a request or updates the session. *)
Theorem login_takes_the_next_packet client traffic login :
  requests client !! "session:login"%string = Some login →
  has_callback login = true →
  forallb (λ t, negb (sent_as "session:login" t)) traffic = true →
  ∃ k rest,
    (exchange client traffic).1 = replicate k Ignored ++ rest
    ∧ (rest = [] ∨ ∃ rest', rest = LoginCallback :: rest').
Proof. intros Hlogin Hcb Hsent. now apply (exchange_login traffic client login). Qed.

Lemma login_takes_the_next_packet_witness :
  ∃ k rest,
    (exchange
       (mkClient {[ "session:login"%string := mkRequest "session:login" true ]}
                 false true None)
       [Received (mkPacket 2 "echo" None None);
        Received (mkPacket 2 "text" None None);
        Received (mkPacket 2 "text" None None)]).1
    = replicate k Ignored ++ rest
    ∧ (rest = [] ∨ ∃ rest', rest = LoginCallback :: rest').
Proof.
  apply (login_takes_the_next_packet
           (mkClient {[ "session:login"%string := mkRequest "session:login" true ]}
                     false true None)
           [Received (mkPacket 2 "echo" None None);
            Received (mkPacket 2 "text" None None);
            Received (mkPacket 2 "text" None None)]
           (mkRequest "session:login" true)); reflexivity.
Defined.

(** ** The order of receipts *)

Section Notices.

Context {K : Type} `{Countable K}.

Lemma handle_notice_apply (events : gmap K NXMEvent) (n : string * Notice K) :
  handle_notice events n =
  match mark_of n.1, events !! body_event_id n.2 with
  | Some i, Some e =>
      <[body_event_id n.2 := apply_mark i (from n.2) (timestamp n.2) e]> events
  | _, _ => events
  end.
Proof.
  destruct n as [type n]. unfold handle_notice, receipt_handler, mark_of. cbn [fst snd].
  repeat (destruct (String.eqb type _);
          [unfold _processDelete, _processDelivered, _processSeen,
             _processSubmitted, _processRejected, _processUndeliverable;
           now destruct (events !! body_event_id n)|]).
  now destruct (events !! body_event_id n).
Qed.

Lemma apply_mark_commute i j s1 t1 s2 t2 e :
  i ≠ j ∨ (i ≠ MDelete ∧ s1 ≠ s2) →
  apply_mark i s1 t1 (apply_mark j s2 t2 e) = apply_mark j s2 t2 (apply_mark i s1 t1 e).
Proof.
  intros Hd. destruct e as [text reps ts st].
  destruct i, j; try reflexivity;
    destruct Hd as [Hd|[Hd1 Hd2]]; try done;
    unfold apply_mark, set_state; cbn;
    rewrite (insert_insert_ne _ s1 s2 t1 t2) by done; reflexivity.
Qed.

Lemma apply_mark_twice i s t1 t2 e :
  apply_mark i s t2 (apply_mark i s t1 e) = apply_mark i s t2 e.
Proof.
  destruct e as [text reps ts st].
  destruct i; unfold apply_mark, set_state; cbn;
    try (rewrite insert_insert_eq; reflexivity).
  f_equal.
  - now destruct text as [[|]|].
  - now destruct reps.
Qed.

Lemma apply_delete_twice s1 t1 s2 t2 e :
  apply_mark MDelete s2 t2 (apply_mark MDelete s1 t1 e) = apply_mark MDelete s2 t2 e.
Proof.
  destruct e as [text reps ts st]. unfold apply_mark. cbn. f_equal.
  - now destruct text as [[|]|].
  - now destruct reps.
Qed.

End Notices.

Section Order.

Context {K : Type} `{Countable K}.

Lemma handle_notice_swap (events : gmap K NXMEvent) (a b : string * Notice K) :
  slot a ≠ slot b ∨ slot a = None →
  handle_notice (handle_notice events a) b = handle_notice (handle_notice events b) a.
Proof.
  unfold slot. rewrite !handle_notice_apply.
  destruct a as [ta [ida sa tsa]], b as [tb [idb sb tsb]].
  cbn [fst snd body_event_id from timestamp].
  destruct (mark_of ta) as [i|], (mark_of tb) as [j|]; try done.
  intros [Hslot|Hnone]; [|now destruct i].
  destruct (decide (ida = idb)) as [->|Hid].
  - destruct (events !! idb) as [e|] eqn:He; [|cbv iota; now rewrite He].
    rewrite !lookup_insert_eq, !insert_insert_eq. f_equal.
    apply apply_mark_commute.
    destruct (decide (i = j)) as [->|Hne]; [|now left].
    right. destruct j; (split; [try done|]); try congruence.
  - destruct (events !! ida) as [ea|] eqn:Ha, (events !! idb) as [eb|] eqn:Hb;
      rewrite ?lookup_insert_ne, ?Ha, ?Hb by done; try done.
    now apply insert_insert_ne.
Qed.

Lemma handle_notices_permutation (l l' : list (string * Notice K)) :
  l ≡ₚ l' → ∀ events,
  NoDup (omap slot l) → handle_notices events l = handle_notices events l'.
Proof.
  unfold handle_notices.
  induction 1 as [|a l l' Hp IH|a b l|l1 l2 l3 Hp1 IH1 Hp2 IH2]; intros events Hnd.
  - done.
  - cbn [fold_left]. apply IH.
    cbn [omap list_omap] in Hnd. destruct (slot a); [|done].
    now apply NoDup_cons in Hnd as [_ Hnd].
  - cbn [fold_left]. f_equal.
    apply handle_notice_swap.
    destruct (slot b) as [sb|] eqn:Hb; [|now right].
    destruct (slot a) as [sa|] eqn:Ha; [|now left].
    left. cbn [omap list_omap] in Hnd. rewrite Ha, Hb in Hnd.
    apply NoDup_cons in Hnd as [Hnd _]. apply not_elem_of_cons in Hnd as [Hne _].
    congruence.
  - rewrite IH1 by done. apply IH2. now rewrite <- Hp1.
Qed.

End Order.

(** Property X21: receipts and deletions of which no two write the same thing
    (the same mark of the same event for the same sender, or the body of the
    same event) leave the same events in whatever order they are handled. *)
Theorem notices_in_any_order {K : Type} `{Countable K}
    (events : gmap K NXMEvent) (l l' : list (string * Notice K)) :
  Forall (λ n, is_Some (mark_of n.1)) l →
  NoDup (slot <$> l) → l ≡ₚ l' →
  handle_notices events l = handle_notices events l'.
Proof.
  intros Hall Hnd Hp. apply handle_notices_permutation; [done|].
  clear Hp. induction l as [|n l IH]; [constructor|].
  apply Forall_cons in Hall as [[i Hi] Hall].
  rewrite fmap_cons in Hnd. apply NoDup_cons in Hnd as [Hn Hnd].
  cbn [omap list_omap].
  destruct (slot n) as [sn|] eqn:Hs.
  - apply NoDup_cons. split; [|now apply IH].
    intros Hin. apply Hn. apply list_elem_of_omap in Hin as (m & Hm & Hsm).
    apply list_elem_of_fmap. exists m. split; [congruence|done].
  - unfold slot in Hs. rewrite Hi in Hs. now destruct i.
Qed.

Lemma notices_in_any_order_witness :
  handle_notices
    ({[ "EV-1"%string := mkNXMEvent (Some "hi"%string) NoRepresentations
                           (Original None) None ]} : gmap string NXMEvent)
    [("text:seen"%string, mkNotice "EV-1"%string "MEM-2"%string "t2"%string);
     ("text:delivered"%string, mkNotice "EV-1"%string "MEM-2"%string "t1"%string)]
  = handle_notices
      ({[ "EV-1"%string := mkNXMEvent (Some "hi"%string) NoRepresentations
                             (Original None) None ]} : gmap string NXMEvent)
      [("text:delivered"%string, mkNotice "EV-1"%string "MEM-2"%string "t1"%string);
       ("text:seen"%string, mkNotice "EV-1"%string "MEM-2"%string "t2"%string)].
Proof.
  apply (notices_in_any_order
           ({[ "EV-1"%string := mkNXMEvent (Some "hi"%string) NoRepresentations
                                  (Original None) None ]}
              : gmap string NXMEvent)
           [("text:seen"%string, mkNotice "EV-1"%string "MEM-2"%string "t2"%string);
            ("text:delivered"%string,
             mkNotice "EV-1"%string "MEM-2"%string "t1"%string)]).
  - repeat constructor; vm_compute; eauto.
  - vm_compute. apply NoDup_cons. split; [|apply NoDup_singleton].
    intros Hin. apply list_elem_of_singleton in Hin. discriminate.
  - apply perm_swap.
Defined.

(** Property X22: of two notices that write the same thing, handled one after
    the other, the later one wins: the events are those that the later notice
    alone leaves. *)
Theorem later_notice_wins {K : Type} `{Countable K}
    (events : gmap K NXMEvent) (a b : string * Notice K) :
  slot a = slot b → is_Some (slot a) →
  handle_notices events [a; b] = handle_notices events [b].
Proof.
  unfold handle_notices, slot. cbn [fold_left]. rewrite !handle_notice_apply.
  destruct a as [ta [ida sa tsa]], b as [tb [idb sb tsb]].
  cbn [fst snd body_event_id from timestamp].
  destruct (mark_of ta) as [i|], (mark_of tb) as [j|];
    intros Hslot [x Hx]; try done; [|now destruct i].
  assert (i = j ∧ ida = idb ∧ (i = MDelete ∨ sa = sb)) as (-> & -> & Hs).
  { destruct i, j; try discriminate; injection Hslot; auto. }
  destruct (events !! idb) as [e|] eqn:He; [|cbv iota; now rewrite He].
  rewrite lookup_insert_eq, insert_insert_eq. f_equal.
  destruct Hs as [-> | ->]; [apply apply_delete_twice|apply apply_mark_twice].
Qed.

Lemma later_notice_wins_witness :
  handle_notices
    ({[ "EV-1"%string := mkNXMEvent (Some "hi"%string) NoRepresentations
                           (Original None) None ]} : gmap string NXMEvent)
    [("text:seen"%string, mkNotice "EV-1"%string "MEM-2"%string "t1"%string);
     ("image:seen"%string, mkNotice "EV-1"%string "MEM-2"%string "t2"%string)]
  = handle_notices
      ({[ "EV-1"%string := mkNXMEvent (Some "hi"%string) NoRepresentations
                             (Original None) None ]} : gmap string NXMEvent)
      [("image:seen"%string, mkNotice "EV-1"%string "MEM-2"%string "t2"%string)].
Proof.
  apply (later_notice_wins
           ({[ "EV-1"%string := mkNXMEvent (Some "hi"%string) NoRepresentations
                                  (Original None) None ]}
              : gmap string NXMEvent)
           ("text:seen"%string, mkNotice "EV-1"%string "MEM-2"%string "t1"%string)
           ("image:seen"%string, mkNotice "EV-1"%string "MEM-2"%string "t2"%string)).
  - reflexivity.
  - vm_compute. eauto.
Defined.

(** ** The legs after an update *)

Lemma updateMemberLegs_find legs event :
  ∃ i leg,
    list_find (λ leg, leg_id leg = body_leg_id event) (updateMemberLegs legs event)
    = Some (i, leg)
    ∧ status leg = body_status event.
Proof.
  unfold updateMemberLegs. destruct legs as [legs|].
  - destruct (list_find _ legs) as [[i leg]|] eqn:Hfind.
    + pose proof Hfind as Hf. apply list_find_Some in Hf as (Hi & Hid & Hbefore).
      case_bool_decide as Hst.
      * exists i, (mkLeg (leg_id leg) (body_status event)). split; [|done].
        apply list_find_Some. split; [|split; [done|]].
        -- apply list_lookup_insert_eq. now apply lookup_lt_Some in Hi.
        -- intros j y Hj Hlt. rewrite list_lookup_insert_ne in Hj by lia. eauto.
      * exists i, leg. split; [done|].
        destruct (decide (status leg = body_status event)); [done|]. now elim Hst.
    + exists (length legs), (mkLeg (body_leg_id event) (body_status event)).
      split; [|done]. rewrite list_find_app_r by done.
      cbn. rewrite decide_True by done. cbn. done.
  - exists 0%nat, (mkLeg (body_leg_id event) (body_status event)).
    split; [|done]. cbn. now rewrite decide_True.
Qed.

(** Property X23: after [updateMemberLegs] the first leg with the leg id of
    the event has the status of the event, and applying the same event again
    changes nothing. *)
Theorem updateMemberLegs_sets_status legs event :
  (∃ i leg,
     list_find (λ leg, leg_id leg = body_leg_id event) (updateMemberLegs legs event)
     = Some (i, leg)
     ∧ status leg = body_status event)
  ∧ updateMemberLegs (Some (updateMemberLegs legs event)) event
    = updateMemberLegs legs event.
Proof.
  split; [apply updateMemberLegs_find|].
  destruct (updateMemberLegs_find legs event) as (i & leg & Hfind & Hst).
  unfold updateMemberLegs at 1. rewrite Hfind.
  rewrite bool_decide_eq_false_2; [done|]. intros Hne. now apply Hne.
Qed.

(** Property X24: [updateMemberLegs] keeps every leg with another leg id where
    it is, and the leg ids in their order: the id of the event is added at the
    end when it is new, so distinct leg ids stay distinct. *)
Theorem updateMemberLegs_keeps_legs legs event :
  (∀ i leg, legs_of legs !! i = Some leg → leg_id leg ≠ body_leg_id event →
            updateMemberLegs legs event !! i = Some leg)
  ∧ leg_id <$> updateMemberLegs legs event
    = (leg_id <$> legs_of legs)
      ++ (if bool_decide (body_leg_id event ∈ leg_id <$> legs_of legs)
          then [] else [body_leg_id event])
  ∧ (NoDup (leg_id <$> legs_of legs) →
     NoDup (leg_id <$> updateMemberLegs legs event)).
Proof.
  assert (Hids : leg_id <$> updateMemberLegs legs event
    = (leg_id <$> legs_of legs)
      ++ (if bool_decide (body_leg_id event ∈ leg_id <$> legs_of legs)
          then [] else [body_leg_id event])).
  { unfold updateMemberLegs, legs_of. destruct legs as [legs|]; [|done].
    destruct (list_find _ legs) as [[i leg]|] eqn:Hfind.
    - apply list_find_Some in Hfind as (Hi & Hid & _).
      assert (Hin : body_leg_id event ∈ leg_id <$> legs).
      { apply list_elem_of_fmap. exists leg. split; [done|].
        eapply list_elem_of_lookup_2; eauto. }
      rewrite (bool_decide_eq_true_2 _ Hin), app_nil_r.
      case_bool_decide; [|done].
      rewrite list_fmap_insert. cbn [leg_id]. apply list_insert_id.
      now rewrite list_lookup_fmap, Hi.
    - apply list_find_None in Hfind. rewrite bool_decide_eq_false_2.
      + now rewrite fmap_app.
      + intros Hin. apply list_elem_of_fmap in Hin as (leg & Heq & Hin).
        rewrite Forall_forall in Hfind. now apply (Hfind leg Hin). }
  split; [|split; [exact Hids|]].
  - unfold updateMemberLegs, legs_of. destruct legs as [legs|];
      [|intros i leg Hi; now rewrite lookup_nil in Hi].
    intros i leg Hi Hne.
    destruct (list_find _ legs) as [[j found]|] eqn:Hfind.
    + apply list_find_Some in Hfind as (Hj & Hid & _).
      destruct (bool_decide (status found ≠ body_status event)); [|done].
      rewrite list_lookup_insert_ne; [done|]. intros ->. congruence.
    + now apply lookup_app_l_Some.
  - intros Hnd. rewrite Hids. case_bool_decide as Hin; [now rewrite app_nil_r|].
    apply NoDup_app. split; [done|]. split; [|apply NoDup_singleton].
    intros x Hx Hx'. apply list_elem_of_singleton in Hx'. now subst x.
Qed.

(** ** Minimum and maximum of the scores *)

Lemma foldr_min_init a b l : foldr Z.min (Z.min a b) l = Z.min a (foldr Z.min b l).
Proof. induction l as [|x l IH]; cbn; [done|]. rewrite IH. lia. Qed.

Lemma foldr_max_init a b l : foldr Z.max (Z.max a b) l = Z.max a (foldr Z.max b l).
Proof. induction l as [|x l IH]; cbn; [done|]. rewrite IH. lia. Qed.

Lemma updateMOSReport_fold scores : ∀ this lo hi,
  mos_report_min this = Num lo → mos_report_max this = Num hi →
  mos_report_min (fold_left updateMOSReport scores this)
  = Num (foldr Z.min lo (numbers scores))
  ∧ mos_report_max (fold_left updateMOSReport scores this)
    = Num (foldr Z.max hi (numbers scores))
  ∧ _reportsCount (fold_left updateMOSReport scores this)
    = _reportsCount this + Z.of_nat (length scores).
Proof.
  induction scores as [|mos scores IH]; intros this lo hi Hlo Hhi.
  - cbn. rewrite Hlo, Hhi. repeat split; lia.
  - cbn [fold_left].
    assert (Hmin : ∃ lo', mos_report_min (updateMOSReport this mos) = Num lo'
              ∧ foldr Z.min lo' (numbers scores)
                = foldr Z.min lo (numbers (mos :: scores))).
    { cbn [updateMOSReport mos_report_min]. rewrite Hlo. destruct mos as [|z].
      - exists lo. done.
      - unfold js_lt, js_gt. exists (Z.min z lo). split.
        + destruct (Z.ltb_spec z lo); f_equal; lia.
        + apply foldr_min_init. }
    assert (Hmax : ∃ hi', mos_report_max (updateMOSReport this mos) = Num hi'
              ∧ foldr Z.max hi' (numbers scores)
                = foldr Z.max hi (numbers (mos :: scores))).
    { cbn [updateMOSReport mos_report_max]. rewrite Hhi. destruct mos as [|z].
      - exists hi. done.
      - unfold js_gt. exists (Z.max z hi). split.
        + destruct (Z.ltb_spec hi z); f_equal; lia.
        + apply foldr_max_init. }
    destruct Hmin as (lo' & Hlo' & <-), Hmax as (hi' & Hhi' & <-).
    destruct (IH _ lo' hi' Hlo' Hhi') as (-> & -> & ->).
    repeat split. cbn [updateMOSReport _reportsCount length]. lia.
Qed.

Lemma updateMOSReport_sum scores : ∀ this s0,
  _mosSum this = Num s0 →
  _mosSum (fold_left updateMOSReport scores this)
  = (if forallb (λ x, negb (isNaN x)) scores
     then Num (s0 + foldr Z.add 0 (numbers scores)) else NaN)
  ∧ mos_report_average (fold_left updateMOSReport scores this)
    = match scores with
      | [] => mos_report_average this
      | _ => Some (_mosSum (fold_left updateMOSReport scores this),
                   _reportsCount (fold_left updateMOSReport scores this))
      end
  ∧ mos_report_last (fold_left updateMOSReport scores this)
    = match last scores with
      | Some x => Some x
      | None => mos_report_last this
      end.
Proof.
  induction scores as [|mos scores IH]; intros this s0 Hs0.
  - cbn. rewrite Hs0. repeat split. f_equal. lia.
  - cbn [fold_left forallb].
    assert (Hnan : ∀ that, _mosSum that = NaN →
              _mosSum (fold_left updateMOSReport scores that) = NaN).
    { clear. induction scores as [|x scores IH]; intros that Hthat; [done|].
      cbn [fold_left]. apply IH. cbn. now rewrite Hthat. }
    assert (Hrest : mos_report_average (fold_left updateMOSReport scores
                                          (updateMOSReport this mos))
              = Some (_mosSum (fold_left updateMOSReport scores
                                 (updateMOSReport this mos)),
                      _reportsCount (fold_left updateMOSReport scores
                                       (updateMOSReport this mos)))
            ∧ mos_report_last (fold_left updateMOSReport scores
                                 (updateMOSReport this mos))
              = match last (mos :: scores) with
                | Some x => Some x
                | None => mos_report_last this
                end).
    { clear. revert this mos.
      induction scores as [|x scores IH]; intros this mos; [done|].
      cbn [fold_left]. destruct (IH (updateMOSReport this mos) x) as [-> ->].
      split; [done|].
      change (last (mos :: x :: scores)) with (last (x :: scores)).
      destruct (last (x :: scores)) eqn:Hl; [done|].
      apply last_None in Hl. discriminate. }
    destruct Hrest as [Havg Hlast]. split; [|split; [exact Havg|exact Hlast]].
    destruct mos as [|z]; cbn [isNaN negb andb].
    + apply Hnan. cbn. now rewrite Hs0.
    + destruct (IH (updateMOSReport this (Num z)) (s0 + z)) as (-> & _).
      { cbn. now rewrite Hs0. }
      destruct (forallb _ scores); [|done].
      change (numbers (Num z :: scores)) with (z :: numbers scores).
      cbn [foldr]. f_equal. lia.
Qed.

(** Property X25: after any number of reports, the minimum of the MOS report
    is the smallest of 5 and the scores that are numbers, the maximum the
    largest of 0 and those scores, and the count the number of reports: a
    score that is [NaN] changes neither minimum nor maximum, and every score
    that is a number lies between them. The sum of the scores, the dividend of
    the average, is [NaN] from the first score that is [NaN] on. *)
Theorem mos_report_bounds scores :
  mos_report_min (fold_left updateMOSReport scores new_analytics)
  = Num (foldr Z.min 5 (numbers scores))
  ∧ mos_report_max (fold_left updateMOSReport scores new_analytics)
    = Num (foldr Z.max 0 (numbers scores))
  ∧ _reportsCount (fold_left updateMOSReport scores new_analytics)
    = Z.of_nat (length scores)
  ∧ (∀ z, Num z ∈ scores →
       foldr Z.min 5 (numbers scores) ≤ z ≤ foldr Z.max 0 (numbers scores))
  ∧ _mosSum (fold_left updateMOSReport scores new_analytics)
    = (if forallb (λ x, negb (isNaN x)) scores
       then Num (foldr Z.add 0 (numbers scores)) else NaN)
  ∧ mos_report_last (fold_left updateMOSReport scores new_analytics) = last scores.
Proof.
  destruct (updateMOSReport_fold scores new_analytics 5 0 eq_refl eq_refl)
    as (Hmin & Hmax & Hcount).
  destruct (updateMOSReport_sum scores new_analytics 0 eq_refl)
    as (Hsum & _ & Hlast).
  split; [done|]. split; [done|]. split; [exact Hcount|].
  split; [|split; [exact Hsum|rewrite Hlast; now destruct (last scores)]].
  clear. intros z Hin. induction scores as [|x scores IH].
  - now apply elem_of_nil in Hin.
  - apply elem_of_cons in Hin as [<-|Hin].
    + change (numbers (Num z :: scores)) with (z :: numbers scores).
      cbn [foldr]. lia.
    + specialize (IH Hin). destruct x as [|y]; [exact IH|].
      change (numbers (Num y :: scores)) with (y :: numbers scores).
      cbn [foldr]. lia.
Qed.

(** * Properties of overlapping calls *)

(** ** Lists of calls and of actions *)

Lemma filter_insert_other {A} (P : A → Prop) `{∀ x, Decision (P x)}
    (l : list A) i x y :
  l !! i = Some x → ¬ P x → ¬ P y → filter P (<[i := y]> l) = filter P l.
Proof.
  revert i. induction l as [|h t IH]; intros [|i] Hi Hx Hy; try done.
  - cbn in Hi. injection Hi as ->. cbn [insert list_insert].
    rewrite !filter_cons. now rewrite !decide_False.
  - cbn in Hi. cbn [insert list_insert]. rewrite !filter_cons.
    change (list_insert i y t) with (<[i := y]> t).
    destruct (decide (P h)); [f_equal|]; now apply IH.
Qed.

Lemma filter_only {A} (P : A → Prop) `{∀ x, Decision (P x)} (l : list A) i x :
  l !! i = Some x → P x → (length (filter P l) ≤ 1)%nat → filter P l = [x].
Proof.
  intros Hi Hx Hlen.
  assert (Hin : x ∈ filter P l).
  { apply list_elem_of_filter. split; [done|]. eapply list_elem_of_lookup_2; eauto. }
  destruct (filter P l) as [|y [|z t]]; cbn in Hlen; [|  |lia].
  - now apply elem_of_nil in Hin.
  - apply list_elem_of_singleton in Hin. now subst.
Qed.

Lemma filter_insert_only {A} (P : A → Prop) `{∀ x, Decision (P x)}
    (l : list A) i x y :
  l !! i = Some x → P x → (length (filter P l) ≤ 1)%nat →
  filter P (<[i := y]> l) = if decide (P y) then [y] else [].
Proof.
  revert i. induction l as [|h t IH]; intros [|i] Hi Hx Hlen; try done.
  - cbn in Hi. injection Hi as ->. cbn [insert list_insert].
    rewrite filter_cons in Hlen. rewrite decide_True in Hlen by done.
    cbn in Hlen. assert (Ht : filter P t = []).
    { destruct (filter P t); [done|cbn in Hlen; lia]. }
    rewrite filter_cons, Ht. now destruct (decide (P y)).
  - cbn in Hi. cbn [insert list_insert].
    change (list_insert i y t) with (<[i := y]> t).
    rewrite filter_cons in Hlen. rewrite filter_cons.
    destruct (decide (P h)) as [Hh|Hh].
    + exfalso. cbn in Hlen.
      assert (Hin : x ∈ filter P t).
      { apply list_elem_of_filter. split; [done|]. eapply list_elem_of_lookup_2; eauto. }
      destruct (filter P t); [now apply elem_of_nil in Hin|cbn in Hlen; lia].
    + now apply IH.
Qed.

Lemma calls_on_add a call m :
  calls_on a (add_call call m)
  = calls_on a m ++ (if decide (call_object call = Some a) then [call] else []).
Proof.
  unfold calls_on, add_call. cbn [calls]. rewrite filter_app, filter_cons, filter_nil.
  now destruct (decide (call_object call = Some a)).
Qed.

Lemma actions_by_record a o x m :
  actions_by a (record o x m)
  = actions_by a m ++ (if decide (o = Some a) then [x] else []).
Proof.
  unfold actions_by, record. cbn [journal]. rewrite omap_app. f_equal.
  cbn. unfold by_object. cbn. now destruct (decide (o = Some a)).
Qed.

Lemma calls_on_set_other a i call call' m :
  calls m !! i = Some call →
  call_object call ≠ Some a → call_object call' ≠ Some a →
  calls_on a (set_call i call' m) = calls_on a m.
Proof.
  intros Hi Hc Hc'. unfold calls_on, set_call. cbn [calls].
  exact (filter_insert_other (λ call, call_object call = Some a) _ _ _ _ Hi Hc Hc').
Qed.

Lemma calls_on_set_same a i call call' m :
  calls m !! i = Some call → call_object call = Some a →
  (length (calls_on a m) ≤ 1)%nat →
  calls_on a (set_call i call' m)
  = if decide (call_object call' = Some a) then [call'] else [].
Proof.
  intros Hi Ha Hlen. unfold calls_on, set_call. cbn [calls].
  exact (filter_insert_only (λ call, call_object call = Some a) _ _ _ _ Hi Ha Hlen).
Qed.

Lemma calls_on_only a i call m :
  calls m !! i = Some call → call_object call = Some a →
  (length (calls_on a m) ≤ 1)%nat → calls_on a m = [call].
Proof.
  intros Hi Ha Hlen.
  exact (filter_only (λ call, call_object call = Some a) _ _ _ Hi Ha Hlen).
Qed.

Lemma phase_length p lg on : phase p lg on → (length on ≤ 1)%nat.
Proof.
  destruct on as [|x [|y on]]; cbn; [lia|lia|].
  destruct x as [| | | | |a [e|]|]; intros [].
Qed.

(** ** The actions of one processor *)

Lemma delivered_snoc c lg x :
  delivered c (lg ++ [x])
  = delivered c lg ++ match delivered_id c x with Some k => [k] | None => [] end.
Proof. rewrite delivered_app. reflexivity. Qed.

Lemma below_mono l l' c lg : below (Num l) c lg → l ≤ l' → below (Num l') c lg.
Proof. cbn. intros H Hle. eapply Forall_impl; [exact H|]. cbn. lia. Qed.

Lemma below_nil b c : below b c [].
Proof. destruct b; cbn; [done|constructor]. Qed.

Lemma below_quiet b c lg x :
  delivered_id c x = None → below b c lg → below b c (lg ++ [x]).
Proof.
  intros Hx. unfold below. rewrite delivered_snoc, Hx, app_nil_r. done.
Qed.

Lemma below_delivered l k c lg e :
  Number (ev_id e) = Num k → l < k → below (Num l) c lg →
  below (Num k) c (lg ++ [Dispatched c e true]).
Proof.
  intros Hid Hlt Hb. cbn. rewrite delivered_snoc.
  apply Forall_app. split.
  - eapply Forall_impl; [exact Hb|]. cbn. lia.
  - rewrite (delivered_id_ok _ _ _ Hid). repeat constructor. lia.
Qed.

Lemma ascending_nil : ascending [].
Proof. intros pre c e ok post H. now destruct pre. Qed.

Lemma ascending_snoc lg x :
  ascending lg →
  (∀ c e ok, x = Dispatched c e ok →
     ∃ k, Number (ev_id e) = Num k ∧ Forall (λ j, j < k) (delivered c lg)) →
  ascending (lg ++ [x]).
Proof.
  intros Hlg Hx pre c e ok post Heq.
  destruct (decide (post = [])) as [->|Hne].
  - apply app_inj_tail in Heq as [-> ->]. now apply (Hx c e ok).
  - destruct (exists_last Hne) as (post' & y & ->).
    rewrite app_comm_cons, app_assoc in Heq.
    apply app_inj_tail in Heq as [-> _]. eapply Hlg; eauto.
Qed.

Lemma about_snoc c lg x : Forall (about c) lg → about c x → Forall (about c) (lg ++ [x]).
Proof. intros. apply Forall_app. split; [done|]. now repeat constructor. Qed.

Lemma below_lt l k c lg : below (Num l) c lg → l < k → Forall (λ j, j < k) (delivered c lg).
Proof. cbn. intros H Hlt. eapply Forall_impl; [exact H|]. cbn. lia. Qed.

Lemma ascending_sorted lg c : ascending lg → StronglySorted Z.lt (delivered c lg).
Proof.
  induction lg as [|x lg IH] using rev_ind; intros Hasc; [constructor|].
  assert (Hlg : ascending lg).
  { intros pre c' e ok post Heq. apply (Hasc pre c' e ok (post ++ [x])).
    rewrite Heq, <- app_assoc. done. }
  rewrite delivered_snoc.
  destruct (delivered_id c x) as [k|] eqn:Hk; [|rewrite app_nil_r; auto].
  apply StronglySorted_app. split; [|split; [auto|repeat constructor]].
  intros i j Hi Hj. apply list_elem_of_singleton in Hj as ->.
  destruct x as [e ok|c' e ok|]; try discriminate.
  destruct ok; [|discriminate]. cbn in Hk.
  destruct (String.eqb c c') eqn:Hc; [|discriminate].
  apply String.eqb_eq in Hc as <-.
  destruct (Hasc lg c e true [] eq_refl) as (k' & Hid & Hall).
  rewrite Hid in Hk. injection Hk as <-.
  rewrite Forall_forall in Hall. now apply Hall.
Qed.

(** ** The code between two awaits *)

Lemma below_empty b c lg : delivered c lg = [] → below b c lg.
Proof. intros H. destruct b; cbn; rewrite H; [done|constructor]. Qed.

Lemma steady_new c l : steady (new_processor c l) [].
Proof.
  split; [|split; [|split; [|split]]].
  - intros k e Hk. cbn in Hk. now rewrite lookup_empty in Hk.
  - intros k e Hk. cbn in Hk. now rewrite lookup_empty in Hk.
  - intros l0 Hl. cbn in Hl. injection Hl as <-. cbn. lia.
  - apply ascending_nil.
  - constructor.
Qed.

Lemma steady_enqueue n event p lg :
  Number (ev_id event) = Num n → steady p lg → steady (enqueue (Num n) event p) lg.
Proof.
  intros Hid (Hkm & Hkl & Hmo & Hasc & Hab). split; [|split; [|split; [|split]]].
  - now apply enqueue_keys_match.
  - now apply enqueue_keys_le.
  - now apply enqueue_any_marks_ordered.
  - done.
  - now rewrite enqueue_cid.
Qed.

Lemma steady_set_processing b p lg : steady p lg → steady (set_processing b p) lg.
Proof. intros H. exact H. Qed.

Lemma steady_dequeue n p lg :
  steady p lg → steady (set_eventsMap (delete n (eventsMap p)) p) lg.
Proof.
  intros (Hkm & Hkl & Hmo & Hasc & Hab).
  assert (Hsub : ∀ j x, delete n (eventsMap p) !! j = Some x → eventsMap p !! j = Some x).
  { intros j x. rewrite lookup_delete. case_decide; [done|auto]. }
  split; [|split; [|split; [|split]]].
  - intros k e Hk. apply Hsub in Hk. eauto.
  - intros k e Hk. apply Hsub in Hk. exact (Hkl k e Hk).
  - exact Hmo.
  - exact Hasc.
  - exact Hab.
Qed.

Lemma steady_doneProcessing p lg : steady p lg → steady (doneProcessing p) lg.
Proof.
  intros (Hkm & Hkl & Hmo & Hasc & Hab).
  split; [|split; [|split; [|split]]].
  - intros k e Hk. cbn in Hk. now rewrite lookup_empty in Hk.
  - intros k e Hk. cbn in Hk. now rewrite lookup_empty in Hk.
  - exact Hmo.
  - exact Hasc.
  - exact Hab.
Qed.

Lemma steady_snoc p lg x :
  steady p lg → about (cid p) x →
  (∀ c e ok, x = Dispatched c e ok →
     ∃ k, Number (ev_id e) = Num k ∧ Forall (λ j, j < k) (delivered c lg)) →
  steady p (lg ++ [x]).
Proof.
  intros (Hkm & Hkl & Hmo & Hasc & Hab) Hx Hd.
  split; [|split; [|split; [|split]]].
  - exact Hkm.
  - exact Hkl.
  - exact Hmo.
  - now apply ascending_snoc.
  - now apply about_snoc.
Qed.

Lemma phase_enqueue n event p lg call :
  is_Lookback call = false → phase p lg [call] →
  phase (enqueue (Num n) event p) lg [call].
Proof.
  intros Hcall. pose proof (enqueue_largest n event p) as Hlg.
  destruct call as [| | a k t|a k r|a e|a [e|]|]; cbn [phase];
    rewrite ?enqueue_processing, ?enqueue_last, ?enqueue_cid; try done.
  - intros (? & ? & l & ? & ? & ?). split; [done|]. split; [done|].
    exists l. split; [done|]. split; [done|]. lia.
  - intros (? & ? & (l & ? & ? & ?) & ?). split; [done|]. split; [done|].
    split; [|done]. exists l. split; [done|]. split; [done|]. lia.
  - intros (? & ? & l & k & ? & ? & ? & ?). split; [done|]. split; [done|].
    exists l, k. split; [done|]. split; [done|]. split; [done|]. lia.
  - intros (? & l & k & ? & ? & ? & ? & ?). split; [done|].
    exists l, k. split; [done|]. split; [done|]. split; [done|]. split; [lia|done].
Qed.

Lemma phase_busy p lg call :
  is_Lookback call = false → phase p lg [call] → processing p = true.
Proof.
  destruct call as [| | a k t|a k r|a e|a [e|]|]; cbn [phase]; try done.
  - now intros _ (? & _).
  - now intros _ (? & _).
  - now intros _ (? & _).
  - now intros _ (? & _).
  - now intros _ (? & _).
Qed.

Lemma begin_processNextEvent_sound a n p lg l p' call :
  steady p lg → processing p = true → lastEventIdProcessed p = Num l → l < n →
  below (Num l) (cid p) lg →
  begin_processNextEvent a (Num n) p = (p', call) →
  steady p' lg ∧ phase p' lg [call] ∧ call_object call = Some a
  ∧ is_Lookback call = false
  ∧ cid p' = cid p ∧ lastEventIdProcessed p' = Num l
  ∧ largestEventIdInQueue p' = largestEventIdInQueue p.
Proof.
  intros Hst Hpr Hl Hln Hb. unfold begin_processNextEvent. cbn [dequeue].
  pose proof Hst as (Hkm & Hkl & _).
  destruct (eventsMap p !! n) as [e|] eqn:He.
  - intros [= <- <-]. split; [now apply steady_dequeue|].
    split; [|done]. cbn. split; [done|]. rewrite Hl. split; [done|].
    exists l, n. split; [done|]. split; [eauto|]. split; [done|]. eauto.
  - change (largestEventIdInQueue (set_eventsMap _ p)) with (largestEventIdInQueue p).
    destruct (js_gt (Num (largestEventIdInQueue p)) (Num n)) eqn:Hg.
    + apply js_gt_Num in Hg. intros [= <- <-].
      split; [now apply steady_dequeue|]. split; [|done].
      cbn. split; [done|]. rewrite Hl. split; [done|]. eauto.
    + intros [= <- <-]. split; [now apply steady_dequeue|]. split; [|done].
      cbn. split; [done|]. now rewrite Hl.
Qed.

Lemma begin_processEvents_sound a p lg p' call :
  steady p lg → processing p = true →
  below (lastEventIdProcessed p) (cid p) lg →
  begin_processEvents a p = (p', call) →
  steady p' lg
  ∧ phase p' lg (if decide (call_object call = Some a) then [call] else [])
  ∧ (call_object call = Some a ∨ call_object call = None)
  ∧ is_Lookback call = false
  ∧ cid p' = cid p ∧ lastEventIdProcessed p' = lastEventIdProcessed p
  ∧ largestEventIdInQueue p' = largestEventIdInQueue p.
Proof.
  intros Hst Hpr Hb. unfold begin_processEvents.
  destruct (size (eventsMap p) <? 1)%nat.
  { intros [= <- <-]. split; [now apply steady_doneProcessing|].
    cbn. split; [|auto]. done. }
  destruct (lastEventIdProcessed p) as [|l] eqn:Hl; cbn [js_add].
  - unfold begin_processNextEvent. cbn [dequeue]. intros [= <- <-].
    split; [done|]. cbn. rewrite decide_True by done.
    split; [cbn; now rewrite Hl|]. auto 10.
  - intros Hrun.
    destruct (begin_processNextEvent_sound a (l + 1) p lg l p' call)
      as (H1 & H2 & H3 & H4 & H5 & H6 & H7); try done; [lia|].
    rewrite decide_True by done. auto 10.
Qed.

Lemma enqueue_and_begin_idle a n event p lg p' call :
  Number (ev_id event) = Num n → steady p lg → processing p = false →
  below (lastEventIdProcessed p) (cid p) lg →
  enqueue_and_begin a n event p = (p', call) →
  steady p' lg
  ∧ phase p' lg (if decide (call_object call = Some a) then [call] else [])
  ∧ (call_object call = Some a ∨ call_object call = None)
  ∧ is_Lookback call = false
  ∧ cid p' = cid p ∧ lastEventIdProcessed p' = lastEventIdProcessed p
  ∧ largestEventIdInQueue p' = Z.max (largestEventIdInQueue p) n.
Proof.
  intros Hid Hst Hidle Hb. unfold enqueue_and_begin.
  rewrite enqueue_processing, Hidle. cbn [negb]. intros Hrun.
  apply begin_processEvents_sound with (lg := lg) in Hrun
    as (H1 & H2 & H3 & H4 & H5 & H6 & H7).
  - unfold set_processing in H5, H6, H7.
    cbn [cid lastEventIdProcessed largestEventIdInQueue] in H5, H6, H7.
    rewrite enqueue_cid in H5. rewrite enqueue_last in H6.
    rewrite enqueue_largest in H7. auto 10.
  - apply steady_set_processing. now apply steady_enqueue.
  - done.
  - fields. now rewrite enqueue_last, enqueue_cid.
Qed.

Lemma enqueue_and_begin_busy a n event p :
  processing p = true →
  enqueue_and_begin a n event p = (enqueue (Num n) event p, Finished Resolved).
Proof. intros Hpr. unfold enqueue_and_begin. now rewrite enqueue_processing, Hpr. Qed.

(** ** Every step keeps the state sound *)

Lemma Wf_same m m' :
  (∀ a, objects m' !! a = objects m !! a) →
  (∀ a, calls_on a m' = calls_on a m) →
  (∀ a, actions_by a m' = actions_by a m) →
  queue_cidMap m' = queue_cidMap m →
  Wf m → Wf m' ∧ keeps_marks m m'.
Proof.
  intros Ho Hc Ha Hq [Hs Hl]. split; [split|].
  - intros a. rewrite Ho, Hc, Ha. apply Hs.
  - intros c a. rewrite Hq, Ho, Hc. apply Hl.
  - intros a p Hp Hno. exists p. rewrite Ho, Hc. split; [done|]. split; [done|].
    split; [apply not_behind_refl|done].
Qed.

Lemma Wf_touch a m m' :
  Wf m → same_elsewhere a m m' →
  sound (objects m' !! a) (calls_on a m') (actions_by a m') →
  (∀ c a', queue_cidMap m' !! c = Some a' → a' ≠ a → queue_cidMap m !! c = Some a') →
  (∀ c, queue_cidMap m' !! c = Some a → listed c (objects m' !! a) (calls_on a m')) →
  Wf m'.
Proof.
  intros [Hs Hl] Hsame Hsound Hq Hlisted. split.
  - intros a'. destruct (decide (a' = a)) as [->|Hne]; [done|].
    destruct (Hsame a' Hne) as (-> & -> & ->). apply Hs.
  - intros c a' Hc. destruct (decide (a' = a)) as [->|Hne]; [now apply Hlisted|].
    destruct (Hsame a' Hne) as (-> & -> & _). apply Hl. now apply Hq.
Qed.

Lemma keeps_touch a m m' :
  same_elsewhere a m m' →
  (∀ p, objects m !! a = Some p →
        Forall (λ call, is_Lookback call = false) (calls_on a m) →
        ∃ p', objects m' !! a = Some p' ∧ cid p' = cid p ∧ not_behind p p'
              ∧ Forall (λ call, is_Lookback call = false) (calls_on a m')) →
  keeps_marks m m'.
Proof.
  intros Hsame Ha a' p Hp Hno. destruct (decide (a' = a)) as [->|Hne]; [auto|].
  destruct (Hsame a' Hne) as (Ho & Hc & _). exists p. rewrite Ho, Hc.
  split; [done|]. split; [done|]. split; [apply not_behind_refl|done].
Qed.

Lemma not_behind_marks p p' :
  lastEventIdProcessed p' = lastEventIdProcessed p →
  largestEventIdInQueue p ≤ largestEventIdInQueue p' → not_behind p p'.
Proof.
  intros Hl Hg. split; [done|]. rewrite Hl.
  destruct (lastEventIdProcessed p) as [|l]; [done|]. exists l. split; [done|lia].
Qed.

Lemma lookup_allocate (objs : list ConversationEventsProcessor) p a :
  a ≠ length objs → (objs ++ [p]) !! a = objs !! a.
Proof.
  intros Hne. destruct (decide (a < length objs)%nat) as [Hlt|Hge].
  - now apply lookup_app_l.
  - rewrite !lookup_ge_None_2; [done|lia|rewrite length_app; cbn; lia].
Qed.

Lemma lookup_allocated (objs : list ConversationEventsProcessor) p :
  (objs ++ [p]) !! length objs = Some p.
Proof. rewrite lookup_app_r by lia. now rewrite Nat.sub_diag. Qed.

Lemma arrive_Wf event m m' :
  Wf m → arrive event m = Some m' → Wf m' ∧ keeps_marks m m'.
Proof.
  intros Hwf. unfold arrive.
  assert (Hforward : ∀ m', Some (add_call (Forwarding event) m) = Some m' →
            Wf m' ∧ keeps_marks m m').
  { intros m0 [= <-]. apply Wf_same; try done.
    intros a. rewrite calls_on_add. cbn. apply app_nil_r. }
  destruct (negb (truthy (ev_cid event)) || isNaN (Number (ev_id event)));
    [apply Hforward|].
  destruct (ev_cid event) as [c|]; [|apply Hforward].
  destruct (Number (ev_id event)) as [|n] eqn:Hid; [apply Hforward|].
  clear Hforward. destruct (queue_cidMap m !! c) as [a|] eqn:Hc.
  - (* the conversation has a processor *)
    destruct (objects m !! a) as [p|] eqn:Hp; [|discriminate].
    destruct (enqueue_and_begin a n event p) as [p' call] eqn:Hb. intros [= <-].
    pose proof (wf_sound m Hwf a) as Hs. rewrite Hp in Hs. destruct Hs as [Hst Hph].
    pose proof (wf_listed m Hwf c a Hc) as Hli. rewrite Hp in Hli.
    destruct Hli as [Hcid Hno].
    assert (Hlt : (a < length (objects m))%nat) by (eapply lookup_lt_Some; eauto).
    assert (Hsame : same_elsewhere a m (add_call call (store a p' m))).
    { intros a' Hne. split; [|split].
      - cbn. apply list_lookup_insert_ne. congruence.
      - rewrite calls_on_add.
        assert (call_object call ≠ Some a').
        { destruct (calls_on a m) as [|c0 [|c1 on]] eqn:Hon.
          - cbn in Hph. destruct Hph as (Hidle & _ & Hbl).
            destruct (enqueue_and_begin_idle a n event p _ p' call Hid Hst Hidle Hbl Hb)
              as (_ & _ & [Ho|Ho] & _); congruence.
          - apply Forall_cons in Hno as [Hc0 _].
            rewrite (enqueue_and_begin_busy a n event p) in Hb
              by (eapply phase_busy; eauto).
            assert (call = Finished Resolved) as -> by congruence. done.
          - destruct c0 as [| | | | |? [?|]|]; destruct Hph. }
        rewrite decide_False by done. apply app_nil_r.
      - reflexivity. }
    assert (Hnew : steady p' (actions_by a m)
              ∧ phase p' (actions_by a m)
                  (calls_on a m ++
                     (if decide (call_object call = Some a) then [call] else []))
              ∧ Forall (λ call, is_Lookback call = false)
                  (calls_on a m ++
                     (if decide (call_object call = Some a) then [call] else []))
              ∧ cid p' = cid p ∧ not_behind p p').
    { destruct (calls_on a m) as [|c0 [|c1 on]] eqn:Hon.
      - cbn in Hph. destruct Hph as (Hidle & _ & Hbl).
        destruct (enqueue_and_begin_idle a n event p _ p' call Hid Hst Hidle Hbl Hb)
          as (H1 & H2 & H3 & H4 & H5 & H6 & H7).
        split; [done|]. split; [done|]. split.
        { cbn. destruct (decide _); repeat constructor. done. }
        split; [done|]. apply not_behind_marks; [done|lia].
      - apply Forall_cons in Hno as [Hc0 _].
        rewrite (enqueue_and_begin_busy a n event p) in Hb
          by (eapply phase_busy; eauto).
        assert (call = Finished Resolved) as -> by congruence.
        assert (p' = enqueue (Num n) event p) as -> by congruence.
        rewrite decide_False by done. rewrite app_nil_r.
        split; [now apply steady_enqueue|]. split; [now apply phase_enqueue|].
        split; [now repeat constructor|]. split; [apply enqueue_cid|].
        apply not_behind_marks; [apply enqueue_last|]. rewrite enqueue_largest. lia.
      - destruct c0 as [| | | | |? [?|]|]; destruct Hph. }
    destruct Hnew as (Hst' & Hph' & Hno' & Hcid' & Hnb).
    assert (Hobj : objects (add_call call (store a p' m)) !! a = Some p').
    { cbn. now apply list_lookup_insert_eq. }
    split.
    + apply (Wf_touch a m); [done|done| | |].
      * rewrite Hobj, calls_on_add. done.
      * intros c0 a' Hc0 _. exact Hc0.
      * intros c0 Hc0. rewrite Hobj, calls_on_add.
        pose proof (wf_listed m Hwf c0 a Hc0) as Hli. rewrite Hp in Hli.
        destruct Hli as [Hcid0 _]. split; [congruence|done].
    + apply (keeps_touch a); [done|]. intros p0 Hp0 _.
      assert (p0 = p) as -> by congruence. exists p'. rewrite calls_on_add. done.
  - (* the conversation has none *)
    set (a := length (objects m)).
    assert (Hfresh : objects m !! a = None) by (apply lookup_ge_None_2; unfold a; lia).
    pose proof (wf_sound m Hwf a) as Hs. rewrite Hfresh in Hs. destruct Hs as [Hon Hlg].
    assert (Hunlisted : ∀ c0, queue_cidMap m !! c0 ≠ Some a).
    { intros c0 Hc0. pose proof (wf_listed m Hwf c0 a Hc0) as Hli.
      now rewrite Hfresh in Hli. }
    destruct (is_transfer_trigger event).
    + intros [= <-].
      set (call := Lookback event c n a _ _).
      set (m1 := add_call call (allocate (new_processor c (n - 1)) m)).
      assert (Hsame : same_elsewhere a m m1).
      { intros a' Hne. split; [|split].
        - cbn. now apply lookup_allocate.
        - unfold m1. rewrite calls_on_add. cbn.
          rewrite decide_False by congruence. apply app_nil_r.
        - reflexivity. }
      split.
      * apply (Wf_touch a m); [done|done| | |].
        -- unfold m1. rewrite calls_on_add. cbn [objects add_call allocate].
           unfold a at 1. rewrite lookup_allocated.
           change (calls_on a (allocate _ m)) with (calls_on a m).
           change (actions_by a (add_call _ (allocate _ m))) with (actions_by a m).
           rewrite Hon, Hlg. cbn. rewrite decide_True by done.
           split; [apply steady_new|]. done.
        -- intros c0 a' Hc0 _. exact Hc0.
        -- intros c0 Hc0. now apply Hunlisted in Hc0.
      * apply (keeps_touch a); [done|]. intros p0 Hp0. congruence.
    + destruct (enqueue_and_begin a n event (new_processor c (n - 1)))
        as [p' call] eqn:Hb. intros [= <-].
      destruct (enqueue_and_begin_idle a n event _ [] p' call Hid
                  (steady_new c (n - 1)) eq_refl (below_nil _ _) Hb)
        as (H1 & H2 & H3 & H4 & H5 & H6 & H7).
      set (m1 := add_call call (register c a (allocate p' m))).
      assert (Hsame : same_elsewhere a m m1).
      { intros a' Hne. split; [|split].
        - cbn. now apply lookup_allocate.
        - unfold m1. rewrite calls_on_add.
          rewrite decide_False by (destruct H3; congruence). apply app_nil_r.
        - reflexivity. }
      assert (Hobj : objects m1 !! a = Some p') by apply lookup_allocated.
      assert (Hcalls : calls_on a m1
                = if decide (call_object call = Some a) then [call] else []).
      { unfold m1. rewrite calls_on_add.
        change (calls_on a (register c a (allocate p' m))) with (calls_on a m).
        now rewrite Hon. }
      split.
      * apply (Wf_touch a m); [done|done| | |].
        -- rewrite Hobj, Hcalls.
           change (actions_by a m1) with (actions_by a m). rewrite Hlg. done.
        -- intros c0 a' Hc0 Hne. cbn in Hc0.
           rewrite lookup_insert in Hc0. case_decide; [congruence|done].
        -- intros c0 Hc0. rewrite Hobj, Hcalls. cbn in Hc0.
           rewrite lookup_insert in Hc0. case_decide as Hcc.
           ++ subst c0. split; [exact H5|].
              destruct (decide _); repeat constructor. done.
           ++ now apply Hunlisted in Hc0.
      * apply (keeps_touch a); [done|]. intros p0 Hp0. congruence.
Qed.

Lemma omap_by_object a a' (extra : list Action) :
  omap (by_object a') ((λ x, (Some a, x)) <$> extra)
  = if decide (a' = a) then extra else [].
Proof.
  induction extra as [|x extra IH]; [now destruct (decide (a' = a))|].
  cbn. unfold by_object at 1. cbn.
  destruct (decide (Some a = Some a')) as [[= ->]|Hne].
  - rewrite decide_True in * by done. cbn. now rewrite IH.
  - destruct (decide (a' = a)) as [->|_]; [done|]. exact IH.
Qed.

(** A call suspended on the processor at [a] goes on: the processor becomes
    [p'], the call [call'], and the processor has made the actions [extra]. *)
Lemma resume_touch m i call a p p' call' extra m' :
  Wf m → calls m !! i = Some call → call_object call = Some a →
  objects m !! a = Some p →
  objects m' = <[a := p']> (objects m) →
  calls m' = <[i := call']> (calls m) →
  journal m' = journal m ++ ((λ x, (Some a, x)) <$> extra) →
  (queue_cidMap m' = queue_cidMap m
   ∨ queue_cidMap m' = <[cid p' := a]> (queue_cidMap m)) →
  (call_object call' = Some a ∨ call_object call' = None) →
  is_Lookback call' = false →
  steady p' (actions_by a m ++ extra) →
  phase p' (actions_by a m ++ extra)
    (if decide (call_object call' = Some a) then [call'] else []) →
  (is_Lookback call = false → cid p' = cid p ∧ not_behind p p') →
  Wf m' ∧ keeps_marks m m'.
Proof.
  intros Hwf Hcall Ha Hp Hobjs Hcalls Hjournal Hq Hobj' Hnl Hst Hph Hkeep.
  pose proof (wf_sound m Hwf a) as Hs. rewrite Hp in Hs. destruct Hs as [_ Hph0].
  pose proof (phase_length _ _ _ Hph0) as Hlen.
  pose proof (calls_on_only a i call m Hcall Ha Hlen) as Hon.
  assert (Hlt : (a < length (objects m))%nat) by (eapply lookup_lt_Some; eauto).
  assert (Hsame : same_elsewhere a m m').
  { intros a' Hne. split; [|split].
    - rewrite Hobjs. apply list_lookup_insert_ne. congruence.
    - unfold calls_on. rewrite Hcalls.
      apply (filter_insert_other (λ call, call_object call = Some a') _ i call call');
        [done|congruence|destruct Hobj'; congruence].
    - unfold actions_by. rewrite Hjournal, omap_app, omap_by_object.
      rewrite decide_False by done. apply app_nil_r. }
  assert (Hobj : objects m' !! a = Some p').
  { rewrite Hobjs. now apply list_lookup_insert_eq. }
  assert (Hon' : calls_on a m'
            = if decide (call_object call' = Some a) then [call'] else []).
  { unfold calls_on. rewrite Hcalls.
    exact (filter_insert_only (λ call, call_object call = Some a) _ _ _ _
             Hcall Ha Hlen). }
  assert (Hlg' : actions_by a m' = actions_by a m ++ extra).
  { unfold actions_by. rewrite Hjournal, omap_app, omap_by_object.
    now rewrite decide_True. }
  assert (Hnl' : Forall (λ call, is_Lookback call = false)
            (if decide (call_object call' = Some a) then [call'] else [])).
  { destruct (decide _); repeat constructor. done. }
  split.
  - apply (Wf_touch a m); [done|done| | |].
    + rewrite Hobj, Hon', Hlg'. done.
    + intros c a' Hc Hne. destruct Hq as [Hq|Hq]; rewrite Hq in Hc; [done|].
      rewrite lookup_insert in Hc. case_decide; [congruence|done].
    + intros c Hc. rewrite Hobj, Hon'. split; [|done].
      assert (Hold : queue_cidMap m !! c = Some a → cid p' = c).
      { intros Hc0. pose proof (wf_listed m Hwf c a Hc0) as Hli.
        rewrite Hp, Hon in Hli. destruct Hli as [Hcid Hno].
        apply Forall_cons in Hno as [Hno _].
        destruct (Hkeep Hno) as [Hcid' _]. congruence. }
      destruct Hq as [Hq|Hq]; rewrite Hq in Hc; [auto|].
      rewrite lookup_insert in Hc. case_decide; [done|auto].
  - apply (keeps_touch a); [done|]. intros p0 Hp0 Hno.
    assert (p0 = p) as -> by congruence. rewrite Hon in Hno.
    apply Forall_cons in Hno as [Hno _]. exists p'. split; [done|].
    destruct (Hkeep Hno) as [? ?]. rewrite Hon'. done.
Qed.

Lemma steady_scanned event events c n :
  steady (scanned event events c n) [].
Proof.
  destruct (scanned_frame event events c n) as (_ & _ & _ & Hkm).
  split; [done|]. split; [apply scanned_keys_le|].
  split; [apply scanned_marks_ordered|]. split; [apply ascending_nil|constructor].
Qed.

Lemma steady_merged n items p p' lg :
  merged n items p p' → steady p lg → steady p' lg.
Proof.
  intros Hm (Hkm & Hkl & Hmo & Hasc & Hab). split; [|split; [|split; [|split]]].
  - eapply merged_keys_match; eauto.
  - eapply merged_keys_le; eauto.
  - intros l Hl. rewrite (mg_last _ _ _ _ Hm) in Hl. apply Hmo in Hl.
    pose proof (mg_largest _ _ _ _ Hm). lia.
  - done.
  - now rewrite (mg_cid _ _ _ _ Hm).
Qed.

Lemma resume_Wf i x m m' :
  Wf m → resume i x m = Some m' → Wf m' ∧ keeps_marks m m'.
Proof.
  intros Hwf. unfold resume.
  destruct (calls m !! i) as [call|] eqn:Hcall; [|discriminate].
  destruct call as [event|event c n a s t|a n t|a n r|a e|a r|out]; [| | | | | |discriminate].
  - (* the callback of the queue has settled *)
    destruct x as [ok| |]; [|discriminate..]. intros [= <-].
    apply Wf_same; try done.
    + intros a.
      refine (calls_on_set_other a i (Forwarding event) _
                (record None (Forwarded event ok) m) Hcall _ _); done.
    + intros a.
      change (actions_by a (record None (Forwarded event ok) m) = actions_by a m).
      rewrite actions_by_record. rewrite decide_False by done. apply app_nil_r.
  - (* the reply to the lookback request *)
    destruct x as [|items|]; [discriminate| |discriminate].
    destruct (objects m !! a) as [p|] eqn:Hp; [|discriminate].
    pose proof (wf_sound m Hwf a) as Hs. rewrite Hp in Hs. destruct Hs as [Hst Hph].
    rewrite (calls_on_only a i _ m Hcall eq_refl (phase_length _ _ _ Hph)) in Hph.
    destruct Hph as (-> & Hlg & Hid).
    destruct items as [events|].
    + destruct (fold_left (scan_transfer event) events (false, new_processor c (n - 1)))
        as [found ps] eqn:Hscan.
      assert (Hps : ps = scanned event events c n).
      { unfold scanned. now rewrite Hscan. }
      destruct (enqueue_and_begin a n event ps) as [p' call'] eqn:Hb. intros [= <-].
      destruct (scanned_frame event events c n) as (Hc & Hidle & _ & _).
      rewrite <- Hps in Hc, Hidle.
      assert (Hst1 : steady ps ([] ++ [Fetched c s t (Some events)])).
      { apply steady_snoc; [rewrite Hps; apply steady_scanned|now rewrite Hc|done]. }
      destruct (enqueue_and_begin_idle a n event ps _ p' call' Hid Hst1 Hidle
                  (below_empty _ (cid ps) ([] ++ [Fetched c s t (Some events)])
                     eq_refl) Hb)
        as (H1 & H2 & H3 & H4 & H5 & H6 & H7).
      eapply (resume_touch m i _ a _ p' call' [Fetched c s t (Some events)]);
        try done.
      * right. cbn. now rewrite H5, Hc.
      * now rewrite Hlg.
      * now rewrite Hlg.
    + intros [= <-].
      eapply (resume_touch m i _ a _ (new_processor c (n - 1)) (Finished Rejected)
                [Fetched c s t None]); try done.
      * cbn. symmetry. now apply list_insert_id.
      * now left.
      * now right.
      * rewrite Hlg. apply steady_snoc; [apply steady_new|done|done].
      * rewrite Hlg. cbn. split; [done|]. split; [done|constructor].
  - (* the reply to the request for a missing id *)
    destruct x as [|items|]; [discriminate| |discriminate].
    destruct (objects m !! a) as [p|] eqn:Hp; [|discriminate].
    pose proof (wf_sound m Hwf a) as Hs. rewrite Hp in Hs. destruct Hs as [Hst Hph].
    rewrite (calls_on_only a i _ m Hcall eq_refl (phase_length _ _ _ Hph)) in Hph.
    destruct Hph as (Hbusy & Hbl & l & Hl & Hln & Hng).
    assert (Hmerge : ∀ found p',
              match items with
              | Some eventsList =>
                  fold_left (merge_fetched n) eventsList (None, p)
              | None => (None, p)
              end = (found, p') →
              merged n (reply_items items) p p'
              ∧ ∀ e0, found = Some e0 → Number (ev_id e0) = Num n).
    { intros found p'. destruct items as [eventsList|].
      - intros Hf. apply merge_fold in Hf as (Hm & Hfound & _).
        split; [done|]. intros e0 ->.
        destruct Hfound as [[=]|(e1 & _ & [= ->] & Hid)]. now rewrite Number_set_cid.
      - intros [= <- <-]. split; [apply merged_refl|done]. }
    destruct (match items with Some _ => _ | None => _ end) as [found p'].
    destruct (Hmerge found p' eq_refl) as [Hm Hfound]. intros [= <-].
    pose proof (mg_cid _ _ _ _ Hm) as Hc. pose proof (mg_last _ _ _ _ Hm) as Hl'.
    pose proof (mg_largest _ _ _ _ Hm) as Hg'.
    eapply (resume_touch m i _ a p p' (Found a n found) [Fetched (cid p) n t items]);
      try done.
    + now left.
    + now left.
    + apply steady_snoc; [eapply steady_merged; eauto|now rewrite Hc|done].
    + rewrite ?decide_True by done. cbn [phase]. rewrite Hl', Hc.
      split; [rewrite (mg_processing _ _ _ _ Hm); done|].
      split; [now apply below_quiet|]. split; [|done].
      exists l. split; [done|]. split; [done|lia].
    + intros _. split; [done|]. now apply not_behind_marks.
  - (* the result of the request has been merged *)
    destruct x as [| |]; [discriminate|discriminate|].
    destruct (objects m !! a) as [p|] eqn:Hp; [|discriminate].
    pose proof (wf_sound m Hwf a) as Hs. rewrite Hp in Hs. destruct Hs as [Hst Hph].
    rewrite (calls_on_only a i _ m Hcall eq_refl (phase_length _ _ _ Hph)) in Hph.
    destruct Hph as (Hbusy & Hbl & (l & Hl & Hln & Hng) & Hfound).
    destruct r as [e|].
    + intros [= <-].
      eapply (resume_touch m i _ a p p (Dispatching a e) []); try done.
      * cbn. symmetry. now apply list_insert_id.
      * cbn. symmetry. apply app_nil_r.
      * now left.
      * now left.
      * now rewrite app_nil_r.
      * rewrite app_nil_r. rewrite ?decide_True by done. cbn [phase].
        split; [done|]. split; [done|]. exists l, n.
        split; [done|]. split; [auto|]. split; [done|lia].
      * intros _. split; [done|apply not_behind_refl].
    + destruct (begin_processNextEvent a (Num (n + 1)) p) as [p' call'] eqn:Hb.
      intros [= <-]. rewrite Hl in Hbl.
      destruct (begin_processNextEvent_sound a (n + 1) p _ l p' call' Hst Hbusy Hl
                  ltac:(lia) Hbl Hb)
        as (H1 & H2 & H3 & H4 & H5 & H6 & H7).
      eapply (resume_touch m i _ a p p' call' []); try done.
      * cbn. symmetry. apply app_nil_r.
      * now left.
      * now left.
      * now rewrite app_nil_r.
      * rewrite app_nil_r. now rewrite decide_True.
      * intros _. split; [done|]. apply not_behind_marks; [congruence|lia].
  - (* the handler has settled *)
    destruct x as [ok| |]; [|discriminate..].
    destruct (objects m !! a) as [p|] eqn:Hp; [|discriminate].
    pose proof (wf_sound m Hwf a) as Hs. rewrite Hp in Hs. destruct Hs as [Hst Hph].
    rewrite (calls_on_only a i _ m Hcall eq_refl (phase_length _ _ _ Hph)) in Hph.
    destruct Hph as (Hbusy & Hbl & l & k & Hl & Hid & Hlk & Hkg).
    intros [= <-]. rewrite Hl in Hbl.
    eapply (resume_touch m i _ a p p (Returning a (if ok then Some e else None))
              [Dispatched (cid p) e ok]); try done.
    + cbn. symmetry. now apply list_insert_id.
    + now left.
    + now left.
    + apply steady_snoc; [done|done|].
      intros c e0 ok0 [= <- <- <-]. exists k. split; [done|].
      now apply (below_lt l).
    + rewrite ?decide_True by done. cbn [phase]. destruct ok.
      * split; [done|]. exists l, k. split; [done|]. split; [done|].
        split; [done|]. split; [done|]. now apply (below_delivered l).
      * split; [done|]. rewrite Hl. now apply below_quiet.
    + intros _. split; [done|apply not_behind_refl].
  - (* [processNextEvent] has returned *)
    destruct x as [| |]; [discriminate|discriminate|].
    destruct (objects m !! a) as [p|] eqn:Hp; [|discriminate].
    pose proof (wf_sound m Hwf a) as Hs. rewrite Hp in Hs. destruct Hs as [Hst Hph].
    rewrite (calls_on_only a i _ m Hcall eq_refl (phase_length _ _ _ Hph)) in Hph.
    destruct r as [e|].
    + destruct Hph as (Hbusy & l & k & Hl & Hid & Hlk & Hkg & Hbl).
      rewrite Hid.
      destruct (begin_processEvents a (set_lastEventIdProcessed (Num k) p))
        as [p' call'] eqn:Hb.
      intros [= <-].
      assert (Hst1 : steady (set_lastEventIdProcessed (Num k) p) (actions_by a m)).
      { destruct Hst as (Hkm & Hkl & Hmo & Hasc & Hab).
        split; [done|]. split; [done|]. split; [|done].
        intros l0 [= <-]. done. }
      destruct (begin_processEvents_sound a _ _ p' call' Hst1 Hbusy Hbl Hb)
        as (H1 & H2 & H3 & H4 & H5 & H6 & H7).
      eapply (resume_touch m i _ a p p' call' []); try done.
      * cbn. symmetry. apply app_nil_r.
      * now left.
      * now rewrite app_nil_r.
      * now rewrite app_nil_r.
      * intros _. split; [done|]. split; [cbn in H7; lia|].
        rewrite Hl. exists k. split; [done|lia].
    + destruct Hph as (Hbusy & Hbl). intros [= <-].
      eapply (resume_touch m i _ a p (doneProcessing p) (Finished Resolved) []);
        try done.
      * cbn. symmetry. apply app_nil_r.
      * now left.
      * now right.
      * rewrite app_nil_r. now apply steady_doneProcessing.
      * rewrite app_nil_r. cbn. done.
      * intros _. split; [done|]. now apply not_behind_marks.
Qed.

Lemma step_Wf l m m' : Wf m → step l m = Some m' → Wf m' ∧ keeps_marks m m'.
Proof. destruct l as [event|i x]; [apply arrive_Wf|apply resume_Wf]. Qed.

Lemma Wf_init : Wf Machine_init.
Proof.
  split.
  - intros a. cbn. rewrite lookup_nil. done.
  - intros c a Hc. cbn in Hc. now rewrite lookup_empty in Hc.
Qed.

Lemma run_Wf ls : ∀ m m', Wf m → run ls m = Some m' → Wf m'.
Proof.
  induction ls as [|l ls IH]; intros m m' Hwf Hrun.
  - now injection Hrun as <-.
  - cbn [run] in Hrun. destruct (step l m) as [m1|] eqn:Hstep; [|discriminate].
    apply (IH m1); [|done]. now apply (step_Wf l m).
Qed.

(** ** Runs *)

Lemma step_tagged l m m' :
  step l m = Some m' → Forall tagged (journal m) → Forall tagged (journal m').
Proof.
  intros Hstep Htag.
  assert (Hrec : ∀ o x m0, Forall tagged (journal m0) → tagged (o, x) →
            Forall tagged (journal (record o x m0))).
  { intros o x m0 H0 Hx. cbn. apply Forall_app. split; [done|]. now repeat constructor. }
  destruct l as [event|i x]; cbn [step] in Hstep.
  - unfold arrive in Hstep. repeat case_match; simplify_eq; done.
  - unfold resume in Hstep. repeat case_match; simplify_eq; try done;
      cbn [journal set_call store register];
      apply Hrec; done.
Qed.

Lemma run_tagged ls : ∀ m m',
  run ls m = Some m' → Forall tagged (journal m) → Forall tagged (journal m').
Proof.
  induction ls as [|l ls IH]; intros m m' Hrun Htag.
  - now injection Hrun as <-.
  - cbn [run] in Hrun. destruct (step l m) as [m1|] eqn:Hstep; [|discriminate].
    apply (IH m1); [done|]. now apply (step_tagged l m).
Qed.

Lemma keeps_marks_refl m : keeps_marks m m.
Proof.
  intros a p Hp Hno. exists p. split; [done|]. split; [done|].
  split; [apply not_behind_refl|done].
Qed.

Lemma keeps_marks_trans m1 m2 m3 :
  keeps_marks m1 m2 → keeps_marks m2 m3 → keeps_marks m1 m3.
Proof.
  intros H12 H23 a p Hp Hno.
  destruct (H12 a p Hp Hno) as (p2 & Hp2 & Hc2 & Hb2 & Hno2).
  destruct (H23 a p2 Hp2 Hno2) as (p3 & Hp3 & Hc3 & Hb3 & Hno3).
  exists p3. split; [done|]. split; [congruence|].
  split; [eapply not_behind_trans; eauto|done].
Qed.

Lemma run_keeps_marks ls : ∀ m m', Wf m → run ls m = Some m' → keeps_marks m m'.
Proof.
  induction ls as [|l ls IH]; intros m m' Hwf Hrun.
  - injection Hrun as <-. apply keeps_marks_refl.
  - cbn [run] in Hrun. destruct (step l m) as [m1|] eqn:Hstep; [|discriminate].
    destruct (step_Wf l m m1 Hwf Hstep) as [Hwf1 Hk1].
    eapply keeps_marks_trans; [exact Hk1|]. now apply (IH m1).
Qed.

(** ** The order of the dispatches *)

Lemma by_object_elem a (j : list (option nat * Action)) x :
  (Some a, x) ∈ j → x ∈ omap (by_object a) j.
Proof.
  intros Hin. apply list_elem_of_omap. exists (Some a, x). split; [done|].
  unfold by_object. cbn. now rewrite decide_True.
Qed.

Lemma entry_object m a c e ok :
  Wf m → (Some a, Dispatched c e ok) ∈ journal m →
  ∃ p, objects m !! a = Some p ∧ cid p = c.
Proof.
  intros Hwf Hin. apply by_object_elem in Hin.
  pose proof (wf_sound m Hwf a) as Hs.
  destruct (objects m !! a) as [p|].
  - exists p. split; [done|]. destruct Hs as [(_ & _ & _ & _ & Hab) _].
    rewrite Forall_forall in Hab. now apply Hab in Hin.
  - destruct Hs as [_ Hlg]. unfold actions_by in Hlg. rewrite Hlg in Hin.
    now apply elem_of_nil in Hin.
Qed.

Lemma delivered_id_handed c x k : delivered_id c x = Some k → handed_id c x = Some k.
Proof. destruct x as [|c' e [|]|]; cbn; done. Qed.

Lemma delivered_by_one c a (j : list (option nat * Action)) :
  (∀ o x, (o, x) ∈ j → is_Some (handed_id c x) → o = Some a) →
  delivered c (j.*2) = delivered c (omap (by_object a) j).
Proof.
  induction j as [|[o x] j IH]; intros Hone; [done|].
  assert (Hj : delivered c (j.*2) = delivered c (omap (by_object a) j)).
  { apply IH. intros o' x' Hin. apply Hone. now apply list_elem_of_further. }
  cbn [fmap list_fmap snd]. rewrite delivered_cons.
  change (omap (by_object a) ((o, x) :: j))
    with (match by_object a (o, x) with
          | Some y => y :: omap (by_object a) j
          | None => omap (by_object a) j
          end).
  unfold by_object. cbn [fst snd].
  destruct (decide (o = Some a)) as [->|Hne].
  - rewrite delivered_cons. now rewrite Hj.
  - destruct (delivered_id c x) as [k|] eqn:Hk; [|done].
    exfalso. apply Hne, (Hone o x); [apply list_elem_of_here|].
    apply delivered_id_handed in Hk. rewrite Hk. eauto.
Qed.

Lemma handed_id_about c x : is_Some (handed_id c x) → ∃ e ok, x = Dispatched c e ok.
Proof.
  destruct x as [|c' e ok|]; cbn; intros [k Hk]; try discriminate.
  destruct (String.eqb c c') eqn:Hc; [|discriminate].
  apply String.eqb_eq in Hc as <-. eauto.
Qed.

Lemma ascending_one m c :
  Wf m → Forall tagged (journal m) → single c m →
  ∀ pre e ok post, actions m = pre ++ Dispatched c e ok :: post →
    ∃ k, Number (ev_id e) = Num k ∧ Forall (λ j, j < k) (delivered c pre).
Proof.
  intros Hwf Htag Hsingle pre e ok post Heq. unfold actions in Heq.
  apply fmap_app_inv in Heq as (jpre & jrest & -> & Hrest & Hj).
  symmetry in Hrest. apply fmap_cons_inv in Hrest as ([o x] & jpost & Hx & -> & ->).
  cbn in Hx. subst x.
  assert (Hin : (o, Dispatched c e ok) ∈ journal m).
  { rewrite Hj. apply elem_of_app. right. apply list_elem_of_here. }
  rewrite Forall_forall in Htag.
  destruct o as [a|]; [|now apply Htag in Hin].
  destruct (entry_object m a c e ok Hwf Hin) as (p & Hp & Hc).
  pose proof (wf_sound m Hwf a) as Hs. rewrite Hp in Hs.
  destruct Hs as [(_ & _ & _ & Hasc & _) _].
  destruct (Hasc (omap (by_object a) jpre) c e ok (omap (by_object a) jpost))
    as (k & Hid & Hall).
  { unfold actions_by. rewrite Hj, omap_app. f_equal.
    change (omap (by_object a) ((Some a, Dispatched c e ok) :: jpost))
      with (match by_object a (Some a, Dispatched c e ok) with
            | Some y => y :: omap (by_object a) jpost
            | None => omap (by_object a) jpost
            end).
    unfold by_object. cbn [fst snd]. now rewrite decide_True. }
  exists k. split; [done|].
  rewrite (delivered_by_one c a jpre); [done|].
  intros o' x' Hin' Hh. apply handed_id_about in Hh as (e' & ok' & ->).
  assert (Hin2 : (o', Dispatched c e' ok') ∈ journal m).
  { rewrite Hj. apply elem_of_app. now left. }
  destruct o' as [a'|]; [|now apply Htag in Hin2].
  destruct (entry_object m a' c e' ok' Hwf Hin2) as (p' & Hp' & Hc').
  f_equal. exact (Hsingle a' a p' p Hp' Hp Hc' Hc).
Qed.

Lemma sorted_of_ascending c lg :
  (∀ pre e ok post, lg = pre ++ Dispatched c e ok :: post →
     ∃ k, Number (ev_id e) = Num k ∧ Forall (λ j, j < k) (delivered c pre)) →
  StronglySorted Z.lt (delivered c lg).
Proof.
  induction lg as [|x lg IH] using rev_ind; intros Hasc; [constructor|].
  assert (Hlg : StronglySorted Z.lt (delivered c lg)).
  { apply IH. intros pre e ok post Heq. apply (Hasc pre e ok (post ++ [x])).
    rewrite Heq, <- app_assoc. done. }
  rewrite delivered_snoc.
  destruct (delivered_id c x) as [k|] eqn:Hk; [|now rewrite app_nil_r].
  apply StronglySorted_app. split; [|split; [done|repeat constructor]].
  intros i j Hi Hj. apply list_elem_of_singleton in Hj as ->.
  destruct x as [e ok|c' e ok|]; try discriminate.
  destruct ok; [|discriminate]. cbn in Hk.
  destruct (String.eqb c c') eqn:Hc; [|discriminate].
  apply String.eqb_eq in Hc as <-.
  destruct (Hasc lg e true [] eq_refl) as (k' & Hid & Hall).
  rewrite Hid in Hk. injection Hk as <-.
  rewrite Forall_forall in Hall. now apply Hall.
Qed.

Lemma run_init ls m :
  run ls Machine_init = Some m → Wf m ∧ Forall tagged (journal m).
Proof.
  intros Hrun. split.
  - eapply run_Wf; [apply Wf_init|done].
  - eapply run_tagged; [done|constructor].
Qed.

Lemma ascending_object m a :
  Wf m → ascending (actions_by a m).
Proof.
  intros Hwf. pose proof (wf_sound m Hwf a) as Hs.
  destruct (objects m !! a) as [p|].
  - now destruct Hs as [(_ & _ & _ & Hasc & _) _].
  - destruct Hs as [_ ->]. apply ascending_nil.
Qed.

(** ** One processor for a conversation *)

Lemma begin_processNextEvent_cid a (eventId : JsNum) p p' call :
  begin_processNextEvent a eventId p = (p', call) →
  cid p' = cid p ∧ is_Lookback call = false.
Proof.
  unfold begin_processNextEvent. destruct eventId as [|n]; cbn.
  - now intros [= <- <-].
  - destruct (eventsMap p !! n); [now intros [= <- <-]|].
    destruct (_ <? _); now intros [= <- <-].
Qed.

Lemma begin_processEvents_cid a p p' call :
  begin_processEvents a p = (p', call) →
  cid p' = cid p ∧ is_Lookback call = false.
Proof.
  unfold begin_processEvents. destruct (_ <? _)%nat; [now intros [= <- <-]|].
  apply begin_processNextEvent_cid.
Qed.

Lemma enqueue_and_begin_cid a n event p p' call :
  enqueue_and_begin a n event p = (p', call) →
  cid p' = cid p ∧ is_Lookback call = false.
Proof.
  unfold enqueue_and_begin. destruct (negb _).
  - intros H. apply begin_processEvents_cid in H as [H ?].
    change (cid (set_processing true ?q)) with (cid q) in H.
    now rewrite enqueue_cid in H.
  - intros H. assert (p' = enqueue (Num n) event p) as -> by congruence.
    assert (call = Finished Resolved) as -> by congruence.
    now rewrite enqueue_cid.
Qed.

Lemma home_single c m : home c m → single c m.
Proof.
  intros [Hh _] a a' p p' Hp Hp' Hc Hc'.
  pose proof (Hh a p Hp Hc). pose proof (Hh a' p' Hp' Hc'). congruence.
Qed.

Lemma home_init c : home c Machine_init.
Proof. split; [intros a p H; cbn in H; now rewrite lookup_nil in H|constructor]. Qed.

Lemma Forall_snoc_call (P : Call → Prop) cs call :
  Forall P cs → P call → Forall P (cs ++ [call]).
Proof. intros. apply Forall_app. split; [done|]. now constructor. Qed.

Lemma Forall_set_call (P : Call → Prop) (cs : list Call) i call :
  Forall P cs → P call → Forall P (<[i := call]> cs).
Proof. intros. now apply Forall_insert. Qed.

Lemma not_Lookback_home c call :
  is_Lookback call = false →
  match call with Lookback _ c' _ _ _ _ => c' ≠ c | _ => True end.
Proof. now destruct call. Qed.

(** A call goes on with the processor at [a], which keeps its conversation. *)
Lemma home_store c m a p p' i call :
  home c m → objects m !! a = Some p → cid p' = cid p →
  is_Lookback call = false →
  home c (set_call i call (store a p' m)).
Proof.
  intros [Hh Hl] Hp Hcid Hno. split.
  - intros a0 p0 H0 Hc0. cbn in *.
    destruct (decide (a0 = a)) as [->|Hne].
    + rewrite list_lookup_insert_eq in H0 by (eapply lookup_lt_Some; eauto).
      injection H0 as <-. apply (Hh a p Hp). congruence.
    + rewrite list_lookup_insert_ne in H0 by done. now apply (Hh a0 p0).
  - cbn. apply Forall_set_call; [done|]. now apply not_Lookback_home.
Qed.

Lemma arrive_home c event m m' :
  quiet c (Arrive event) = true → home c m → arrive event m = Some m' → home c m'.
Proof.
  intros Hq [Hh Hl]. unfold arrive.
  assert (Hforward : ∀ m', Some (add_call (Forwarding event) m) = Some m' → home c m').
  { intros m0 [= <-]. split; [done|]. cbn. now apply Forall_snoc_call. }
  destruct (negb (truthy (ev_cid event)) || isNaN (Number (ev_id event)));
    [apply Hforward|].
  destruct (ev_cid event) as [c'|] eqn:Hc; [|apply Hforward].
  destruct (Number (ev_id event)) as [|n]; [apply Hforward|].
  destruct (queue_cidMap m !! c') as [a|] eqn:Hreg.
  - destruct (objects m !! a) as [p|] eqn:Hp; [|discriminate].
    destruct (enqueue_and_begin a n event p) as [p' call] eqn:Hb.
    apply enqueue_and_begin_cid in Hb as [Hcid Hno]. intros [= <-]. split.
    + intros a0 p0 H0 Hc0. cbn in *.
      destruct (decide (a0 = a)) as [->|Hne].
      * rewrite list_lookup_insert_eq in H0 by (eapply lookup_lt_Some; eauto).
        injection H0 as <-. apply (Hh a p Hp). congruence.
      * rewrite list_lookup_insert_ne in H0 by done. now apply (Hh a0 p0).
    + cbn. apply Forall_snoc_call; [done|]. now apply not_Lookback_home.
  - destruct (is_transfer_trigger event) eqn:Htrig.
    + assert (Hne : c' ≠ c).
      { intros ->. cbn in Hq. rewrite Htrig, Hc in Hq. cbn in Hq.
        rewrite String.eqb_refl in Hq. discriminate. }
      intros [= <-]. split.
      * intros a0 p0 H0 Hc0. cbn in *.
        destruct (decide (a0 = length (objects m))) as [->|Hn0].
        -- rewrite lookup_allocated in H0. injection H0 as <-. done.
        -- rewrite lookup_allocate in H0 by done. now apply (Hh a0 p0).
      * cbn. now apply Forall_snoc_call.
    + destruct (enqueue_and_begin _ n event _) as [p' call] eqn:Hb.
      apply enqueue_and_begin_cid in Hb as [Hcid Hno]. cbn in Hcid.
      intros [= <-]. split.
      * intros a0 p0 H0 Hc0. cbn in *.
        destruct (decide (a0 = length (objects m))) as [->|Hn0].
        -- rewrite lookup_allocated in H0. injection H0 as <-.
           assert (c' = c) as -> by congruence. apply lookup_insert_eq.
        -- rewrite lookup_allocate in H0 by done.
           specialize (Hh a0 p0 H0 Hc0).
           destruct (decide (c' = c)) as [->|Hne]; [congruence|].
           now rewrite lookup_insert_ne.
      * cbn. apply Forall_snoc_call; [done|]. now apply not_Lookback_home.
Qed.

Lemma resume_home c i x m m' :
  Wf m → home c m → resume i x m = Some m' → home c m'.
Proof.
  intros Hwf Hhome. pose proof Hhome as [Hh Hl]. unfold resume.
  destruct (calls m !! i) as [call|] eqn:Hcall; [|discriminate].
  assert (Hcall_c : match call with Lookback _ c' _ _ _ _ => c' ≠ c | _ => True end).
  { rewrite Forall_forall in Hl. apply Hl. eapply list_elem_of_lookup_2; eauto. }
  destruct call as [event|event c' n a s t|a n t|a n found|a event|a processed|out].
  - destruct x as [ok| |]; try discriminate. intros [= <-].
    split; [done|]. cbn. now apply Forall_set_call.
  - destruct x as [|items|]; try discriminate.
    destruct (objects m !! a) as [p|] eqn:Hp; [|discriminate].
    destruct items as [events|].
    + destruct (fold_left _ events _) as [found p1] eqn:Hscan.
      destruct (enqueue_and_begin a n event p1) as [p' call'] eqn:Hb.
      apply enqueue_and_begin_cid in Hb as [Hcid Hno].
      apply scan_fold_frame in Hscan as (Hc1 & _).
      pose proof (wf_sound m Hwf a) as Hs. rewrite Hp in Hs. destruct Hs as [_ Hph].
      rewrite (calls_on_only a i _ m Hcall eq_refl (phase_length _ _ _ Hph)) in Hph.
      destruct Hph as (-> & _ & _). cbn in Hc1.
      intros [= <-]. split.
      * intros a0 p0 H0 Hc0. cbn in *.
        rewrite lookup_insert_ne by done.
        destruct (decide (a0 = a)) as [->|Hne].
        -- rewrite list_lookup_insert_eq in H0 by (eapply lookup_lt_Some; eauto).
           injection H0 as <-. congruence.
        -- rewrite list_lookup_insert_ne in H0 by done. now apply (Hh a0 p0).
      * cbn. apply Forall_set_call; [done|]. now apply not_Lookback_home.
    + intros [= <-]. split; [done|]. cbn. now apply Forall_set_call.
  - destruct x as [|items|]; try discriminate.
    destruct (objects m !! a) as [p|] eqn:Hp; [|discriminate].
    destruct (match items with
              | Some eventsList => fold_left (merge_fetched n) eventsList (None, p)
              | None => (None, p)
              end) as [found p'] eqn:Hm.
    assert (Hcid : cid p' = cid p).
    { destruct items as [eventsList|]; [|now injection Hm as _ <-].
      apply merge_fold in Hm as (Hmg & _). apply (mg_cid _ _ _ _ Hmg). }
    intros [= <-].
    apply (home_store c (record (Some a) (Fetched (cid p) n t items) m) a p p' i);
      [|done|done|done].
    split; [done|]. done.
  - destruct x; try discriminate.
    destruct (objects m !! a) as [p|] eqn:Hp; [|discriminate].
    destruct found as [e|].
    + intros [= <-]. split; [done|]. cbn. now apply Forall_set_call.
    + destruct (begin_processNextEvent a (Num (n + 1)) p) as [p' call'] eqn:Hb.
      apply begin_processNextEvent_cid in Hb as [Hcid Hno]. intros [= <-].
      now apply (home_store c m a p).
  - destruct x as [ok| |]; try discriminate.
    destruct (objects m !! a) as [p|] eqn:Hp; [|discriminate].
    intros [= <-]. split; [done|]. cbn. now apply Forall_set_call.
  - destruct x; try discriminate.
    destruct (objects m !! a) as [p|] eqn:Hp; [|discriminate].
    destruct processed as [e|].
    + destruct (begin_processEvents a _) as [p' call'] eqn:Hb.
      apply begin_processEvents_cid in Hb as [Hcid Hno]. intros [= <-].
      now apply (home_store c m a p).
    + intros [= <-]. now apply (home_store c m a p).
  - discriminate.
Qed.

Lemma run_home c ls : ∀ m m',
  Wf m → forallb (quiet c) ls = true → home c m → run ls m = Some m' → home c m'.
Proof.
  induction ls as [|l ls IH]; intros m m' Hwf Hq Hh Hrun.
  - now injection Hrun as <-.
  - cbn [run] in Hrun. destruct (step l m) as [m1|] eqn:Hstep; [|discriminate].
    cbn [forallb] in Hq. apply andb_true_iff in Hq as [Hq1 Hq].
    apply (IH m1 m'); [|done| |done].
    + now destruct (step_Wf l m m1 Hwf Hstep).
    + destruct l as [event|i x]; cbn [step] in Hstep.
      * eapply arrive_home; eauto.
      * eapply resume_home; eauto.
Qed.

(** Claim C1, refuted as stated.  With a handler that rejects id 13 once,
    the deliveries 10, 13, 11, 13, one after the other, hand the ids 10, 13,
    11, 13 to the handler: 13 before 11, and twice.  And when the event 11
    arrives while the lookback for the first event 10 of its conversation is
    in flight, each of the two calls creates a processor: 11 is delivered
    before 10, the processor of the first call replaces the other one in
    [cidMap], and when 11 arrives again it is delivered again; every
    dispatch succeeded. *)
Lemma dispatch_order_broken :
  (handed "CON-1" <$>
     trace_of (deliver env_retry 5
                 [text_event 10 "a"; text_event 13 "d"; text_event 11 "b";
                  text_event 13 "d"] ∅ [])
   = Some [10; 13; 11; 13])
  ∧ ((λ m, (delivered "CON-1" (actions m), marks_and_keys <$> objects m, calls m))
       <$> run overlapping_lookback Machine_init
     = Some ([11; 10; 11],
             [(Num 11, 11, [], false); (Num 11, 11, [], false)],
             [Finished Resolved; Finished Resolved; Finished Resolved]))
  ∧ ¬ StronglySorted Z.lt [10; 13; 11; 13]
  ∧ ¬ StronglySorted Z.lt [11; 10; 11].
Proof.
  split; [vm_compute; reflexivity|]. split; [vm_compute; reflexivity|].
  split.
  - intros H. apply StronglySorted_inv in H as [H _].
    apply StronglySorted_inv in H as [_ H].
    apply Forall_cons_1 in H as [H _]. lia.
  - intros H. apply StronglySorted_inv in H as [_ H].
    apply Forall_cons_1 in H as [H _]. lia.
Qed.

(** Claim C1, amended.  In every run, however the calls overlap: every
    event that a processor hands to [application._handleEvent] has a numeric
    id above the ids of all events that this processor delivered before, so
    the ids that one processor delivers increase strictly and none is
    delivered twice; at most one call is suspended on a processor.  The same
    holds for a conversation as long as one processor only has been created
    for it, which is the case when none of its events triggers the lookback.
    And when the calls are made one after the other, the ids
    delivered increase strictly for every conversation, and within one call
    all ids handed to the handler, the failing one included, increase
    strictly. *)
Theorem handed_above_delivered :
  (∀ ls m,
     forallb safe_label ls = true →
     run ls Machine_init = Some m →
     (∀ a pre c e ok post,
        actions_by a m = pre ++ Dispatched c e ok :: post →
        ∃ k, Number (ev_id e) = Num k ∧ Forall (λ j, j < k) (delivered c pre))
     ∧ (∀ a c, StronglySorted Z.lt (delivered c (actions_by a m)))
     ∧ (∀ a, (length (calls_on a m) ≤ 1)%nat)
     ∧ (∀ c, single c m →
          (∀ pre e ok post,
             actions m = pre ++ Dispatched c e ok :: post →
             ∃ k, Number (ev_id e) = Num k ∧ Forall (λ j, j < k) (delivered c pre))
          ∧ StronglySorted Z.lt (delivered c (actions m)))
     ∧ (∀ c, forallb (quiet c) ls = true → single c m))
  ∧ (∀ env fuel events cidMap tr,
       deliver env fuel events ∅ [] = Some (cidMap, tr) →
       (∀ c, StronglySorted Z.lt (delivered c tr))
       ∧ ∀ fuel' event out cidMap' tr',
           EventsQueue_enqueue env fuel' event cidMap tr = Some (out, cidMap', tr') →
           ∃ delta, tr' = tr ++ delta ∧ ∀ c, StronglySorted Z.lt (handed c delta)).
Proof.
  split.
  - intros ls m _ Hrun. destruct (run_init ls m Hrun) as [Hwf Htag].
    split; [|split; [|split; [|split]]].
    + intros a. apply ascending_object, Hwf.
    + intros a c. apply ascending_sorted, ascending_object, Hwf.
    + intros a. pose proof (wf_sound m Hwf a) as Hs.
      destruct (objects m !! a) as [p|].
      * destruct Hs as [_ Hph]. exact (phase_length _ _ _ Hph).
      * destruct Hs as [-> _]. cbn. lia.
    + intros c Hsingle.
      assert (Hasc := ascending_one m c Hwf Htag Hsingle).
      split; [exact Hasc|]. now apply sorted_of_ascending.
    + intros c Hquiet. apply home_single.
      exact (run_home c ls Machine_init m Wf_init Hquiet (home_init c) Hrun).
  - intros env fuel events cidMap tr Hrun.
    assert (Hrest : at_rest cidMap tr).
    { eapply deliver_at_rest; [exact Hrun|apply at_rest_empty]. }
    split.
    + intros c. specialize (Hrest c). destruct (cidMap !! c) as [p|].
      * now destruct Hrest as (_ & _ & _ & Hs & _).
      * apply delivered_nil_of_handed in Hrest. rewrite Hrest. constructor.
    + intros fuel' event out cidMap' tr' Hstep.
      eapply routed_handed. eapply EventsQueue_enqueue_routed; [exact Hstep|].
      intros c p. now apply (at_rest_wf cidMap tr).
Qed.

Lemma handed_above_delivered_witness :
  ∃ m, run overlapping_lookback Machine_init = Some m
       ∧ ∀ a c, StronglySorted Z.lt (delivered c (actions_by a m)).
Proof.
  eexists. split; [vm_compute; reflexivity|].
  refine (proj1 (proj2 (proj1 handed_above_delivered overlapping_lookback _ _ _)));
    vm_compute; reflexivity.
Defined.

(** ** The invariants in every state *)

Lemma run_objects ls m a p :
  run ls Machine_init = Some m → objects m !! a = Some p →
  marks_ordered p ∧ keys_match p ∧ keys_le_largest p
  ∧ (calls_on a m = [] → processing p = false ∧ eventsMap p = ∅).
Proof.
  intros Hrun Hp. destruct (run_init ls m Hrun) as [Hwf _].
  pose proof (wf_sound m Hwf a) as Hs. rewrite Hp in Hs.
  destruct Hs as [(Hkm & Hkl & Hmo & _) Hph].
  split; [done|]. split; [done|]. split; [done|].
  intros Hon. rewrite Hon in Hph. now destruct Hph as (? & ? & _).
Qed.

(** Claim C4, refuted as stated.  After the lookback scan of a page with two
    transfers from the joining member, at 5 and at 8, the last processed id
    is 7 while the buffer still holds the keys 5, 6 and 7.  And when the
    event 10 arrives again while the handler is busy with it, it is buffered
    again, and stays in the buffer when the last processed id becomes 10. *)
Lemma keys_above_last_broken :
  (lastEventIdProcessed (scanned (joined_event 10) page_two_transfers "CON-1" 10)
   = Num 7
   ∧ eventsMap (scanned (joined_event 10) page_two_transfers "CON-1" 10) !! 5
     = Some (history_event 5 "rtc:transfer" "MEM-1")
   ∧ ¬ keys_above_last (scanned (joined_event 10) page_two_transfers "CON-1" 10))
  ∧ ∃ m p,
      run overlapping_dispatch Machine_init = Some m
      ∧ objects m !! 0%nat = Some p
      ∧ lastEventIdProcessed p = Num 10
      ∧ eventsMap p !! 10 = Some (text_event 10 "a")
      ∧ ¬ keys_above_last p.
Proof.
  split.
  - assert (H7 : lastEventIdProcessed
                   (scanned (joined_event 10) page_two_transfers "CON-1" 10) = Num 7)
      by (vm_compute; reflexivity).
    assert (H5 : eventsMap (scanned (joined_event 10) page_two_transfers "CON-1" 10) !! 5
                 = Some (history_event 5 "rtc:transfer" "MEM-1"))
      by (vm_compute; reflexivity).
    split; [done|]. split; [done|].
    intros Habove. specialize (Habove 5 7 (mk_is_Some _ _ H5) H7). lia.
  - eexists _, _. split; [vm_compute; reflexivity|]. split; [reflexivity|].
    split; [reflexivity|]. split; [vm_compute; reflexivity|].
    intros Habove.
    assert (10 < 10); [|lia].
    apply Habove; [|reflexivity]. eexists. vm_compute. reflexivity.
Qed.

(** Claim C4, amended.  The last processed id, when it is a number, is at or
    below the largest id seen in every state that a run reaches, however the
    calls overlap, and after the lookback scan of any page; in every such
    state every buffered event sits under its own id, at or below the largest
    id, and the buffer of a processor on which no call is suspended is
    empty.  No buffered key is at or below the last processed id (and every
    event sits under its own id, at or below the largest id) after creation,
    after [enqueue] of an event under its id, after [dequeue], after a fetch
    has been merged, after a step and after a pass of the drain loop that no
    other call interrupts, and after the lookback scan of a page with at
    most one transfer from the originator of the trigger, with a numeric
    id. *)
Theorem sequencing_invariants :
  (∀ ls m a p,
     forallb safe_label ls = true → run ls Machine_init = Some m →
     objects m !! a = Some p →
     marks_ordered p ∧ keys_match p ∧ keys_le_largest p
     ∧ (calls_on a m = [] → processing p = false ∧ eventsMap p = ∅))
  ∧ (∀ event events c n, marks_ordered (scanned event events c n))
  ∧ (∀ c l, Inv (new_processor c l))
  ∧ (∀ n e p, Number (ev_id e) = Num n → Inv p → Inv (enqueue (Num n) e p))
  ∧ (∀ n p, Inv p → Inv (dequeue n p).2)
  ∧ (∀ env n p tr foundEvent p' tr',
       Inv p → fetchEventsAndProcess env n p tr = (foundEvent, p', tr') → Inv p')
  ∧ (∀ env fuel l p tr r p' tr',
       Inv p → lastEventIdProcessed p = Num l →
       processNextEvent env fuel (Num (l + 1)) p tr = Some (r, p', tr') →
       Inv p' ∧ ∀ e, r = Some e → Inv (set_lastEventIdProcessed (Number (ev_id e)) p'))
  ∧ (∀ env fuel p tr p' tr',
       Inv p → processEvents env fuel p tr = Some (p', tr') → Inv p')
  ∧ (∀ event events c n,
       single_transfer event events = true → Inv (scanned event events c n))
  ∧ (∀ p, Inv p → last_le_largest p ∧ keys_above_last p ∧ marks_ordered p).
Proof.
  split; [|split; [|split; [|split; [|split; [|split; [|split; [|split; [|split]]]]]]]].
  - intros ls m a p _ Hrun Hp. exact (run_objects ls m a p Hrun Hp).
  - apply scanned_marks_ordered.
  - apply new_processor_Inv.
  - intros n e p. apply enqueue_Inv.
  - intros n p. apply dequeue_Inv.
  - intros env n p tr foundEvent p' tr' Hp Hf.
    apply fetchEventsAndProcess_spec in Hf as (_ & Hm & _). eapply merged_Inv; eauto.
  - intros env fuel l p tr r p' tr'. apply processNextEvent_Inv.
  - intros env fuel p tr p' tr'. apply processEvents_Inv.
  - intros event events c n. apply scanned_Inv.
  - intros p [(l & Hl & Hle) Ha _ _]. split; [now exists l|]. split; [done|].
    intros l0 Hl0. congruence.
Qed.

Lemma sequencing_invariants_witness :
  ∃ m p,
    run overlapping_dispatch Machine_init = Some m
    ∧ objects m !! 0%nat = Some p
    ∧ marks_ordered p ∧ keys_match p ∧ keys_le_largest p
    ∧ (calls_on 0 m = [] → processing p = false ∧ eventsMap p = ∅).
Proof.
  eexists _, _. split; [vm_compute; reflexivity|]. split; [reflexivity|].
  refine (proj1 sequencing_invariants overlapping_dispatch _ 0%nat _ _ _ _);
    vm_compute; reflexivity.
Defined.

(** ** A processor in [cidMap] *)

(** Property X7: whatever happens afterwards and however the calls overlap,
    a processor that [cidMap] has held keeps its conversation id, and
    neither its last processed id nor its largest id seen ever decreases. *)
Theorem processor_marks_never_go_back ls ls' m m' c a p :
  forallb safe_label (ls ++ ls') = true →
  run ls Machine_init = Some m → run ls' m = Some m' →
  queue_cidMap m !! c = Some a → objects m !! a = Some p →
  ∃ p', objects m' !! a = Some p' ∧ cid p' = c ∧ not_behind p p'.
Proof.
  intros _ Hrun Hrun' Hc Hp. destruct (run_init ls m Hrun) as [Hwf _].
  pose proof (wf_listed m Hwf c a Hc) as Hli. rewrite Hp in Hli.
  destruct Hli as [Hcid Hno].
  destruct (run_keeps_marks ls' m m' Hwf Hrun' a p Hp Hno) as (p' & Hp' & Hc' & Hb & _).
  exists p'. split; [done|]. split; [congruence|done].
Qed.

Lemma processor_marks_never_go_back_witness :
  ∃ m m' p,
    run (take 2 overlapping_lookback) Machine_init = Some m
    ∧ run (drop 2 overlapping_lookback) m = Some m'
    ∧ objects m !! 1%nat = Some p
    ∧ ∃ p', objects m' !! 1%nat = Some p' ∧ cid p' = "CON-1"%string
            ∧ not_behind p p'.
Proof.
  eexists _, _, _. split; [vm_compute; reflexivity|].
  split; [vm_compute; reflexivity|]. split; [reflexivity|].
  eapply (processor_marks_never_go_back (take 2 overlapping_lookback)
            (drop 2 overlapping_lookback));
    vm_compute; reflexivity.
Defined.

Lemma enqueue_stale n e p l :
  lastEventIdProcessed p = Num l → n ≤ l → l ≤ largestEventIdInQueue p →
  enqueue (Num n) e p = p.
Proof.
  intros Hl Hn Hg. apply processor_eq.
  - apply enqueue_cid.
  - rewrite enqueue_eventsMap, Hl.
    now replace (js_gt (Num n) (Num l)) with false
      by (symmetry; apply js_gt_Num_false; lia).
  - apply enqueue_last.
  - rewrite enqueue_largest. lia.
  - apply enqueue_processing.
  - apply enqueue_range.
Qed.

Lemma store_same a p m : objects m !! a = Some p → store a p m = m.
Proof.
  intros Hp. destruct m as [objs q cs j]. unfold store. cbn in *.
  f_equal. now apply list_insert_id.
Qed.

(** Property X4: in every state that a run reaches, an event whose id is not
    above the last processed id of the processor that [cidMap] holds for its
    conversation is dropped: the call resolves at once, nothing is
    dispatched or requested, and no processor changes. *)
Theorem stale_event_is_dropped ls m event c n a p l :
  forallb safe_label ls = true → run ls Machine_init = Some m →
  ev_cid event = Some c → truthy (Some c) = true →
  Number (ev_id event) = Num n →
  queue_cidMap m !! c = Some a → objects m !! a = Some p →
  lastEventIdProcessed p = Num l → n ≤ l →
  step (Arrive event) m = Some (add_call (Finished Resolved) m).
Proof.
  intros _ Hrun Hc Hcid Hid Hq Hp Hl Hn. destruct (run_init ls m Hrun) as [Hwf _].
  pose proof (wf_sound m Hwf a) as Hs. rewrite Hp in Hs.
  destruct Hs as [(_ & _ & Hmo & _) Hph].
  pose proof (wf_listed m Hwf c a Hq) as Hli. rewrite Hp in Hli.
  destruct Hli as [_ Hno].
  cbn [step]. unfold arrive. rewrite Hc, Hcid, Hid, Hq, Hp. cbn [negb orb isNaN].
  unfold enqueue_and_begin.
  rewrite (enqueue_stale n event p l Hl Hn (Hmo l Hl)).
  destruct (calls_on a m) as [|c0 [|c1 on]] eqn:Hon.
  - destruct Hph as (Hidle & Hmap & _). rewrite Hidle. cbn [negb].
    unfold begin_processEvents.
    change (eventsMap (set_processing true p)) with (eventsMap p).
    rewrite Hmap, map_size_empty. cbn [Nat.ltb Nat.leb].
    assert (doneProcessing (set_processing true p) = p) as ->.
    { apply processor_eq; done. }
    now rewrite (store_same a p m Hp).
  - apply Forall_cons in Hno as [Hc0 _].
    rewrite (phase_busy p _ c0 Hc0 Hph). cbn [negb].
    now rewrite (store_same a p m Hp).
  - destruct c0 as [| | | | |? [?|]|]; destruct Hph.
Qed.

Lemma stale_event_is_dropped_witness :
  ∃ m,
    run (take 4 overlapping_lookback) Machine_init = Some m
    ∧ step (Arrive (text_event 11 "b")) m = Some (add_call (Finished Resolved) m).
Proof.
  eexists. split; [vm_compute; reflexivity|].
  eapply (stale_event_is_dropped (take 4 overlapping_lookback) _
            (text_event 11 "b") "CON-1" 11 1%nat _ 11);
    first [vm_compute; reflexivity|lia].
Defined.
